(** * Herd game backend: round resolution, token rule and win evaluation

    A shallow embedding of the server's answer normalizer
    ([utils/answerNormalizer.js]), of the round tally, token rule and win
    check ([utils/gameLogic.js]), of the Mongoose collections the handlers
    work on, and of the socket handlers of the two server entry files
    (the one that increments [playersAnswered] with [findOneAndUpdate], and
    the one that reads the game, adds one and saves it).

    Conventions of the embedding.
    - A JavaScript string is a [string]: a sequence of code units below
      U+0100 (the Latin-1 range), on which [toLowerCase], [trim] and the
      regular-expression classes [\s], [\b] are written out in full.
    - An [ObjectId] is represented by its hexadecimal rendering, so
      [_id.toString()] is the identity; where the source compares an
      ObjectId object with a string by [!==], the comparison is modelled
      on JavaScript values with their type tag.
    - [null] and [undefined] are [None].
    - Every [await] on a collection is one atomic store operation; a handler
      is a tree of such operations, run either alone (one handler at a
      time) or interleaved with other handlers at its [await] points. *)

From Stdlib Require Import String Ascii List Arith Bool Lia.
From stdpp Require Import gmap strings.
Import ListNotations.
Open Scope string_scope.
Open Scope bool_scope.
Open Scope nat_scope.
Open Scope list_scope.

(** ** utils/answerNormalizer.js *)

(** [\s] and the characters removed by [trim()]: TAB, LF, VT, FF, CR, SPACE
    and NO-BREAK SPACE are the white space and line terminators below
    U+0100. *)
Definition isSpace (c : ascii) : bool :=
  let n := nat_of_ascii c in
  ((9 <=? n) && (n <=? 13)) || (n =? 32) || (n =? 160).

(** [toLowerCase()] on one code unit: A-Z, and the Latin-1 capitals
    U+00C0..U+00DE except the multiplication sign U+00D7. *)
Definition toLowerChar (c : ascii) : ascii :=
  let n := nat_of_ascii c in
  if ((65 <=? n) && (n <=? 90)) ||
     ((192 <=? n) && (n <=? 222) && negb (n =? 215))
  then ascii_of_nat (n + 32) else c.

(** The class [[.,/#!$%^&*;:{}=\-_`~()]]. *)
Definition punctuation : list ascii :=
  list_ascii_of_string ".,/#!$%^&*;:{}=-_`~()".

Definition isPunct (c : ascii) : bool :=
  existsb (Ascii.eqb c) punctuation.

(** A word character of [\b]: [[A-Za-z0-9_]]. *)
Definition isWord (c : ascii) : bool :=
  let n := nat_of_ascii c in
  ((65 <=? n) && (n <=? 90)) || ((97 <=? n) && (n <=? 122)) ||
  ((48 <=? n) && (n <=? 57)) || (n =? 95).

Fixpoint dropWhile {A} (p : A -> bool) (l : list A) : list A :=
  match l with
  | [] => []
  | c :: r => if p c then dropWhile p r else l
  end.

Fixpoint takeWhile {A} (p : A -> bool) (l : list A) : list A :=
  match l with
  | [] => []
  | c :: r => if p c then c :: takeWhile p r else []
  end.

Definition trimStart (l : list ascii) : list ascii := dropWhile isSpace l.
Definition trimEnd (l : list ascii) : list ascii := rev (dropWhile isSpace (rev l)).

(** [.trim()] *)
Definition trim (l : list ascii) : list ascii := trimEnd (trimStart l).

(** [.toLowerCase()] *)
Definition toLowerCase (l : list ascii) : list ascii := map toLowerChar l.

(** [.replace(/\s+/g, ' ')]: every maximal run of white space becomes one
    space; the space is emitted at the last character of the run. *)
Fixpoint collapseSpaces (l : list ascii) : list ascii :=
  match l with
  | [] => []
  | c :: r =>
      if isSpace c then
        match r with
        | [] => [" "%char]
        | c' :: _ => if isSpace c' then collapseSpaces r
                     else " "%char :: collapseSpaces r
        end
      else c :: collapseSpaces r
  end.

(** [.replace(/[.,/#!$%^&*;:{}=\-_`~()]/g, '')] *)
Definition removePunctuation (l : list ascii) : list ascii :=
  List.filter (fun c => negb (isPunct c)) l.

(** [.replace(/s$/i, '')]: one final [s] or [S] is removed. *)
Definition isS (c : ascii) : bool :=
  Ascii.eqb c "s" || Ascii.eqb c "S".

Fixpoint stripFinalS (l : list ascii) : list ascii :=
  match l with
  | [] => []
  | c :: r =>
      match r with
      | [] => if isS c then [] else [c]
      | _ :: _ => c :: stripFinalS r
      end
  end.

(** The second [\b] of [/\b(a|an|the)\b/]: after a matched word character,
    the input ends or a non-word character follows. *)
Definition boundaryAfter (l : list ascii) : bool :=
  match l with
  | [] => true
  | c :: _ => negb (isWord c)
  end.

(** The alternation [(a|an|the)\b] tried at the head of [l], in the order of
    the alternatives: the length of the match, if any. *)
Definition matchArticle (l : list ascii) : option nat :=
  match l with
  | c1 :: r1 =>
      if Ascii.eqb c1 "a" then
        if boundaryAfter r1 then Some 1
        else match r1 with
             | c2 :: r2 =>
                 if Ascii.eqb c2 "n" && boundaryAfter r2 then Some 2 else None
             | [] => None
             end
      else if Ascii.eqb c1 "t" then
        match r1 with
        | c2 :: c3 :: r3 =>
            if Ascii.eqb c2 "h" && Ascii.eqb c3 "e" && boundaryAfter r3
            then Some 3 else None
        | _ => None
        end
      else None
  | [] => None
  end.

(** [.replace(/\b(a|an|the)\b/g, '')], scanning left to right. [prevWord]
    says whether the character before the current position (in the input)
    is a word character; the first [\b] holds when it is not, since every
    alternative starts with a letter. After a match the scan resumes behind
    it. *)
Fixpoint removeArticles (prevWord : bool) (l : list ascii) : list ascii :=
  match l with
  | [] => []
  | c :: r =>
      if prevWord then c :: removeArticles (isWord c) r
      else
        match matchArticle l with
        | Some 1 => removeArticles true r
        | Some 2 =>
            match r with
            | _ :: r2 => removeArticles true r2
            | [] => []
            end
        | Some _ =>
            match r with
            | _ :: _ :: r3 => removeArticles true r3
            | _ => []
            end
        | None => c :: removeArticles (isWord c) r
        end
  end.

Definition normalizeChars (l : list ascii) : list ascii :=
  trim (removeArticles false (stripFinalS (removePunctuation
    (collapseSpaces (trim (toLowerCase l)))))).

(** [normalizeAnswer(answer)]; an absent answer ([undefined], [null]) takes
    the same first branch as the empty string. *)
Definition normalizeAnswer (answer : string) : string :=
  if String.eqb answer "" then ""
  else string_of_list_ascii (normalizeChars (list_ascii_of_string answer)).

(** Two observations on a normalized text, used to say when a second
    normalization changes nothing. *)
Definition endsWithS (s : string) : bool :=
  match rev (list_ascii_of_string s) with
  | c :: _ => Ascii.eqb c "s"
  | [] => false
  end.

Fixpoint doubleSpace (l : list ascii) : bool :=
  match l with
  | c1 :: r => match r with
               | c2 :: _ => (Ascii.eqb c1 " " && Ascii.eqb c2 " ") || doubleSpace r
               | [] => false
               end
  | [] => false
  end.

Definition hasDoubleSpace (s : string) : bool :=
  doubleSpace (list_ascii_of_string s).

(** ** models/*.js: the documents of the four collections

    Each record lists the fields of the Mongoose schema; a field without a
    default that the code may leave unset is an [option]. Identifiers
    ([_id], [gameId], [roundId], [playerId]) are ObjectId strings. *)

Module Game.
Inductive Status := waiting | in_progress | completed.

Record t := mk {
  _id : string;
  roomCode : string;
  hostId : string;
  status : Status;
  currentRound : nat;
  currentQuestion : option string;
  playersAnswered : nat;
  pinkCowHolder : option string;
  usedQuestions : list (option string)
}.

Definition status_eqb (a b : Status) : bool :=
  match a, b with
  | waiting, waiting | in_progress, in_progress | completed, completed => true
  | _, _ => false
  end.

(** The order of the lifecycle [waiting -> in-progress -> completed]. *)
Definition rank (s : Status) : nat :=
  match s with waiting => 0 | in_progress => 1 | completed => 2 end.

(** A modified path of a game document, as [save()] or
    [findByIdAndUpdate] writes it. *)
Inductive Update :=
| set_status (s : Status)
| set_currentRound (n : nat)
| set_currentQuestion (q : option string)
| set_usedQuestions (l : list (option string))
| set_playersAnswered (n : nat)
| set_pinkCowHolder (h : option string).

Definition apply (g : t) (u : Update) : t :=
  match u with
  | set_status s =>
      mk (_id g) (roomCode g) (hostId g) s (currentRound g)
         (currentQuestion g) (playersAnswered g) (pinkCowHolder g) (usedQuestions g)
  | set_currentRound n =>
      mk (_id g) (roomCode g) (hostId g) (status g) n
         (currentQuestion g) (playersAnswered g) (pinkCowHolder g) (usedQuestions g)
  | set_currentQuestion q =>
      mk (_id g) (roomCode g) (hostId g) (status g) (currentRound g)
         q (playersAnswered g) (pinkCowHolder g) (usedQuestions g)
  | set_usedQuestions l =>
      mk (_id g) (roomCode g) (hostId g) (status g) (currentRound g)
         (currentQuestion g) (playersAnswered g) (pinkCowHolder g) l
  | set_playersAnswered n =>
      mk (_id g) (roomCode g) (hostId g) (status g) (currentRound g)
         (currentQuestion g) n (pinkCowHolder g) (usedQuestions g)
  | set_pinkCowHolder h =>
      mk (_id g) (roomCode g) (hostId g) (status g) (currentRound g)
         (currentQuestion g) (playersAnswered g) h (usedQuestions g)
  end.

Definition applyAll (g : t) (us : list Update) : t := fold_left apply us g.
End Game.

Module Player.
Record t := mk {
  _id : string;
  gameId : string;
  username : string;
  isHost : bool;
  score : nat;
  isConnected : bool;
  socketId : string
}.

Inductive Update :=
| set_socketId (s : string)
| set_isConnected (b : bool).

Definition apply (p : t) (u : Update) : t :=
  match u with
  | set_socketId s =>
      mk (_id p) (gameId p) (username p) (isHost p) (score p) (isConnected p) s
  | set_isConnected b =>
      mk (_id p) (gameId p) (username p) (isHost p) (score p) b (socketId p)
  end.

Definition applyAll (p : t) (us : list Update) : t := fold_left apply us p.

(** [{ $inc: { score: 1 } }] *)
Definition incScore (p : t) : t :=
  mk (_id p) (gameId p) (username p) (isHost p) (S (score p))
     (isConnected p) (socketId p).
End Player.

Module Round.
Inductive Status := collecting_answers | completed.

Record t := mk {
  _id : string;
  gameId : string;
  roundNumber : nat;
  status : Status;
  majorityAnswer : option string;
  uniqueAnswerPlayer : option string
}.

(** [round.status = 'completed'; round.majorityAnswer = ...;
    round.uniqueAnswerPlayer = ...] *)
Definition complete (r : t) (maj uniq : option string) : t :=
  mk (_id r) (gameId r) (roundNumber r) completed maj uniq.
End Round.

Module Answer.
Record t := mk {
  gameId : string;
  roundId : string;
  playerId : string;
  username : string;
  originalAnswer : string;
  normalizedAnswer : string
}.
End Answer.

(** ** utils/gameLogic.js *)

(** *** The object [answerCounts]

    [answerCounts] is created by the literal [{}], so it inherits from
    [Object.prototype]: reading a key that is not an own property finds
    the inherited property of that name, if there is one. A value stored
    in it is a number or, after [+ 1] on something that is not a number,
    a string. *)
Inductive JsCount :=
| JNum (n : nat)
| JStr (s : string).

(** The function-valued properties of [Object.prototype], with the text
    [+] turns them into. *)
Definition Object_prototype_function (key : string) : option string :=
  if String.eqb key "constructor" then Some "function Object() { [native code] }"
  else if existsb (String.eqb key)
            ["hasOwnProperty"; "isPrototypeOf"; "propertyIsEnumerable";
             "toLocaleString"; "toString"; "valueOf";
             "__defineGetter__"; "__defineSetter__";
             "__lookupGetter__"; "__lookupSetter__"]
       then Some ("function " ++ key ++ "() { [native code] }")%string
       else None.

(** [(answerCounts[key] || 0) + 1]. The accessor [__proto__] reads as the
    prototype object itself. *)
Definition bumpCount (answerCounts : gmap string JsCount) (key : string) : JsCount :=
  match answerCounts !! key with
  | Some (JNum n) => JNum (n + 1)
  | Some (JStr s) => if String.eqb s "" then JNum 1 else JStr (s ++ "1")
  | None =>
      if String.eqb key "__proto__" then JStr "[object Object]1"
      else match Object_prototype_function key with
           | Some src => JStr (src ++ "1")
           | None => JNum 1
           end
  end.

(** [answerCounts[key] = v]: an own property is created or overwritten,
    except that the inherited setter of [__proto__] ignores a value that
    is not an object. *)
Definition assignCount (answerCounts : gmap string JsCount) (key : string)
    (v : JsCount) : gmap string JsCount :=
  if String.eqb key "__proto__" then answerCounts else <[key := v]> answerCounts.

(** The result of [Math.max(...)]. *)
Inductive JsNumber :=
| Num (n : nat)
| NaN
| NegInfinity.

(** [Math.max] on one more argument. Every string that [bumpCount] stores
    starts with [function] or [[object], so [ToNumber] maps it to NaN. *)
Definition maxStep (acc : JsNumber) (v : JsCount) : JsNumber :=
  match acc, v with
  | NaN, _ => NaN
  | _, JStr _ => NaN
  | NegInfinity, JNum n => Num n
  | Num m, JNum n => Num (Nat.max m n)
  end.

Definition Math_max (vs : list JsCount) : JsNumber := fold_left maxStep vs NegInfinity.

(** [count === maxCount] and [count === 1]: strict equality without
    conversion; NaN equals nothing. *)
Definition countIs (v : JsCount) (x : JsNumber) : bool :=
  match v, x with
  | JNum n, Num m => n =? m
  | _, _ => false
  end.

Record RoundResults := mkResults {
  majorityAnswer : option string;
  uniqueAnswerPlayer : option string;
  scoringPlayers : list string;
  allAnswers : list (string * string * string)
}.

Definition countAnswers (answers : list Answer.t) : gmap string JsCount :=
  fold_left
    (fun answerCounts answer =>
       let normalized := Answer.normalizedAnswer answer in
       assignCount answerCounts normalized (bumpCount answerCounts normalized))
    answers ∅.

Definition keysWhere (p : JsCount -> bool) (answerCounts : gmap string JsCount)
    : list string :=
  map fst (List.filter (fun kv => p (snd kv)) (map_to_list answerCounts)).

(** [analyzeRoundAnswers], applied to the documents that
    [Answer.find({ roundId })] returned. [None] is [null]. The order of
    [Object.entries] is only used through [majorityAnswers[0]] of a
    one-element array and through [includes]. *)
Definition analyzeRoundAnswers (answers : list Answer.t) : option RoundResults :=
  match answers with
  | [] => None
  | _ :: _ =>
      let answerCounts := countAnswers answers in
      let maxCount := Math_max (map snd (map_to_list answerCounts)) in
      let majorityAnswers := keysWhere (fun c => countIs c maxCount) answerCounts in
      let uniqueAnswers := keysWhere (fun c => countIs c (Num 1)) answerCounts in
      let uniquePlayers :=
        match uniqueAnswers with
        | [_] =>
            option_map Answer.playerId
              (List.find (fun a => existsb (String.eqb (Answer.normalizedAnswer a))
                                     uniqueAnswers) answers)
        | _ => None
        end in
      let scoringPlayers :=
        match majorityAnswers with
        | [m] => map Answer.playerId
                   (List.filter (fun a => String.eqb (Answer.normalizedAnswer a) m)
                      answers)
        | _ => []
        end in
      Some {| majorityAnswer := match majorityAnswers with [m] => Some m | _ => None end;
              uniqueAnswerPlayer := uniquePlayers;
              scoringPlayers := scoringPlayers;
              allAnswers := map (fun a => (Answer.playerId a, Answer.username a,
                                           Answer.originalAnswer a)) answers |}
  end.

(** A string-or-null value in a condition: [null], [undefined] and the
    empty string are falsy. *)
Definition truthy (v : option string) : bool :=
  match v with
  | Some s => negb (String.eqb s "")
  | None => false
  end.

(** [(v || '').toString()] *)
Definition orEmpty (v : option string) : string :=
  match v with
  | Some s => if String.eqb s "" then "" else s
  | None => ""
  end.

(** [determinePinkCowHolder(currentHolder, uniqueAnswerPlayer)] *)
Definition determinePinkCowHolder (currentHolder uniqueAnswerPlayer : option string)
    : option string :=
  match uniqueAnswerPlayer with
  | Some u =>
      if truthy uniqueAnswerPlayer && negb (String.eqb u (orEmpty currentHolder))
      then Some u
      else if truthy currentHolder then currentHolder else None
  | None => if truthy currentHolder then currentHolder else None
  end.

(** [player._id !== pinkCowHolder], where [player] is a Mongoose document
    and [pinkCowHolder] the result of [determinePinkCowHolder]: the left
    side is an ObjectId object and the right side a string or [null];
    [!==] converts neither, so the two are never equal. *)
Definition objectId_strictNeq_string (_id : string) (pinkCowHolder : option string)
    : bool := true.

(** [checkWinCondition(player, pinkCowHolder)] *)
Definition checkWinCondition (player : Player.t) (pinkCowHolder : option string) : bool :=
  (8 <=? Player.score player) &&
  objectId_strictNeq_string (Player._id player) pinkCowHolder.

(** [getRandomQuestion(usedQuestions = [])]. The catalog
    [PREDEFINED_QUESTIONS] of [utils/constants.js] and the value of
    [Math.random()] (as the index it selects, before reduction modulo the
    length) are arguments. [None] is the [undefined] an empty catalog
    yields. *)
Definition getRandomQuestion (PREDEFINED_QUESTIONS : list string) (random : nat)
    (usedQuestions : list (option string)) : option string :=
  let availableQuestions :=
    List.filter (fun q => negb (existsb
                   (fun u => match u with Some s => String.eqb s q | None => false end)
                   usedQuestions))
      PREDEFINED_QUESTIONS in
  match availableQuestions with
  | [] => nth_error PREDEFINED_QUESTIONS (random mod length PREDEFINED_QUESTIONS)
  | _ :: _ => nth_error availableQuestions (random mod length availableQuestions)
  end.

(** *** The win evaluation written inside the [submit_answer] handler of
    the server that increments atomically:
    [playersWithEightPoints], [potentialWinners] and the [reduce]. *)

(** [p._id.toString() !== newPinkCowHolder]: two strings, or a string and
    [null]. *)
Definition idIsNot (id : string) (holder : option string) : bool :=
  match holder with
  | Some h => negb (String.eqb id h)
  | None => true
  end.

Definition potentialWinners (updatedPlayers : list Player.t)
    (newPinkCowHolder : option string) : list Player.t :=
  let playersWithEightPoints :=
    List.filter (fun p => 8 <=? Player.score p) updatedPlayers in
  List.filter (fun p => idIsNot (Player._id p) newPinkCowHolder) playersWithEightPoints.

(** [potentialWinners.reduce((prev, current) =>
      (prev.score > current.score) ? prev : current)] on a non-empty
    array. *)
Definition keepHigher (prev current : Player.t) : Player.t :=
  if Player.score current <? Player.score prev then prev else current.

Definition declareWinner (updatedPlayers : list Player.t)
    (newPinkCowHolder : option string) : option Player.t :=
  match potentialWinners updatedPlayers newPinkCowHolder with
  | [] => None
  | first :: rest => Some (fold_left keepHigher rest first)
  end.

(** The win evaluation of the server that reads, adds one and saves:
    [updatedPlayers.find(p => checkWinCondition(p, newPinkCowHolder))]. *)
Definition findWinner (updatedPlayers : list Player.t)
    (newPinkCowHolder : option string) : option Player.t :=
  List.find (fun p => checkWinCondition p newPinkCowHolder) updatedPlayers.

(** *** The win evaluation in the words of the specification

    "The winner is the highest-scoring member of [eligible], ties broken by
    first-encountered in player iteration order": a later player replaces
    the candidate only with a strictly higher score. Used to compare with
    [declareWinner]. *)
Definition keepFirstHighest (prev current : Player.t) : Player.t :=
  if Player.score prev <? Player.score current then current else prev.

Definition specWinner (players : list Player.t) (tokenHolder : option string)
    : option Player.t :=
  match potentialWinners players tokenHolder with
  | [] => None
  | first :: rest => Some (fold_left keepFirstHighest rest first)
  end.

(** A player is eligible to win: at least 8 points and not the holder. *)
Definition eligible (tokenHolder : option string) (p : Player.t) : Prop :=
  8 <= Player.score p /\ Some (Player._id p) <> tokenHolder.

(** *** Words for the round tally *)

(** The group size of a canonical text. *)
Definition groupSize (answers : list Answer.t) (text : string) : nat :=
  length (List.filter (fun a => String.eqb (Answer.normalizedAnswer a) text) answers).

(** A text under which [answerCounts] finds nothing inherited. *)
Definition ownKeyOnly (key : string) : bool :=
  negb (String.eqb key "__proto__") &&
  match Object_prototype_function key with None => true | Some _ => false end.

(** The count stored for a group of [n] answers. *)
Definition storedCount (n : nat) : option JsCount :=
  match n with
  | 0 => None
  | S _ => Some (JNum n)
  end.

(** ** The store and the operations the handlers await *)

Record Store := mkStore {
  games : list Game.t;
  players : list Player.t;
  rounds : list Round.t;
  answers : list Answer.t
}.

Definition emptyStore : Store := mkStore [] [] [] [].

(** [updateOne]: the first document that matches is replaced. *)
Fixpoint updateFirst {A} (p : A -> bool) (f : A -> A) (l : list A) : list A :=
  match l with
  | [] => []
  | x :: r => if p x then f x :: r else x :: updateFirst p f r
  end.

(** [updateMany]: every document that matches is replaced. *)
Definition updateAll {A} (p : A -> bool) (f : A -> A) (l : list A) : list A :=
  map (fun x => if p x then f x else x) l.

Definition withGames (s : Store) (l : list Game.t) : Store :=
  mkStore l (players s) (rounds s) (answers s).
Definition withPlayers (s : Store) (l : list Player.t) : Store :=
  mkStore (games s) l (rounds s) (answers s).
Definition withRounds (s : Store) (l : list Round.t) : Store :=
  mkStore (games s) (players s) l (answers s).
Definition withAnswers (s : Store) (l : list Answer.t) : Store :=
  mkStore (games s) (players s) (rounds s) l.

(** The queries, as filters on documents. *)
Definition gameHasId (id : string) (g : Game.t) : bool := String.eqb (Game._id g) id.
Definition gameInProgress (id : string) (g : Game.t) : bool :=
  gameHasId id g && Game.status_eqb (Game.status g) Game.in_progress.
Definition playerHasId (id : string) (p : Player.t) : bool := String.eqb (Player._id p) id.
Definition playerInGame (gameId : string) (p : Player.t) : bool :=
  String.eqb (Player.gameId p) gameId.
Definition playerOnSocket (gameId socketId : string) (p : Player.t) : bool :=
  playerInGame gameId p && String.eqb (Player.socketId p) socketId.
Definition playerConnected (gameId : string) (p : Player.t) : bool :=
  playerInGame gameId p && Player.isConnected p.
Definition roundIs (gameId : string) (n : nat) (r : Round.t) : bool :=
  String.eqb (Round.gameId r) gameId && (Round.roundNumber r =? n).
Definition answerInRound (roundId : string) (a : Answer.t) : bool :=
  String.eqb (Answer.roundId a) roundId.
Definition sameRoundAndPlayer (a b : Answer.t) : bool :=
  answerInRound (Answer.roundId a) b && String.eqb (Answer.playerId b) (Answer.playerId a).

(** [{ $inc: { playersAnswered: 1 } }] *)
Definition incPlayersAnswered (g : Game.t) : Game.t :=
  Game.apply g (Game.set_playersAnswered (Game.playersAnswered g + 1)).

(** Whether [save()] rejects a new answer: a required string is empty, or
    the unique index on [(roundId, playerId)] has the pair already. *)
Definition answerRejected (existing : list Answer.t) (a : Answer.t) : bool :=
  String.eqb (Answer.playerId a) "" || String.eqb (Answer.username a) "" ||
  String.eqb (Answer.originalAnswer a) "" ||
  String.eqb (Answer.normalizedAnswer a) "" ||
  existsb (sameRoundAndPlayer a) existing.

(** An operation on a collection and the type of what it resolves to.
    [option] is a document or [null]; [bool] says whether a [save()] of a
    new document went through ([false]: validation or a unique index
    rejected it, the promise rejects and the handler's [catch] runs). *)
Inductive Query : Type -> Type :=
(* Game *)
| Game_findOne_roomCode (roomCode : string) : Query (option Game.t)
| Game_findById (id : string) : Query (option Game.t)
| Game_findOne_id_roomCode (id roomCode : string) : Query (option Game.t)
| Game_create (_id roomCode hostId : string) : Query (option Game.t)
| Game_update (id : string) (us : list Game.Update) : Query unit
| Game_incPlayersAnswered (id : string) : Query (option Game.t)
(* Player *)
| Player_findOne_username (gameId username : string) : Query (option Player.t)
| Player_findOne_socket (gameId socketId : string) : Query (option Player.t)
| Player_findOne_anySocket (socketId : string) : Query (option Player.t)
| Player_findOne_disconnected (gameId username : string) : Query (option Player.t)
| Player_find (gameId : string) : Query (list Player.t)
| Player_countConnected (gameId : string) : Query nat
| Player_create (_id gameId username : string) (isHost : bool) (socketId : string)
    : Query (option Player.t)
| Player_update (id : string) (us : list Player.Update) : Query unit
| Player_disconnect_socket (gameId socketId : string) : Query unit
| Player_incScore_in (ids : list string) : Query unit
| Player_incScore_byId (id : string) : Query unit
(* Round *)
| Round_findOne (gameId : string) (roundNumber : nat) : Query (option Round.t)
| Round_create (_id gameId : string) (roundNumber : nat) : Query (option Round.t)
| Round_complete (id : string) (maj uniq : option string) : Query unit
(* Answer *)
| Answer_create (a : Answer.t) : Query bool
| Answer_find (roundId : string) : Query (list Answer.t)
| Answer_countDocuments (roundId : string) : Query nat.

(** What the store does for each operation. The [_create] operations are
    [new Model({...}).save()]: schema defaults are filled in ([status],
    [currentRound], [playersAnswered], [score], [isConnected]), a required
    string must be non-empty, and the unique indexes ([roomCode];
    [gameId, username]; [gameId, roundNumber]; [roundId, playerId]) reject
    a second document with the same key. *)
Definition exec {R} (q : Query R) (s : Store) : Store * R :=
  match q in Query R return Store * R with
  | Game_findOne_roomCode code =>
      (s, List.find (fun g => String.eqb (Game.roomCode g) code) (games s))
  | Game_findById id =>
      (s, List.find (gameHasId id) (games s))
  | Game_findOne_id_roomCode id code =>
      (s, List.find (fun g => gameHasId id g && String.eqb (Game.roomCode g) code)
            (games s))
  | Game_create id code host =>
      if String.eqb code "" || String.eqb host "" ||
         existsb (fun g => String.eqb (Game.roomCode g) code) (games s)
      then (s, None)
      else let g := Game.mk id code host Game.waiting 0 None 0 None [] in
           (withGames s (games s ++ [g]), Some g)
  | Game_update id us =>
      (withGames s (updateFirst (gameHasId id) (fun g => Game.applyAll g us) (games s)), tt)
  | Game_incPlayersAnswered id =>
      (withGames s (updateFirst (gameInProgress id) incPlayersAnswered (games s)),
       option_map incPlayersAnswered (List.find (gameInProgress id) (games s)))
  | Player_findOne_username gid name =>
      (s, List.find (fun p => playerInGame gid p && String.eqb (Player.username p) name)
            (players s))
  | Player_findOne_socket gid sock =>
      (s, List.find (playerOnSocket gid sock) (players s))
  | Player_findOne_anySocket sock =>
      (s, List.find (fun p => String.eqb (Player.socketId p) sock) (players s))
  | Player_findOne_disconnected gid name =>
      (s, List.find (fun p => playerInGame gid p && String.eqb (Player.username p) name
                              && negb (Player.isConnected p))
            (players s))
  | Player_find gid =>
      (s, List.filter (playerInGame gid) (players s))
  | Player_countConnected gid =>
      (s, length (List.filter (playerConnected gid) (players s)))
  | Player_create id gid name host sock =>
      if String.eqb name "" ||
         existsb (fun p => playerInGame gid p && String.eqb (Player.username p) name)
           (players s)
      then (s, None)
      else let p := Player.mk id gid name host 0 true sock in
           (withPlayers s (players s ++ [p]), Some p)
  | Player_update id us =>
      (withPlayers s (updateFirst (playerHasId id) (fun p => Player.applyAll p us)
                        (players s)), tt)
  | Player_disconnect_socket gid sock =>
      (withPlayers s
         (updateFirst (playerOnSocket gid sock)
            (fun p => Player.apply p (Player.set_isConnected false)) (players s)), tt)
  | Player_incScore_in ids =>
      (withPlayers s
         (updateAll (fun p => existsb (String.eqb (Player._id p)) ids) Player.incScore
            (players s)), tt)
  | Player_incScore_byId id =>
      (withPlayers s (updateFirst (playerHasId id) Player.incScore (players s)), tt)
  | Round_findOne gid n =>
      (s, List.find (roundIs gid n) (rounds s))
  | Round_create id gid n =>
      if existsb (roundIs gid n) (rounds s) then (s, None)
      else let r := Round.mk id gid n Round.collecting_answers None None in
           (withRounds s (rounds s ++ [r]), Some r)
  | Round_complete id maj uniq =>
      (withRounds s
         (updateFirst (fun r => String.eqb (Round._id r) id)
            (fun r => Round.complete r maj uniq) (rounds s)), tt)
  | Answer_create a =>
      if answerRejected (answers s) a then (s, false)
      else (withAnswers s (answers s ++ [a]), true)
  | Answer_find rid =>
      (s, List.filter (answerInRound rid) (answers s))
  | Answer_countDocuments rid =>
      (s, length (List.filter (answerInRound rid) (answers s)))
  end.

(** ** What a handler sends *)

Module Msg.
(** The payload of an emitted event, named after the event. *)
Inductive t :=
| error (message : string)
| game_created (gameId roomCode playerId : string)
| game_joined (game : Game.t) (playerId : string) (roundResults : option RoundResults)
| players_updated (players : list Player.t)
| game_started (gameState : Game.t) (players : list Player.t) (round : Round.t)
| player_answered (playersAnswered totalPlayers : nat)
| player_answered_by (username : string) (playersAnswered : nat)
| round_completed (results : RoundResults) (pinkCowHolder : option string)
    (players : list Player.t)
| round_completed_with (results : RoundResults) (pinkCowHolder : option string)
    (players : list Player.t) (winner : option Player.t)
| game_completed (winner : Player.t)
| next_round (roundNumber : nat) (question : option string)
| game_rejoined (game : Game.t) (playerId : string) (players : list Player.t)
    (playersAnswered : nat)
| reconnect_failed (reason : string).
End Msg.

Inductive Event :=
| to_socket (socketId : string) (m : Msg.t)      (* socket.emit *)
| to_room (roomCode : string) (m : Msg.t)        (* io.to(roomCode).emit *)
| socket_join (socketId roomCode : string).      (* socket.join *)

(** ** Handlers as trees of awaited operations

    An [async] handler is [Done], or emits an event and goes on, or awaits
    an operation and goes on with its result. *)
Inductive Async :=
| Done
| Emit (e : Event) (k : Async)
| Await {R : Type} (q : Query R) (k : R -> Async).

(** One handler run from start to end with nothing in between. *)
Fixpoint run (p : Async) (s : Store) : Store * list Event :=
  match p with
  | Done => (s, [])
  | Emit e k => let '(s', es) := run k s in (s', e :: es)
  | Await q k => let '(s', r) := exec q s in run (k r) s'
  end.

(** What a request needs from outside: the ObjectIds of the documents it
    may create, the room codes [generateRoomCode] draws one after the
    other, and the value of [Math.random()] for the question. *)
Record Fresh := mkFresh {
  newGameId : string;
  newPlayerId : string;
  newRoundId : string;
  roomCodes : list string;
  random : nat
}.

Module Req.
(** The events a client sends. *)
Inductive t :=
| create_game (username : string)
| join_game (roomCode username : string)
| start_game (gameId : string)
| submit_answer (gameId answer : string)
| next_round (gameId : string)
| remove_player (gameId playerId : string)
| reconnect_game (gameId roomCode username : string)
| disconnect.
End Req.

(** ** The handlers that have the same text in both server files *)

Module Common.

Definition fail (sock message : string) : Async :=
  Emit (to_socket sock (Msg.error message)) Done.

(** [Game.generateRoomCode()]: candidates are drawn until one is not in
    use. When the candidates supplied run out the loop is still running,
    and nothing has been written. *)
Fixpoint generateRoomCode (candidates : list string) (k : string -> Async) : Async :=
  match candidates with
  | [] => Done
  | roomCode :: more =>
      Await (Game_findOne_roomCode roomCode) (fun existingGame =>
        match existingGame with
        | None => k roomCode
        | Some _ => generateRoomCode more k
        end)
  end.

(** [socket.on('join_game', ...)] *)
Definition join_game (sock roomCode username : string) (f : Fresh) : Async :=
  Await (Game_findOne_roomCode roomCode) (fun game =>
  match game with
  | None => fail sock "Game not found"
  | Some game =>
    Await (Player_findOne_username (Game._id game) username) (fun player =>
    let rest (player : Player.t) : Async :=
      Emit (socket_join sock roomCode)
      (Await (Round_findOne (Game._id game) (Game.currentRound game)) (fun currentRound =>
       let finish (roundResults : option RoundResults) : Async :=
         Emit (to_socket sock (Msg.game_joined game (Player._id player) roundResults))
         (Await (Player_find (Game._id game)) (fun players =>
          Emit (to_room roomCode (Msg.players_updated players)) Done)) in
       match currentRound with
       | Some r =>
           match Round.status r with
           | Round.completed =>
               Await (Answer_find (Round._id r)) (fun answers =>
                 finish (analyzeRoundAnswers answers))
           | Round.collecting_answers => finish None
           end
       | None => finish None
       end)) in
    match player with
    | None =>
        if negb (Game.status_eqb (Game.status game) Game.waiting)
        then fail sock "Game already in progress"
        else Await (Player_create (newPlayerId f) (Game._id game) username false sock)
               (fun created =>
                  match created with
                  | Some p => rest p
                  | None => fail sock "Failed to join game"
                  end)
    | Some player =>
        Await (Player_update (Player._id player)
                 [Player.set_socketId sock; Player.set_isConnected true])
          (fun _ => rest (Player.applyAll player
                            [Player.set_socketId sock; Player.set_isConnected true]))
    end)
  end).

(** [socket.on('start_game', ...)] *)
Definition start_game (PREDEFINED_QUESTIONS : list string)
    (sock gameId : string) (f : Fresh) : Async :=
  Await (Game_findById gameId) (fun game =>
  match game with
  | None => fail sock "Game not found"
  | Some game =>
    if negb (String.eqb (Game.hostId game) sock)
    then fail sock "Only host can start the game"
    else
      let firstQuestion := getRandomQuestion PREDEFINED_QUESTIONS (random f) [] in
      let us := [Game.set_status Game.in_progress; Game.set_currentRound 1;
                 Game.set_currentQuestion firstQuestion;
                 Game.set_usedQuestions [firstQuestion]] in
      Await (Game_update (Game._id game) us) (fun _ =>
      Await (Round_create (newRoundId f) (Game._id game) 1) (fun round =>
      match round with
      | None => fail sock "Failed to start game"
      | Some round =>
        Await (Player_find (Game._id game)) (fun players =>
        Emit (to_room (Game.roomCode game)
                (Msg.game_started (Game.applyAll game us) players round)) Done)
      end))
  end).

(** [socket.on('next_round', ...)] *)
Definition next_round (PREDEFINED_QUESTIONS : list string)
    (sock gameId : string) (f : Fresh) : Async :=
  Await (Game_findById gameId) (fun game =>
  match game with
  | None => fail sock "Invalid game state"
  | Some game =>
    if negb (Game.status_eqb (Game.status game) Game.in_progress)
    then fail sock "Invalid game state"
    else if negb (String.eqb (Game.hostId game) sock)
    then fail sock "Only host can start next round"
    else
      Await (Round_create (newRoundId f) gameId (Game.currentRound game + 1)) (fun nextRound =>
      match nextRound with
      | None => fail sock "Failed to start next round"
      | Some _ =>
        let nextQuestion :=
          getRandomQuestion PREDEFINED_QUESTIONS (random f) (Game.usedQuestions game) in
        Await (Game_update (Game._id game)
                 [Game.set_currentRound (Game.currentRound game + 1);
                  Game.set_currentQuestion nextQuestion;
                  Game.set_usedQuestions (Game.usedQuestions game ++ [nextQuestion])])
          (fun _ =>
        Emit (to_room (Game.roomCode game)
                (Msg.next_round (Game.currentRound game + 1) nextQuestion)) Done)
      end)
  end).

(** [socket.on('remove_player', ...)] *)
Definition remove_player (sock gameId playerId : string) : Async :=
  Await (Game_findById gameId) (fun game =>
  match game with
  | None => fail sock "Unauthorized"
  | Some game =>
    if negb (String.eqb sock (Game.hostId game))
    then fail sock "Unauthorized"
    else
      Await (Player_disconnect_socket gameId playerId) (fun _ =>
      Await (Player_find gameId) (fun players =>
      Emit (to_room (Game.roomCode game) (Msg.players_updated players)) Done))
  end).

(** [socket.on('disconnect', ...)] *)
Definition disconnect (sock : string) : Async :=
  Await (Player_findOne_anySocket sock) (fun player =>
  match player with
  | None => Done
  | Some player =>
    Await (Player_update (Player._id player) [Player.set_isConnected false]) (fun _ =>
    Await (Game_findById (Player.gameId player)) (fun game =>
    match game with
    | None => Done
    | Some game =>
      Await (Player_find (Game._id game)) (fun players =>
      Emit (to_room (Game.roomCode game) (Msg.players_updated players)) Done)
    end))
  end).

End Common.

(** ** The server file whose [submit_answer] increments the counter with
    [findOneAndUpdate] (it also has [reconnect_game]) *)

Module Part000.
Import Common.

(** [socket.on('create_game', ...)] *)
Definition create_game (sock username : string) (f : Fresh) : Async :=
  generateRoomCode (roomCodes f) (fun roomCode =>
  Await (Game_create (newGameId f) roomCode sock) (fun game =>
  match game with
  | None => fail sock "Failed to create game"
  | Some game =>
    Await (Player_create (newPlayerId f) (Game._id game) username true sock) (fun host =>
    match host with
    | None => fail sock "Failed to create game"
    | Some host =>
      Emit (socket_join sock roomCode)
      (Emit (to_socket sock (Msg.game_created (Game._id game) roomCode (Player._id host)))
       Done)
    end)
  end)).

(** [socket.on('submit_answer', ...)], from its end to its start: each
    definition is the handler from one [await] on. *)

(** ... [Game.findByIdAndUpdate(gameId, { status: 'completed' })] and the
    [game_completed] broadcast. *)
Definition sa_complete (gameId : string) (game : Game.t) (winner : Player.t) : Async :=
  Await (Game_update gameId [Game.set_status Game.completed]) (fun _ =>
  Emit (to_room (Game.roomCode game) (Msg.game_completed winner)) Done).

(** ... [Player.find({ gameId })], the [round_completed] broadcast and
    the win evaluation. *)
Definition sa_broadcast (gameId : string) (game : Game.t)
    (results : RoundResults) (newPinkCowHolder : option string) : Async :=
  Await (Player_find gameId) (fun updatedPlayers =>
  Emit (to_room (Game.roomCode game)
          (Msg.round_completed results newPinkCowHolder updatedPlayers))
    match declareWinner updatedPlayers newPinkCowHolder with
    | Some winner => sa_complete gameId game winner
    | None => Done
    end).

(** ... [Game.findByIdAndUpdate(gameId, { pinkCowHolder, playersAnswered: 0 })] *)
Definition sa_reset (gameId : string) (game : Game.t)
    (results : RoundResults) (newPinkCowHolder : option string) : Async :=
  Await (Game_update gameId [Game.set_pinkCowHolder newPinkCowHolder;
                             Game.set_playersAnswered 0]) (fun _ =>
  sa_broadcast gameId game results newPinkCowHolder).

(** ... the inner [try]: [analyzeRoundAnswers(round._id)], the token
    rule and the score update. *)
Definition sa_close (sock gameId : string) (game : Game.t) (round : Round.t) : Async :=
  Await (Answer_find (Round._id round)) (fun answers =>
  match analyzeRoundAnswers answers with
  | None => fail sock "Error completing round"
  | Some results =>
    let newPinkCowHolder :=
      determinePinkCowHolder (Game.pinkCowHolder game) (uniqueAnswerPlayer results) in
    match scoringPlayers results with
    | [] => sa_reset gameId game results newPinkCowHolder
    | _ :: _ =>
        Await (Player_incScore_in (scoringPlayers results)) (fun _ =>
        sa_reset gameId game results newPinkCowHolder)
    end
  end).

(** ... [Player.countDocuments({ gameId, isConnected: true })], the
    [player_answered] broadcast and the test
    [game.playersAnswered >= connectedPlayers]. *)
Definition sa_count (sock gameId : string) (game : Game.t) (round : Round.t) : Async :=
  Await (Player_countConnected gameId) (fun connectedPlayers =>
  Emit (to_room (Game.roomCode game)
          (Msg.player_answered (Game.playersAnswered game) connectedPlayers))
    (if connectedPlayers <=? Game.playersAnswered game
     then sa_close sock gameId game round
     else Done)).

(** ... [new Answer({...}).save()] *)
Definition sa_save (sock gameId answer : string) (game : Game.t)
    (player : Player.t) (round : Round.t) : Async :=
  Await (Answer_create
           (Answer.mk gameId (Round._id round) (Player._id player)
              (Player.username player) answer (normalizeAnswer answer))) (fun saved =>
  if saved then sa_count sock gameId game round
  else fail sock "Failed to submit answer").

(** ... [Round.findOne({ gameId, roundNumber: game.currentRound })];
    [round._id] on [null] throws into the outer [catch]. *)
Definition sa_round (sock gameId answer : string) (game : Game.t)
    (player : Player.t) : Async :=
  Await (Round_findOne gameId (Game.currentRound game)) (fun round =>
  match round with
  | None => fail sock "Failed to submit answer"
  | Some round => sa_save sock gameId answer game player round
  end).

(** ... [Player.findOne({ gameId, socketId: socket.id })] *)
Definition sa_player (sock gameId answer : string) (game : Game.t) : Async :=
  Await (Player_findOne_socket gameId sock) (fun player =>
  match player with
  | None => fail sock "Player not found"
  | Some player => sa_round sock gameId answer game player
  end).

(** The whole handler, starting with
    [Game.findOneAndUpdate({ _id, status: 'in-progress' },
       { $inc: { playersAnswered: 1 } }, { new: true })]. *)
Definition submit_answer (sock gameId answer : string) : Async :=
  Await (Game_incPlayersAnswered gameId) (fun game =>
  match game with
  | None => fail sock "Invalid game state"
  | Some game => sa_player sock gameId answer game
  end).

(** [socket.on('reconnect_game', ...)] *)
Definition reconnect_game (sock gameId roomCode username : string) : Async :=
  Await (Game_findOne_id_roomCode gameId roomCode) (fun game =>
  match game with
  | None => Emit (to_socket sock (Msg.reconnect_failed "Game not found")) Done
  | Some game =>
    Await (Player_findOne_disconnected gameId username) (fun player =>
    match player with
    | None =>
        Emit (to_socket sock
                (Msg.reconnect_failed "Player not found or already connected")) Done
    | Some player =>
      Await (Player_update (Player._id player)
               [Player.set_socketId sock; Player.set_isConnected true]) (fun _ =>
      Emit (socket_join sock (Game.roomCode game))
      (Await (Player_find (Game._id game)) (fun players =>
       Await (Round_findOne (Game._id game) (Game.currentRound game)) (fun currentRound =>
       let finish (playersAnswered : nat) : Async :=
         Emit (to_socket sock
                 (Msg.game_rejoined game (Player._id player) players playersAnswered))
         (Emit (to_room (Game.roomCode game) (Msg.players_updated players)) Done) in
       match currentRound with
       | Some r => Await (Answer_countDocuments (Round._id r)) finish
       | None => finish 0
       end))))
    end)
  end).

Definition handle (PREDEFINED_QUESTIONS : list string) (sock : string)
    (req : Req.t) (f : Fresh) : Async :=
  match req with
  | Req.create_game username => create_game sock username f
  | Req.join_game roomCode username => join_game sock roomCode username f
  | Req.start_game gameId => start_game PREDEFINED_QUESTIONS sock gameId f
  | Req.submit_answer gameId answer => submit_answer sock gameId answer
  | Req.next_round gameId => next_round PREDEFINED_QUESTIONS sock gameId f
  | Req.remove_player gameId playerId => remove_player sock gameId playerId
  | Req.reconnect_game gameId roomCode username =>
      reconnect_game sock gameId roomCode username
  | Req.disconnect => disconnect sock
  end.

End Part000.

(** ** The server file whose [submit_answer] reads the game, adds one and
    saves it *)

Module Part001.
Import Common.

(** [socket.on('create_game', ...)]; the event carries [socket.id] as
    [playerId]. *)
Definition create_game (sock username : string) (f : Fresh) : Async :=
  generateRoomCode (roomCodes f) (fun roomCode =>
  Await (Game_create (newGameId f) roomCode sock) (fun game =>
  match game with
  | None => fail sock "Failed to create game"
  | Some game =>
    Await (Player_create (newPlayerId f) (Game._id game) username true sock) (fun host =>
    match host with
    | None => fail sock "Failed to create game"
    | Some host =>
      Emit (socket_join sock roomCode)
      (Emit (to_socket sock (Msg.game_created (Game._id game) roomCode sock)) Done)
    end)
  end)).

(** [for (const playerId of results.scoringPlayers)
      await Player.findByIdAndUpdate(playerId, { $inc: { score: 1 } })] *)
Fixpoint incScores (ids : list string) (k : Async) : Async :=
  match ids with
  | [] => k
  | playerId :: more => Await (Player_incScore_byId playerId) (fun _ => incScores more k)
  end.

(** The block under [if (game.playersAnswered === players.length)]. *)
Definition sa_close (sock gameId : string) (game : Game.t) (round : Round.t) : Async :=
  Await (Answer_find (Round._id round)) (fun answers =>
  match analyzeRoundAnswers answers with
  | None => fail sock "Failed to submit answer"
  | Some results =>
    let newPinkCowHolder :=
      determinePinkCowHolder (Game.pinkCowHolder game) (uniqueAnswerPlayer results) in
    incScores (scoringPlayers results)
    (Await (Game_update (Game._id game)
              [Game.set_pinkCowHolder newPinkCowHolder; Game.set_playersAnswered 0])
       (fun _ =>
     Await (Round_complete (Round._id round) (majorityAnswer results)
              (uniqueAnswerPlayer results)) (fun _ =>
     Await (Player_find gameId) (fun updatedPlayers =>
     let winner := findWinner updatedPlayers newPinkCowHolder in
     Emit (to_room (Game.roomCode game)
             (Msg.round_completed_with results newPinkCowHolder updatedPlayers winner))
       match winner with
       | Some _ => Await (Game_update (Game._id game) [Game.set_status Game.completed])
                     (fun _ => Done)
       | None => Done
       end))))
  end).

(** [socket.on('submit_answer', ...)] *)
Definition submit_answer (sock gameId answer : string) : Async :=
  Await (Game_findById gameId) (fun game =>
  match game with
  | None => fail sock "Invalid game state"
  | Some game =>
    if negb (Game.status_eqb (Game.status game) Game.in_progress)
    then fail sock "Invalid game state"
    else
      Await (Player_findOne_socket gameId sock) (fun player =>
      match player with
      | None => fail sock "Player not found"
      | Some player =>
        Await (Round_findOne gameId (Game.currentRound game)) (fun round =>
        match round with
        | None => fail sock "Failed to submit answer"
        | Some round =>
          Await (Answer_create
                   (Answer.mk gameId (Round._id round) (Player._id player)
                      (Player.username player) answer (normalizeAnswer answer)))
            (fun saved =>
          if saved then
            let game1 := Game.apply game
                           (Game.set_playersAnswered (Game.playersAnswered game + 1)) in
            Await (Game_update (Game._id game)
                     [Game.set_playersAnswered (Game.playersAnswered game1)]) (fun _ =>
            Emit (to_room (Game.roomCode game)
                    (Msg.player_answered_by (Player.username player)
                       (Game.playersAnswered game1)))
            (Await (Player_find gameId) (fun players =>
             if Game.playersAnswered game1 =? length players
             then sa_close sock gameId game1 round
             else Done)))
          else fail sock "Failed to submit answer")
        end)
      end)
  end).

(** This file registers no [reconnect_game] handler: the event is
    dropped. *)
Definition handle (PREDEFINED_QUESTIONS : list string) (sock : string)
    (req : Req.t) (f : Fresh) : Async :=
  match req with
  | Req.create_game username => create_game sock username f
  | Req.join_game roomCode username => join_game sock roomCode username f
  | Req.start_game gameId => start_game PREDEFINED_QUESTIONS sock gameId f
  | Req.submit_answer gameId answer => submit_answer sock gameId answer
  | Req.next_round gameId => next_round PREDEFINED_QUESTIONS sock gameId f
  | Req.remove_player gameId playerId => remove_player sock gameId playerId
  | Req.reconnect_game _ _ _ => Done
  | Req.disconnect => disconnect sock
  end.

End Part001.

(** ** Running requests one after the other *)

Record Call := mkCall {
  socket : string;
  request : Req.t;
  fresh : Fresh
}.

Inductive Server := AtomicIncrement | ReadThenSave.

Definition handler (v : Server) (PREDEFINED_QUESTIONS : list string) (c : Call) : Async :=
  match v with
  | AtomicIncrement => Part000.handle PREDEFINED_QUESTIONS (socket c) (request c) (fresh c)
  | ReadThenSave => Part001.handle PREDEFINED_QUESTIONS (socket c) (request c) (fresh c)
  end.

Definition serve (v : Server) (cat : list string) (s : Store) (c : Call) : Store :=
  fst (run (handler v cat c) s).

Definition serveAll (v : Server) (cat : list string) (s : Store) (cs : list Call) : Store :=
  fold_left (serve v cat) cs s.

(** Observations on a store and on what a handler sent. *)
Definition findGame (s : Store) (gameId : string) : option Game.t :=
  List.find (gameHasId gameId) (games s).

Definition findPlayerOnSocket (s : Store) (gameId socketId : string) : option Player.t :=
  List.find (playerOnSocket gameId socketId) (players s).

Definition findRound (s : Store) (gameId : string) (n : nat) : option Round.t :=
  List.find (roundIs gameId n) (rounds s).

Definition connectedCount (s : Store) (gameId : string) : nat :=
  length (List.filter (playerConnected gameId) (players s)).

Definition playersOf (s : Store) (gameId : string) : list Player.t :=
  List.filter (playerInGame gameId) (players s).

(** The answer document a submission tries to save. *)
Definition answerDoc (gameId answer : string) (player : Player.t) (round : Round.t)
    : Answer.t :=
  Answer.mk gameId (Round._id round) (Player._id player) (Player.username player)
    answer (normalizeAnswer answer).

Definition isRoundCompleted (e : Event) : bool :=
  match e with
  | to_room _ (Msg.round_completed _ _ _) => true
  | to_room _ (Msg.round_completed_with _ _ _ _) => true
  | _ => false
  end.

(** How many times the round-closing block ran to its broadcast. *)
Definition roundClosings (es : list Event) : nat :=
  length (List.filter isRoundCompleted es).

(** ** Concrete runs used as inputs

    A catalog of two prompts, and rooms built by sending requests to an
    empty store. *)

Definition catalog : list string := ["Name an animal"; "Name a fruit"].

Definition freshFor (tag : string) : Fresh :=
  mkFresh ("g" ++ tag)%string ("p" ++ tag)%string ("r" ++ tag)%string ["AB12CD"] 0.

Definition call (sock : string) (req : Req.t) (tag : string) : Call :=
  mkCall sock req (freshFor tag).

(** alice (host, socket sA), bob (sB) and carol (sC) in room AB12CD, game
    g1 started. *)
Definition threePlayersStarted : list Call :=
  [ call "sA" (Req.create_game "alice") "1";
    call "sB" (Req.join_game "AB12CD" "bob") "2";
    call "sC" (Req.join_game "AB12CD" "carol") "3";
    call "sA" (Req.start_game "g1") "4" ].

(** alice and carol have answered, then carol's connection has dropped. *)
Definition carolLeftAfterAnswering : list Call :=
  threePlayersStarted ++
  [ call "sA" (Req.submit_answer "g1" "dog") "5";
    call "sC" (Req.submit_answer "g1" "cat") "6";
    call "sC" Req.disconnect "7" ].

(** alice (host) and bob in room AB12CD, game g1 started. *)
Definition twoPlayersStarted : list Call :=
  [ call "sA" (Req.create_game "alice") "1";
    call "sB" (Req.join_game "AB12CD" "bob") "2";
    call "sA" (Req.start_game "g1") "3" ].

(** One round in which both give the same answer, and the host's
    [next_round]. *)
Definition agreeingRound (tag : string) : list Call :=
  [ call "sA" (Req.submit_answer "g1" "dog") tag;
    call "sB" (Req.submit_answer "g1" "Dogs") tag ].

Definition advance (tag : string) : list Call :=
  [ call "sA" (Req.next_round "g1") tag ].

(** Eight agreeing rounds: both players reach 8 points and the game is
    completed. *)
Definition playedToTheEnd : list Call :=
  twoPlayersStarted ++
  agreeingRound "a" ++ advance "n2" ++ agreeingRound "b" ++ advance "n3" ++
  agreeingRound "c" ++ advance "n4" ++ agreeingRound "d" ++ advance "n5" ++
  agreeingRound "e" ++ advance "n6" ++ agreeingRound "f" ++ advance "n7" ++
  agreeingRound "g" ++ advance "n8" ++ agreeingRound "h".

(** An answer document of round r1 with the given normalized text. *)
Definition answerOf (playerId normalized : string) : Answer.t :=
  Answer.mk "g1" "r1" playerId playerId normalized normalized.

(** The result and the token holder of the round a handler closed. *)
Fixpoint closedWith (es : list Event) : option (RoundResults * option string) :=
  match es with
  | [] => None
  | to_room _ (Msg.round_completed results holder _) :: _ => Some (results, holder)
  | to_room _ (Msg.round_completed_with results holder _ _) :: _ => Some (results, holder)
  | _ :: more => closedWith more
  end.

(** *** The closing rule in the words of the specification

    "The round is eligible to close iff the post-increment value equals the
    connected-player count at that instant": for a submission to a room in
    progress, the closing block runs exactly when the two are equal. *)
Definition closesExactlyAtEquality (closings : nat) (s : Store) (gameId : string) : Prop :=
  forall g, findGame s gameId = Some g -> Game.status g = Game.in_progress ->
  (0 < closings <-> Game.playersAnswered g + 1 = connectedCount s gameId).

(** ** Vocabulary for the score invariant *)

(** The unique index of the answers collection. *)
Definition answerKey (a : Answer.t) : string * string :=
  (Answer.roundId a, Answer.playerId a).

Definition answersUnique (s : Store) : Prop :=
  NoDup (map answerKey (answers s)).

(** Whether an operation writes a score. *)
Definition writesScore {R} (q : Query R) : bool :=
  match q with
  | Player_incScore_in _ | Player_incScore_byId _ => true
  | _ => false
  end.

(** A handler that neither writes a score nor broadcasts a round result. *)
Inductive Quiet : Async -> Prop :=
| Quiet_Done : Quiet Done
| Quiet_Emit e k : isRoundCompleted e = false -> Quiet k -> Quiet (Emit e k)
| Quiet_Await R (q : Query R) k :
    writesScore q = false -> (forall r, Quiet (k r)) -> Quiet (Await q k).

(** The [scoringPlayers] of the round result a handler broadcast, if it
    broadcast one. *)
Fixpoint scorersOf (es : list Event) : option (list string) :=
  match es with
  | [] => None
  | to_room _ (Msg.round_completed results _ _) :: _ => Some (scoringPlayers results)
  | to_room _ (Msg.round_completed_with results _ _ _) :: _ => Some (scoringPlayers results)
  | _ :: more => scorersOf more
  end.

(** What one request may do to a player document: the identity stays, and
    the score stays or grows by one, the latter only for a player listed in
    the [scoringPlayers] of the round result broadcast by that request. *)
Definition scoreStep (scorers : option (list string)) (before after : Player.t) : Prop :=
  Player._id after = Player._id before /\
  (Player.score after = Player.score before \/
   (Player.score after = S (Player.score before) /\
    exists ids, scorers = Some ids /\ In (Player._id before) ids)).

Definition sameOrHigher (before after : Player.t) : Prop :=
  Player._id after = Player._id before /\ Player.score before <= Player.score after.

Definition isSubmitAnswer (req : Req.t) : Prop :=
  exists gameId answer, req = Req.submit_answer gameId answer.

(** Existing players keep identity and score; new ones have score 0. *)
Definition keepsScores (before after : list Player.t) : Prop :=
  exists kept new,
    after = kept ++ new /\
    Forall2 (fun p p' => Player._id p' = Player._id p /\
                         Player.score p' = Player.score p) before kept /\
    Forall (fun p => Player.score p = 0) new.

(** What the loop over [scoringPlayers] may do to a player document. *)
Definition bumpedWithin (ids : list string) (before after : Player.t) : Prop :=
  Player._id after = Player._id before /\
  (Player.score after = Player.score before \/
   (Player.score after = S (Player.score before) /\ In (Player._id before) ids)).

(** ** Vocabulary for the lifecycle *)

(** An operation that leaves every status alone or writes [completed]. *)
Definition keepsLifecycle {R} (q : Query R) : bool :=
  match q with
  | Game_update _ us =>
      forallb (fun u => match u with
                        | Game.set_status s => Game.status_eqb s Game.completed
                        | _ => true
                        end) us
  | _ => true
  end.

Inductive Forward : Async -> Prop :=
| Forward_Done : Forward Done
| Forward_Emit e k : Forward k -> Forward (Emit e k)
| Forward_Await R (q : Query R) k :
    keepsLifecycle q = true -> (forall r, Forward (k r)) -> Forward (Await q k).

(** Existing games keep their identity and do not go back in the
    lifecycle; games may be added. *)
Definition lifecycleForward (before after : list Game.t) : Prop :=
  exists kept new,
    after = kept ++ new /\
    Forall2 (fun g g' => Game._id g' = Game._id g /\
                         Game.rank (Game.status g) <= Game.rank (Game.status g'))
      before kept.

Definition isStartGame (req : Req.t) : Prop :=
  exists gameId, req = Req.start_game gameId.

(** ** Handlers running concurrently

    Node runs one handler at a time and switches at an [await]. A turn of
    handler [i] performs the operation it is waiting for and runs it on, up
    to its next [await] or its end; emitting does not give up control. *)

Fixpoint settle (p : Async) : list Event * Async :=
  match p with
  | Emit e k => let '(es, p') := settle k in (e :: es, p')
  | _ => ([], p)
  end.

Definition resume (p : Async) (s : Store) : Store * list Event * Async :=
  match p with
  | Await q k =>
      let '(s', r) := exec q s in
      let '(es, p') := settle (k r) in (s', es, p')
  | Emit _ _ => let '(es, p') := settle p in (s, es, p')
  | Done => (s, [], Done)
  end.

Record World := mkWorld {
  store : Store;
  pool : list Async;
  sent : list Event
}.

Definition turn (w : World) (i : nat) : World :=
  match pool w !! i with
  | Some p =>
      let '(s', es, p') := resume p (store w) in
      mkWorld s' (<[i := p']> (pool w)) (sent w ++ es)
  | None => w
  end.

(** The handlers take turns in the order the schedule lists them. *)
Definition interleave (w : World) (schedule : list nat) : World :=
  fold_left turn schedule w.

Definition allDone (w : World) : Prop := Forall (fun p => p = Done) (pool w).

(** Existing players keep their identity and lose no points; players may
    be added. *)
Definition growsOnly (before after : list Player.t) : Prop :=
  exists kept new, after = kept ++ new /\ Forall2 sameOrHigher before kept.

(** [submit_answer] called on the sockets and with the answers given, all
    handlers started before any has been resumed. *)
Definition submitAll (s : Store) (gameId : string) (calls : list (string * string)) : World :=
  mkWorld s (map (fun c => Part000.submit_answer (fst c) gameId (snd c)) calls) [].

(** *** Where a [submit_answer] handler stands

    One constructor for each [await] of the handler, with the local
    variables that are live there; [Stopped] records how it ended and the
    counter value it read. *)
Inductive Outcome := Closed | NotClosed | Rejected.

Inductive Stage :=
| NotStarted
| AtPlayer (game : Game.t)
| AtRound (game : Game.t) (player : Player.t)
| AtSave (game : Game.t) (player : Player.t) (round : Round.t)
| AtCount (game : Game.t) (round : Round.t)
| AtClose (game : Game.t) (round : Round.t)
| AtInc (game : Game.t) (results : RoundResults) (holder : option string)
| AtReset (game : Game.t) (results : RoundResults) (holder : option string)
| AtBroadcast (game : Game.t) (results : RoundResults) (holder : option string)
| AtComplete (game : Game.t) (winner : Player.t)
| Stopped (o : Outcome) (playersAnswered : nat).

Definition stageProgram (gameId : string) (c : string * string) (st : Stage) : Async :=
  let sock := fst c in
  let answer := snd c in
  match st with
  | NotStarted => Part000.submit_answer sock gameId answer
  | AtPlayer game => Part000.sa_player sock gameId answer game
  | AtRound game player => Part000.sa_round sock gameId answer game player
  | AtSave game player round => Part000.sa_save sock gameId answer game player round
  | AtCount game round => Part000.sa_count sock gameId game round
  | AtClose game round => Part000.sa_close sock gameId game round
  | AtInc game results holder =>
      Await (Player_incScore_in (scoringPlayers results)) (fun _ =>
        Part000.sa_reset gameId game results holder)
  | AtReset game results holder => Part000.sa_reset gameId game results holder
  | AtBroadcast game results holder => Part000.sa_broadcast gameId game results holder
  | AtComplete game winner => Part000.sa_complete gameId game winner
  | Stopped _ _ => Done
  end.

Definition poolOf (gameId : string) (calls : list (string * string)) (sts : list Stage)
    : list Async :=
  zip_with (stageProgram gameId) calls sts.

(** The counter value the handler read back from its increment. *)
Definition paOf (st : Stage) : nat :=
  match st with
  | NotStarted => 0
  | AtPlayer game | AtRound game _ | AtSave game _ _ | AtCount game _
  | AtClose game _ | AtInc game _ _ | AtReset game _ _ | AtBroadcast game _ _
  | AtComplete game _ => Game.playersAnswered game
  | Stopped _ n => n
  end.

Definition started (st : Stage) : bool :=
  match st with NotStarted => false | _ => true end.

(** The answer is stored. *)
Definition saved (st : Stage) : bool :=
  match st with
  | NotStarted | AtPlayer _ | AtRound _ _ | AtSave _ _ _ => false
  | _ => true
  end.

(** The handler has passed the test [playersAnswered >= connectedPlayers]. *)
Definition closing (st : Stage) : bool :=
  match st with
  | AtClose _ _ | AtInc _ _ _ | AtReset _ _ _ | AtBroadcast _ _ _ | AtComplete _ _
  | Stopped Closed _ => true
  | _ => false
  end.

(** The handler has written [playersAnswered: 0]. *)
Definition pastReset (st : Stage) : bool :=
  match st with
  | AtBroadcast _ _ _ | AtComplete _ _ | Stopped Closed _ => true
  | _ => false
  end.

(** The handler has broadcast [round_completed]. *)
Definition hasClosed (st : Stage) : bool :=
  match st with
  | AtComplete _ _ | Stopped Closed _ => true
  | _ => false
  end.

(** How far a handler has come: every turn takes it further, and a
    handler that has had ten turns has stopped. *)
Definition rank (st : Stage) : nat :=
  match st with
  | NotStarted => 0
  | AtPlayer _ => 1
  | AtRound _ _ => 2
  | AtSave _ _ _ => 3
  | AtCount _ _ => 4
  | AtClose _ _ => 5
  | AtInc _ _ _ => 6
  | AtReset _ _ _ => 7
  | AtBroadcast _ _ _ => 8
  | AtComplete _ _ => 9
  | Stopped _ _ => 10
  end.

(** A player document without its score. *)
Definition stripScore (p : Player.t) : Player.t :=
  Player.mk (Player._id p) (Player.gameId p) (Player.username p) (Player.isHost p)
    0 (Player.isConnected p) (Player.socketId p).

Definition counterOf (s : Store) (gameId : string) : option nat :=
  option_map Game.playersAnswered (findGame s gameId).

Definition statusOf (s : Store) (gameId : string) : option Game.Status :=
  option_map Game.status (findGame s gameId).

(** *** The situation of the concurrency property

    A room in progress whose counter is 0, the round it is in, and one
    call for each connected player: as many calls as the room has connected
    players, each from the socket of a player of the room, no two from the
    same player, each with an answer the store accepts for that player and
    round. *)
Record Scene := mkScene {
  sceneStore : Store;
  sceneGameId : string;
  sceneGame : Game.t;
  sceneRound : Round.t;
  sceneCalls : list (string * string);
  sceneCallers : list Player.t
}.

Record Ready (sc : Scene) : Prop := mkReady {
  ready_game : findGame (sceneStore sc) (sceneGameId sc) = Some (sceneGame sc);
  ready_status : Game.status (sceneGame sc) = Game.in_progress;
  ready_counter : Game.playersAnswered (sceneGame sc) = 0;
  ready_round :
    findRound (sceneStore sc) (sceneGameId sc) (Game.currentRound (sceneGame sc))
      = Some (sceneRound sc);
  ready_callers :
    Forall2 (fun c p =>
               findPlayerOnSocket (sceneStore sc) (sceneGameId sc) (fst c) = Some p /\
               answerRejected (answers (sceneStore sc))
                 (answerDoc (sceneGameId sc) (snd c) p (sceneRound sc)) = false)
      (sceneCalls sc) (sceneCallers sc);
  ready_distinct : NoDup (map Player._id (sceneCallers sc));
  ready_all : length (sceneCalls sc) = connectedCount (sceneStore sc) (sceneGameId sc);
  ready_some : sceneCalls sc <> []
}.

(** What is known of one handler at its stage, given the answers stored. *)
Definition Local (sc : Scene) (c : string * string) (p : Player.t) (st : Stage)
    (stored : list Answer.t) : Prop :=
  (saved st = false ->
     existsb (sameRoundAndPlayer (answerDoc (sceneGameId sc) (snd c) p (sceneRound sc)))
       stored = false) /\
  (saved st = true ->
     List.filter (answerInRound (Round._id (sceneRound sc))) stored <> []) /\
  (closing st = true -> length (sceneCalls sc) <= paOf st) /\
  match st with
  | AtPlayer game => Game.currentRound game = Game.currentRound (sceneGame sc)
  | AtRound game pl =>
      Game.currentRound game = Game.currentRound (sceneGame sc) /\
      Player._id pl = Player._id p /\ Player.username pl = Player.username p
  | AtSave game pl rd =>
      Player._id pl = Player._id p /\ Player.username pl = Player.username p /\
      rd = sceneRound sc
  | AtCount game rd | AtClose game rd => rd = sceneRound sc
  | Stopped NotClosed n => n < length (sceneCalls sc)
  | Stopped Rejected _ => False
  | _ => True
  end.

(** What is known of the room's game document while the handlers run. *)
Definition GameKept (sc : Scene) (s : Store) (sts : list Stage) : Prop :=
  exists g',
    findGame s (sceneGameId sc) = Some g' /\
    Game.currentRound g' = Game.currentRound (sceneGame sc) /\
    (existsb pastReset sts = false ->
       Game.playersAnswered g' = length (List.filter started sts) /\
       Game.status g' = Game.in_progress) /\
    (existsb pastReset sts = true -> Game.playersAnswered g' = 0).

(** The invariant of the interleaved run. *)
Record Inv (sc : Scene) (w : World) (sts : list Stage) : Prop := mkInv {
  inv_pool : pool w = poolOf (sceneGameId sc) (sceneCalls sc) sts;
  inv_len : length sts = length (sceneCalls sc);
  inv_game : GameKept sc (store w) sts;
  inv_pa_le : forall i st, sts !! i = Some st ->
      paOf st <= length (List.filter started sts);
  inv_pa_inj : forall i j si sj, sts !! i = Some si -> sts !! j = Some sj ->
      started si = true -> started sj = true -> paOf si = paOf sj -> i = j;
  inv_pa_surj : forall n, 1 <= n <= length (List.filter started sts) ->
      exists i st, sts !! i = Some st /\ started st = true /\ paOf st = n;
  inv_local : forall i c p st,
      sceneCalls sc !! i = Some c -> sceneCallers sc !! i = Some p ->
      sts !! i = Some st -> Local sc c p st (answers (store w));
  inv_players : map stripScore (players (store w)) = map stripScore (players (sceneStore sc));
  inv_rounds : rounds (store w) = rounds (sceneStore sc);
  inv_sent : roundClosings (sent w) = length (List.filter hasClosed sts)
}.

(** The room of three, each player answering once. *)
Definition threeAnswering : Scene :=
  let s := serveAll AtomicIncrement catalog emptyStore threePlayersStarted in
  mkScene s "g1"
    (Game.mk "g1" "AB12CD" "sA" Game.in_progress 1 (Some "Name an animal") 0 None
       [Some "Name an animal"])
    (Round.mk "r4" "g1" 1 Round.collecting_answers None None)
    [("sA", "dog"); ("sB", "Dogs"); ("sC", "cat")]
    [Player.mk "p1" "g1" "alice" true 0 true "sA";
     Player.mk "p2" "g1" "bob" false 0 true "sB";
     Player.mk "p3" "g1" "carol" false 0 true "sC"].

(** Carol's handler runs up to its test before alice's and bob's resume
    after their increments. *)
Definition carolOvertakes : list nat :=
  [0; 1; 2] ++ repeat 2 8 ++ repeat 0 4 ++ repeat 1 4.

(** Every handler gets ten turns, one after the other. *)
Definition roundRobin : list nat := concat (replicate 10 [0; 1; 2]).

(** *** The concurrency property in the words of the specification

    "For a room with exactly K connected players, firing K concurrent
    [submit_answer] calls for the same round results in exactly one
    [round_completed] broadcast and [playersAnswered] ending at 0." *)
Definition closesExactlyOnce (s : Store) (gameId : string)
    (calls : list (string * string)) (schedule : list nat) : Prop :=
  length calls = connectedCount s gameId ->
  let w := interleave (submitAll s gameId calls) schedule in
  allDone w ->
  roundClosings (sent w) = 1 /\ counterOf (store w) gameId = Some 0.

(** alice has answered round 1 when the host moves on to round 2:
    [next_round] leaves the counter at 1. *)
Definition advancedMidRound : list Call :=
  twoPlayersStarted ++
  [ call "sA" (Req.submit_answer "g1" "dog") "a";
    call "sA" (Req.next_round "g1") "n2" ].

(** Both handlers increment before either goes on. *)
Definition bothIncrementFirst : list nat := [0; 1] ++ repeat 0 9 ++ repeat 1 9.


(** ** Words for what a request names and what a store holds *)

(** The game a request names by its identifier. *)
Definition gameOf (req : Req.t) : option string :=
  match req with
  | Req.start_game gameId | Req.submit_answer gameId _ | Req.next_round gameId
  | Req.remove_player gameId _ | Req.reconnect_game gameId _ _ => Some gameId
  | Req.create_game _ | Req.join_game _ _ | Req.disconnect => None
  end.

(** The requests whose handler tests [game.hostId] against [socket.id]. *)
Definition hostOnly (req : Req.t) : bool :=
  match req with
  | Req.start_game _ | Req.next_round _ | Req.remove_player _ _ => true
  | _ => false
  end.

Definition findGameByCode (s : Store) (roomCode : string) : option Game.t :=
  List.find (fun g => String.eqb (Game.roomCode g) roomCode) (games s).

Definition findPlayerNamed (s : Store) (gameId username : string) : option Player.t :=
  List.find (fun p => playerInGame gameId p && String.eqb (Player.username p) username)
    (players s).

Definition findDisconnected (s : Store) (gameId username : string) : option Player.t :=
  List.find (fun p => playerInGame gameId p && String.eqb (Player.username p) username
                      && negb (Player.isConnected p))
    (players s).

(** Every event of a list goes to one socket only. *)
Definition onlyTo (sock : string) (es : list Event) : Prop :=
  Forall (fun e => exists m, e = to_socket sock m) es.

(** ** Handlers built from a class of operations *)

(** Every operation the handler may await, on any path, is in the class. *)
Inductive Uses (ok : forall R, Query R -> bool) : Async -> Prop :=
| Uses_Done : Uses ok Done
| Uses_Emit e k : Uses ok k -> Uses ok (Emit e k)
| Uses_Await R (q : Query R) k :
    ok R q = true -> (forall r, Uses ok (k r)) -> Uses ok (Await q k).


(** Every operation but the one that marks a round completed. *)
Definition leavesRoundsOpen (R : Type) (q : Query R) : bool :=
  match q with
  | Round_complete _ _ _ => false
  | _ => true
  end.

(** An answer is only ever saved with the normal form of its text. *)
Definition savesNormalForm (R : Type) (q : Query R) : bool :=
  match q with
  | Answer_create a =>
      String.eqb (Answer.normalizedAnswer a) (normalizeAnswer (Answer.originalAnswer a))
  | _ => true
  end.

(** ** Invariants of the store *)




(** Every stored answer carries the normal form of its text, and that
    normal form is not empty. *)
Definition answersTidy (s : Store) : Prop :=
  Forall (fun a => Answer.normalizedAnswer a = normalizeAnswer (Answer.originalAnswer a) /\
                   Answer.normalizedAnswer a <> "") (answers s).

(** No round is marked completed. *)
Definition roundsOpen (s : Store) : Prop :=
  Forall (fun r => Round.status r = Round.collecting_answers /\
                   Round.majorityAnswer r = None /\
                   Round.uniqueAnswerPlayer r = None) (rounds s).

(** A completed game has a player with 8 points or more. *)
Definition wonByEight (s : Store) : Prop :=
  forall g, In g (games s) -> Game.status g = Game.completed ->
    exists p, In p (players s) /\ Player.gameId p = Game._id g /\ 8 <= Player.score p.

(** The round results a [game_joined] message carries, if any does. *)
Definition joinedWithResults (e : Event) : bool :=
  match e with
  | to_socket _ (Msg.game_joined _ _ (Some _)) => true
  | _ => false
  end.

(** Every operation but the one that writes the status [completed]. *)
Definition writesNoCompletion (R : Type) (q : Query R) : bool :=
  match q with
  | Game_update _ us =>
      forallb (fun u => match u with
                        | Game.set_status s => negb (Game.status_eqb s Game.completed)
                        | _ => true
                        end) us
  | _ => true
  end.

(** A handler that keeps [wonByEight], from whatever store it starts. *)
Definition KeepsWonByEight (p : Async) : Prop :=
  forall s, wonByEight s -> wonByEight (fst (run p s)).

(** ** models/Game.js: the room code drawn by [generateRoomCode] *)

Definition characters : string := "ABCDEFGHIJKLMNOPQRSTUVWXYZ0123456789".

(** [s.charAt(i)]: the character at index [i], the empty string out of
    range. *)
Definition charAt (s : string) (i : nat) : string :=
  match String.get i s with
  | Some c => String c ""
  | None => ""
  end.

(** One pass of the [while] loop up to the look-up: six characters are
    appended to the empty string. [random i] stands for the value of
    [Math.random()] at the pass [i] of the [for] loop, as the index it
    selects, before reduction modulo [characters.length]. *)
Definition drawRoomCode (random : nat -> nat) : string :=
  fold_left
    (fun roomCode i =>
       (roomCode ++ charAt characters (random i mod String.length characters))%string)
    (seq 0 6) "".

(** A room code no game of the store has. *)
Definition codeIsFree (s : Store) (roomCode : string) : bool :=
  negb (existsb (fun g => String.eqb (Game.roomCode g) roomCode) (games s)).

(** ** utils/dbCleanup.js *)

(** [cleanupOldGames()]. [createdAt] reads the creation date of a game
    document, a field the record [Game.t] leaves out, and [oneWeekAgo] is
    the date the function computes from the clock (seven days back), both
    in milliseconds. The three [deleteMany] of the [Promise.all] work on
    three different collections; answers have none. *)
Definition cleanupOldGames (createdAt : Game.t -> Z) (oneWeekAgo : Z) (s : Store) : Store :=
  let oldGames := List.filter (fun g => Z.ltb (createdAt g) oneWeekAgo) (games s) in
  let gameIds := map Game._id oldGames in
  match gameIds with
  | [] => s
  | _ :: _ =>
      let among (id : string) := existsb (String.eqb id) gameIds in
      mkStore (List.filter (fun g => negb (among (Game._id g))) (games s))
              (List.filter (fun p => negb (among (Player.gameId p))) (players s))
              (List.filter (fun r => negb (among (Round.gameId r))) (rounds s))
              (answers s)
  end.

(** The identifiers of the games created before [oneWeekAgo]. *)
Definition oldGameIds (createdAt : Game.t -> Z) (oneWeekAgo : Z) (s : Store) : list string :=
  map Game._id (List.filter (fun g => Z.ltb (createdAt g) oneWeekAgo) (games s)).

(** A room created on its own socket with its own room code, for runs
    with more than one room. *)
Definition openRoom (tag sock username roomCode : string) : Call :=
  mkCall sock (Req.create_game username)
    (mkFresh ("g" ++ tag)%string ("p" ++ tag)%string ("r" ++ tag)%string [roomCode] 0).

(** Two rooms, the first of them started, and creation dates for them. *)
Definition twoRooms : Store :=
  serveAll AtomicIncrement catalog emptyStore
    [ openRoom "1" "sA" "alice" "AB12CD";
      call "sB" (Req.join_game "AB12CD" "bob") "2";
      call "sA" (Req.start_game "g1") "3";
      openRoom "7" "sX" "xena" "ZZ99ZZ" ].

Definition createdOn (g : Game.t) : Z :=
  if String.eqb (Game._id g) "g1" then 1000%Z else 9000%Z.
(** * Properties *)

(** ** The normalizer *)

Section CharFacts.

Local Ltac by_cases c :=
  destruct c as [[] [] [] [] [] [] [] []]; vm_compute; intuition congruence.

Lemma toLowerChar_idem c : toLowerChar (toLowerChar c) = toLowerChar c.
Proof. by_cases c. Qed.

Lemma isSpace_not_word c : isSpace c = true -> isWord c = false.
Proof. by_cases c. Qed.

Lemma upperS_not_lowered c : toLowerChar c = c -> Ascii.eqb c "S" = false.
Proof. by_cases c. Qed.

End CharFacts.

Lemma isWord_a : isWord "a" = true. Proof. reflexivity. Qed.
Lemma isWord_n : isWord "n" = true. Proof. reflexivity. Qed.
Lemma isWord_t : isWord "t" = true. Proof. reflexivity. Qed.
Lemma isWord_h : isWord "h" = true. Proof. reflexivity. Qed.
Lemma isWord_e : isWord "e" = true. Proof. reflexivity. Qed.

(** *** [dropWhile], [takeWhile] and [trim] *)

Lemma takeWhile_dropWhile {A} (p : A -> bool) l :
  takeWhile p l ++ dropWhile p l = l.
Proof.
  induction l as [|c r IH]; simpl; [reflexivity|].
  destruct (p c); simpl; [now rewrite IH | reflexivity].
Qed.

Lemma takeWhile_Forall {A} (p : A -> bool) l :
  Forall (fun c => p c = true) (takeWhile p l).
Proof.
  induction l as [|c r IH]; simpl; [constructor|].
  destruct (p c) eqn:E; constructor; assumption.
Qed.

Lemma dropWhile_idem {A} (p : A -> bool) l :
  dropWhile p (dropWhile p l) = dropWhile p l.
Proof.
  induction l as [|c r IH]; simpl; [reflexivity|].
  destruct (p c) eqn:E; [exact IH | simpl; now rewrite E].
Qed.

Lemma dropWhile_app_last {A} (p : A -> bool) l c :
  p c = false -> dropWhile p (l ++ [c]) = dropWhile p l ++ [c].
Proof.
  intros Hc. induction l as [|d r IH]; simpl.
  - now rewrite Hc.
  - destruct (p d); [exact IH | reflexivity].
Qed.

Lemma dropWhile_Forall {A} (P : A -> Prop) (p : A -> bool) l :
  Forall P l -> Forall P (dropWhile p l).
Proof.
  induction 1 as [|c r Hc Hr IH]; simpl; [constructor|].
  destruct (p c); [exact IH | constructor; assumption].
Qed.

Lemma trimEnd_keeps_trimStart l :
  trimStart l = l -> trimStart (trimEnd l) = trimEnd l.
Proof.
  unfold trimStart, trimEnd. destruct l as [|c r]; [reflexivity|].
  simpl. destruct (isSpace c) eqn:E.
  - intros H. exfalso.
    assert (Hlen : length (dropWhile isSpace r) <= length r).
    { clear. induction r as [|d r IH]; simpl; [lia|].
      destruct (isSpace d); simpl; lia. }
    rewrite H in Hlen. simpl in Hlen. lia.
  - intros _. rewrite dropWhile_app_last by exact E.
    rewrite rev_app_distr. simpl. now rewrite E.
Qed.

Lemma trim_trimStart l : trimStart (trim l) = trim l.
Proof.
  unfold trim. apply trimEnd_keeps_trimStart.
  unfold trimStart. apply dropWhile_idem.
Qed.

Lemma trimEnd_idem l : trimEnd (trimEnd l) = trimEnd l.
Proof.
  unfold trimEnd. rewrite rev_involutive. now rewrite dropWhile_idem.
Qed.

Lemma trim_idem l : trim (trim l) = trim l.
Proof.
  unfold trim at 1. rewrite trim_trimStart. unfold trim.
  apply trimEnd_idem.
Qed.

Lemma trim_Forall (P : ascii -> Prop) l : Forall P l -> Forall P (trim l).
Proof.
  intros H. unfold trim, trimEnd, trimStart.
  apply Forall_rev, dropWhile_Forall, Forall_rev, dropWhile_Forall, H.
Qed.

(** [trimEnd] cuts a run of white space off the end. *)
Lemma trimEnd_split l :
  exists s, Forall (fun c => isSpace c = true) s /\ l = trimEnd l ++ s.
Proof.
  exists (rev (takeWhile isSpace (rev l))). split.
  - apply Forall_rev, takeWhile_Forall.
  - unfold trimEnd. rewrite <- rev_app_distr, takeWhile_dropWhile.
    now rewrite rev_involutive.
Qed.

(** *** The passes that only delete characters *)

Lemma collapseSpaces_Forall (P : ascii -> Prop) l :
  P " "%char -> Forall P l -> Forall P (collapseSpaces l).
Proof.
  intros Hsp. induction 1 as [|c r Hc Hr IH]; simpl; [constructor|].
  destruct (isSpace c).
  - destruct r as [|c' r']; [repeat constructor; exact Hsp|].
    destruct (isSpace c'); [exact IH | constructor; [exact Hsp | exact IH]].
  - constructor; assumption.
Qed.

Lemma collapseSpaces_plain l :
  Forall (fun c => isSpace c = true -> c = " "%char) (collapseSpaces l).
Proof.
  induction l as [|c r IH]; simpl; [constructor|].
  destruct (isSpace c) eqn:E.
  - destruct r as [|c' r']; [repeat constructor|].
    destruct (isSpace c'); [exact IH | constructor; [reflexivity | exact IH]].
  - constructor; [congruence | exact IH].
Qed.

Lemma removePunctuation_Forall (P : ascii -> Prop) l :
  Forall P l -> Forall P (removePunctuation l).
Proof.
  unfold removePunctuation. induction 1 as [|c r Hc Hr IH]; simpl; [constructor|].
  destruct (negb (isPunct c)); [constructor; assumption | exact IH].
Qed.

Lemma removePunctuation_clean l :
  Forall (fun c => isPunct c = false) (removePunctuation l).
Proof.
  unfold removePunctuation. induction l as [|c r IH]; simpl; [constructor|].
  destruct (isPunct c) eqn:E; simpl; [exact IH | constructor; assumption].
Qed.

Lemma stripFinalS_snoc l c :
  stripFinalS (l ++ [c]) = if isS c then l else l ++ [c].
Proof.
  induction l as [|d r IH]; simpl.
  - destruct (isS c); reflexivity.
  - rewrite IH. destruct (r ++ [c]) eqn:E.
    + destruct r; discriminate.
    + destruct (isS c); reflexivity.
Qed.

Lemma stripFinalS_Forall (P : ascii -> Prop) l :
  Forall P l -> Forall P (stripFinalS l).
Proof.
  destruct l as [|c r] using rev_ind; [trivial|].
  intros H. rewrite stripFinalS_snoc.
  destruct (isS c); [|exact H].
  apply Forall_app in H. tauto.
Qed.
(** *** The article pass *)

(** The alternation only looks at the word that starts at the head. *)
Lemma matchArticle_word l :
  matchArticle l = matchArticle (takeWhile isWord l).
Proof.
  destruct l as [|c1 [|c2 [|c3 [|c4 r]]]]; simpl;
    repeat match goal with
    | |- context [Ascii.eqb ?c ?k] =>
        destruct (Ascii.eqb_spec c k); subst;
        rewrite ?isWord_a, ?isWord_n, ?isWord_t, ?isWord_h, ?isWord_e; simpl
    | |- context [isWord ?c] => destruct (isWord c) eqn:?; simpl
    end;
    rewrite ?Ascii.eqb_refl; simpl;
    repeat match goal with
    | H : ?c <> ?k |- context [Ascii.eqb ?c ?k] =>
        rewrite (proj2 (Ascii.eqb_neq c k) H); simpl
    end; try reflexivity; try congruence.
Qed.

Lemma matchArticle_nonword c r : isWord c = false -> matchArticle (c :: r) = None.
Proof.
  intros H. rewrite matchArticle_word. simpl. now rewrite H.
Qed.

Lemma matchArticle_Some l n :
  matchArticle l = Some n ->
  (n = 1 \/ n = 2 \/ n = 3) /\ n <= length l.
Proof.
  destruct l as [|c1 [|c2 [|c3 r]]]; simpl;
    repeat match goal with
    | |- context [if ?b then _ else _] => destruct b
    end; intros H; inversion H; subst; simpl; split; auto; lia.
Qed.

Lemma removeArticles_false_cons c r :
  removeArticles false (c :: r) =
  match matchArticle (c :: r) with
  | Some n => removeArticles true (skipn n (c :: r))
  | None => c :: removeArticles (isWord c) r
  end.
Proof.
  cbn [removeArticles].
  destruct (matchArticle (c :: r)) as [n|] eqn:E; [|reflexivity].
  destruct (matchArticle_Some _ _ E) as [[->|[->| ->]] Hlen];
    simpl in Hlen; try reflexivity.
  - destruct r as [|c2 r2]; [simpl in Hlen; lia | reflexivity].
  - destruct r as [|c2 [|c3 r3]]; simpl in Hlen; try lia. reflexivity.
Qed.

Lemma removeArticles_true_cons c r :
  removeArticles true (c :: r) = c :: removeArticles (isWord c) r.
Proof. reflexivity. Qed.

Lemma takeWhile_removeArticles_true l :
  takeWhile isWord (removeArticles true l) = takeWhile isWord l.
Proof.
  induction l as [|c r IH]; [reflexivity|].
  rewrite removeArticles_true_cons. simpl.
  destruct (isWord c); [now rewrite IH | reflexivity].
Qed.

Lemma matchArticle_after_pass c r :
  matchArticle (c :: removeArticles (isWord c) r) = matchArticle (c :: r).
Proof.
  destruct (isWord c) eqn:E.
  - rewrite matchArticle_word, (matchArticle_word (c :: r)). simpl.
    now rewrite E, takeWhile_removeArticles_true.
  - now rewrite !matchArticle_nonword.
Qed.

Lemma matchArticle_boundary l n :
  matchArticle l = Some n -> boundaryAfter (skipn n l) = true.
Proof.
  destruct l as [|c1 [|c2 [|c3 r]]]; simpl;
    repeat match goal with
    | |- context [if ?b then _ else _] => destruct b eqn:?
    end; intros H; inversion H; subst; simpl;
    rewrite ?andb_true_iff in *; intuition.
Qed.

(** A second article pass finds nothing left to remove. *)
Lemma removeArticles_idem_len n :
  forall l, length l <= n ->
  forall prev, removeArticles prev (removeArticles prev l) = removeArticles prev l.
Proof.
  induction n as [|n IH]; intros l Hl prev.
  - destruct l; [destruct prev; reflexivity | simpl in Hl; lia].
  - destruct l as [|c r]; [destruct prev; reflexivity|].
    simpl in Hl. destruct prev.
    + rewrite !removeArticles_true_cons. f_equal. apply IH. lia.
    + rewrite removeArticles_false_cons.
      destruct (matchArticle (c :: r)) as [k|] eqn:E.
      * pose proof (matchArticle_boundary _ _ E) as Hb.
        destruct (matchArticle_Some _ _ E) as [Hk Hlen].
        assert (Hs : length (skipn k (c :: r)) <= n).
        { rewrite length_skipn. simpl. lia. }
        destruct (skipn k (c :: r)) as [|c2 r2]; [reflexivity|].
        simpl in Hb. apply negb_true_iff in Hb.
        rewrite removeArticles_true_cons, Hb.
        rewrite removeArticles_false_cons.
        rewrite (matchArticle_nonword _ _ Hb), Hb. f_equal.
        apply IH. simpl in Hs. lia.
      * rewrite removeArticles_false_cons.
        rewrite matchArticle_after_pass, E. f_equal. apply IH. lia.
Qed.

Lemma removeArticles_idem prev l :
  removeArticles prev (removeArticles prev l) = removeArticles prev l.
Proof. now apply (removeArticles_idem_len (length l)). Qed.

Lemma removeArticles_Forall_len (P : ascii -> Prop) n :
  forall l, length l <= n -> forall prev,
  Forall P l -> Forall P (removeArticles prev l).
Proof.
  induction n as [|n IH]; intros l Hl prev H.
  - destruct l; [destruct prev; constructor | simpl in Hl; lia].
  - destruct l as [|c r]; [destruct prev; constructor|].
    simpl in Hl. inversion H; subst. destruct prev.
    + rewrite removeArticles_true_cons. constructor; [assumption|].
      apply IH; [lia | assumption].
    + rewrite removeArticles_false_cons.
      destruct (matchArticle (c :: r)) as [k|] eqn:E.
      * destruct (matchArticle_Some _ _ E) as [Hk Hlen].
        apply IH.
        -- rewrite length_skipn. simpl. lia.
        -- rewrite <- (firstn_skipn k (c :: r)) in H.
           apply Forall_app in H. tauto.
      * constructor; [assumption|]. apply IH; [lia | assumption].
Qed.

Lemma removeArticles_Forall (P : ascii -> Prop) prev l :
  Forall P l -> Forall P (removeArticles prev l).
Proof. now apply (removeArticles_Forall_len P (length l)). Qed.

Lemma takeWhile_app_nonword l s :
  l <> [] -> boundaryAfter s = true ->
  takeWhile isWord (l ++ s) = takeWhile isWord l.
Proof.
  intros _ Hs. induction l as [|c r IH]; simpl.
  - destruct s as [|d s']; [reflexivity|]. simpl in *.
    apply negb_true_iff in Hs. now rewrite Hs.
  - destruct (isWord c); [now rewrite IH | reflexivity].
Qed.

Lemma removeArticles_nonword prev s :
  Forall (fun c => isWord c = false) s -> removeArticles prev s = s.
Proof.
  intros H. revert prev. induction H as [|c r Hc Hr IH]; intros prev.
  - destruct prev; reflexivity.
  - destruct prev.
    + rewrite removeArticles_true_cons, IH. reflexivity.
    + rewrite removeArticles_false_cons, (matchArticle_nonword _ _ Hc), IH.
      reflexivity.
Qed.

(** Non-word characters behind the input are copied. *)
Lemma removeArticles_app_len s n :
  Forall (fun c => isWord c = false) s ->
  forall l, length l <= n -> forall prev,
  removeArticles prev (l ++ s) = removeArticles prev l ++ s.
Proof.
  intros Hs. 
  assert (Hb : boundaryAfter s = true).
  { destruct Hs as [|d s' Hd _]; simpl; [reflexivity | now rewrite Hd]. }
  induction n as [|n IH]; intros l Hl prev.
  - destruct l; [|simpl in Hl; lia]. simpl.
    rewrite removeArticles_nonword by exact Hs. destruct prev; reflexivity.
  - destruct l as [|c r].
    { simpl. rewrite removeArticles_nonword by exact Hs.
      destruct prev; reflexivity. }
    simpl in Hl. destruct prev.
    + simpl app. rewrite !removeArticles_true_cons. simpl. f_equal.
      apply IH. lia.
    + assert (Hm : matchArticle ((c :: r) ++ s) = matchArticle (c :: r)).
      { rewrite (matchArticle_word ((c :: r) ++ s)).
        rewrite takeWhile_app_nonword by (congruence || exact Hb).
        now rewrite <- matchArticle_word. }
      rewrite (removeArticles_false_cons c r).
      change ((c :: r) ++ s) with (c :: (r ++ s)) in *.
      rewrite (removeArticles_false_cons c (r ++ s)), Hm.
      destruct (matchArticle (c :: r)) as [k|] eqn:E.
      * destruct (matchArticle_Some _ _ E) as [Hk Hlen].
        change (c :: (r ++ s)) with ((c :: r) ++ s).
        rewrite skipn_app.
        replace (k - length (c :: r)) with 0 by lia.
        change (skipn 0 s) with s.
        apply IH. rewrite length_skipn. simpl. lia.
      * change ((c :: removeArticles (isWord c) r) ++ s)
          with (c :: (removeArticles (isWord c) r ++ s)).
        f_equal. apply IH. lia.
Qed.

Lemma removeArticles_app prev l s :
  Forall (fun c => isWord c = false) s ->
  removeArticles prev (l ++ s) = removeArticles prev l ++ s.
Proof. intros H. now apply (removeArticles_app_len s (length l)). Qed.

Lemma removeArticles_fix_trimStart l :
  removeArticles false l = l ->
  removeArticles false (trimStart l) = trimStart l.
Proof.
  unfold trimStart. induction l as [|c r IH]; [trivial|].
  simpl dropWhile. destruct (isSpace c) eqn:E; [|trivial].
  intros H. apply IH.
  rewrite removeArticles_false_cons in H.
  rewrite (matchArticle_nonword _ _ (isSpace_not_word _ E)) in H.
  rewrite (isSpace_not_word _ E) in H. congruence.
Qed.

Lemma removeArticles_fix_trimEnd l :
  removeArticles false l = l ->
  removeArticles false (trimEnd l) = trimEnd l.
Proof.
  intros H. destruct (trimEnd_split l) as (s & Hs & Hl).
  rewrite Hl in H at 1. rewrite removeArticles_app in H.
  - rewrite Hl in H at 2. now apply app_inv_tail in H.
  - apply Forall_forall. intros c Hc.
    apply isSpace_not_word. revert c Hc. now apply Forall_forall.
Qed.

Lemma removeArticles_fix_trim l :
  removeArticles false l = l -> removeArticles false (trim l) = trim l.
Proof.
  intros H. unfold trim.
  now apply removeArticles_fix_trimEnd, removeArticles_fix_trimStart.
Qed.

(** *** Passes that leave a normal form alone *)

Lemma toLowerCase_fix l :
  Forall (fun c => toLowerChar c = c) l -> toLowerCase l = l.
Proof.
  unfold toLowerCase. induction 1 as [|c r Hc Hr IH]; simpl; congruence.
Qed.

Lemma collapseSpaces_fix l :
  Forall (fun c => isSpace c = true -> c = " "%char) l ->
  doubleSpace l = false -> collapseSpaces l = l.
Proof.
  induction 1 as [|c r Hc Hr IH]; [reflexivity|].
  intros Hd. cbn [collapseSpaces].
  assert (Hr' : doubleSpace r = false).
  { simpl in Hd. destruct r; [reflexivity|].
    apply orb_false_iff in Hd. tauto. }
  destruct (isSpace c) eqn:E.
  - rewrite (Hc eq_refl) in *. destruct r as [|c' r']; [reflexivity|].
    destruct (isSpace c') eqn:E'.
    + inversion Hr as [|? ? Hc' _]; subst. rewrite (Hc' E') in Hd.
      simpl in Hd. discriminate.
    + now rewrite IH.
  - now rewrite IH.
Qed.

Lemma removePunctuation_fix l :
  Forall (fun c => isPunct c = false) l -> removePunctuation l = l.
Proof.
  unfold removePunctuation. induction 1 as [|c r Hc Hr IH]; simpl; [reflexivity|].
  rewrite Hc. simpl. congruence.
Qed.

Lemma stripFinalS_fix l :
  Forall (fun c => toLowerChar c = c) l ->
  match rev l with c :: _ => Ascii.eqb c "s" | [] => false end = false ->
  stripFinalS l = l.
Proof.
  destruct l as [|c r _] using rev_ind; [reflexivity|].
  rewrite rev_app_distr. simpl. intros Hl Hs.
  rewrite stripFinalS_snoc. unfold isS. rewrite Hs.
  apply Forall_app in Hl. destruct Hl as [_ Hc]. inversion Hc; subst.
  now rewrite upperS_not_lowered.
Qed.

(** What every normal form satisfies. *)
Lemma normalizeChars_shape l :
  let y := normalizeChars l in
  Forall (fun c => toLowerChar c = c) y /\
  Forall (fun c => isSpace c = true -> c = " "%char) y /\
  Forall (fun c => isPunct c = false) y /\
  trim y = y /\ removeArticles false y = y.
Proof.
  unfold normalizeChars. repeat split.
  - apply trim_Forall, removeArticles_Forall, stripFinalS_Forall,
      removePunctuation_Forall, collapseSpaces_Forall; [reflexivity|].
    apply trim_Forall. unfold toLowerCase. apply Forall_map.
    apply Forall_forall. intros c _. apply toLowerChar_idem.
  - apply trim_Forall, removeArticles_Forall, stripFinalS_Forall,
      removePunctuation_Forall, collapseSpaces_plain.
  - apply trim_Forall, removeArticles_Forall, stripFinalS_Forall,
      removePunctuation_clean.
  - apply trim_idem.
  - apply removeArticles_fix_trim, removeArticles_idem.
Qed.

Lemma normalizeChars_fix l :
  let y := normalizeChars l in
  match rev y with c :: _ => Ascii.eqb c "s" | [] => false end = false ->
  doubleSpace y = false ->
  normalizeChars y = y.
Proof.
  intros y Hs Hd.
  destruct (normalizeChars_shape l) as (Hlow & Hsp & Hpu & Htr & Har).
  fold y in Hlow, Hsp, Hpu, Htr, Har.
  unfold normalizeChars at 1.
  rewrite (toLowerCase_fix _ Hlow), Htr, (collapseSpaces_fix _ Hsp Hd),
    (removePunctuation_fix _ Hpu), (stripFinalS_fix _ Hlow Hs), Har, Htr.
  reflexivity.
Qed.

(** A second normalization changes nothing when the first one left neither
    a final [s] nor two spaces in a row. *)
Lemma normalizeAnswer_idempotent_on_stable (x : string) :
  endsWithS (normalizeAnswer x) = false ->
  hasDoubleSpace (normalizeAnswer x) = false ->
  normalizeAnswer (normalizeAnswer x) = normalizeAnswer x.
Proof.
  assert (Hx : normalizeAnswer x = "" \/
               exists l, normalizeAnswer x = string_of_list_ascii (normalizeChars l)).
  { unfold normalizeAnswer.
    destruct (String.eqb x ""); [left | right; eexists]; reflexivity. }
  destruct Hx as [-> | [l ->]]; [reflexivity|].
  unfold endsWithS, hasDoubleSpace.
  rewrite !list_ascii_of_string_of_list_ascii. intros Hs Hd.
  unfold normalizeAnswer.
  destruct (String.eqb (string_of_list_ascii (normalizeChars l)) "") eqn:Ey.
  - apply String.eqb_eq in Ey. now rewrite Ey.
  - rewrite list_ascii_of_string_of_list_ascii.
    now rewrite (normalizeChars_fix _ Hs Hd).
Qed.

Example normalizeAnswer_twice_the_cats :
  normalizeAnswer "The  Cats!" = "cat" /\
  normalizeAnswer (normalizeAnswer "The  Cats!") = normalizeAnswer "The  Cats!".
Proof.
  split; [reflexivity|].
  apply (normalizeAnswer_idempotent_on_stable "The  Cats!"); reflexivity.
Qed.


(** The article pass leaves the spaces on both sides of a removed article,
    so a second application collapses them. *)
Example normalizeAnswer_not_idempotent_spaces :
  normalizeAnswer "cat the dog" = "cat  dog" /\
  normalizeAnswer "cat  dog" = "cat dog".
Proof. split; reflexivity. Qed.

(** *** No pass makes the text longer *)











(** ** The token rule *)

(** C9. For player identities (ObjectId strings, so never empty): the token
    goes to the unique answerer exactly when there is one and it is not the
    current holder; otherwise the result is the current holder, and stays
    unset when there is none. *)
Theorem determinePinkCowHolder_moves_iff_unique_differs
    (currentHolder uniqueAnswerPlayer : option string) :
  currentHolder <> Some "" ->
  uniqueAnswerPlayer <> Some "" ->
  (uniqueAnswerPlayer <> None /\ uniqueAnswerPlayer <> currentHolder ->
     determinePinkCowHolder currentHolder uniqueAnswerPlayer = uniqueAnswerPlayer) /\
  (uniqueAnswerPlayer = None \/ uniqueAnswerPlayer = currentHolder ->
     determinePinkCowHolder currentHolder uniqueAnswerPlayer = currentHolder).
Proof.
  intros Hh Hu.
  assert (Hth : truthy currentHolder = match currentHolder with Some _ => true | None => false end).
  { destruct currentHolder as [h|]; [|reflexivity]. simpl.
    destruct (String.eqb_spec h ""); [subst; congruence | reflexivity]. }
  assert (Hoe : orEmpty currentHolder = match currentHolder with Some h => h | None => "" end).
  { destruct currentHolder as [h|]; [|reflexivity]. simpl.
    destruct (String.eqb_spec h ""); congruence. }
  unfold determinePinkCowHolder. rewrite Hth, Hoe.
  destruct uniqueAnswerPlayer as [u|].
  - assert (Hne : String.eqb u "" = false).
    { destruct (String.eqb_spec u ""); [subst; congruence | reflexivity]. }
    simpl. rewrite Hne. simpl.
    destruct currentHolder as [h|].
    + destruct (String.eqb_spec u h); simpl.
      * subst. split; [intros [_ H]; congruence | reflexivity].
      * split; [reflexivity | intros [H|H]; congruence].
    + rewrite Hne. simpl. split; [reflexivity | intros [H|H]; congruence].
  - destruct currentHolder; split; try reflexivity; intros [H _]; congruence.
Qed.

Lemma determinePinkCowHolder_moves_iff_unique_differs_witness :
  determinePinkCowHolder (Some "p1") (Some "p3") = Some "p3" /\
  determinePinkCowHolder None None = None.
Proof.
  split.
  - apply (determinePinkCowHolder_moves_iff_unique_differs (Some "p1") (Some "p3"));
      [discriminate | discriminate | split; discriminate].
  - apply (determinePinkCowHolder_moves_iff_unique_differs None None);
      [discriminate | discriminate | left; reflexivity].
Defined.

(** ** The win evaluation *)

Lemma idIsNot_iff id holder : idIsNot id holder = true <-> Some id <> holder.
Proof.
  unfold idIsNot. destruct holder as [h|]; [|split; [discriminate | reflexivity]].
  destruct (String.eqb_spec id h); simpl; split; congruence.
Qed.

Lemma potentialWinners_iff players holder p :
  In p (potentialWinners players holder) <-> In p players /\ eligible holder p.
Proof.
  unfold potentialWinners, eligible.
  rewrite !filter_In, idIsNot_iff, Nat.leb_le. tauto.
Qed.

(** The [reduce] returns the last of the highest-scoring elements. *)
Lemma keepHigher_fold rest : forall first w,
  w = fold_left keepHigher rest first ->
  exists l1 l2,
    first :: rest = l1 ++ w :: l2 /\
    (forall p, In p l1 -> Player.score p <= Player.score w) /\
    (forall p, In p l2 -> Player.score p < Player.score w).
Proof.
  induction rest as [|c rest IH]; intros first w Hw; simpl in Hw.
  - subst w. exists [], []. simpl. repeat split; intros p [].
  - destruct (IH _ _ Hw) as (l1 & l2 & Heq & H1 & H2). clear IH Hw.
    unfold keepHigher in Heq.
    destruct (Nat.ltb_spec (Player.score c) (Player.score first)) as [Hlt|Hge].
    + (* the candidate stays; [c] is below it *)
      destruct l1 as [|x l1]; simpl in Heq; injection Heq as Hx Hrest.
      * subst w rest. exists [], (c :: l2). simpl. repeat split.
        -- intros p [].
        -- intros p [<-|Hp]; [exact Hlt | now apply H2].
      * subst x rest. exists (first :: c :: l1), l2. simpl. repeat split.
        intros p [<-|[<-|Hp]].
        -- apply H1. now left.
        -- assert (Player.score first <= Player.score w) by (apply H1; now left). lia.
        -- apply H1. now right.
        -- exact H2.
    + (* [c] becomes the candidate *)
      exists (first :: l1), l2. simpl. repeat split.
      * now rewrite <- Heq.
      * intros p [<-|Hp]; [|now apply H1].
        destruct l1 as [|x l1]; simpl in Heq; injection Heq as Hx _.
        -- subst w. exact Hge.
        -- subst x.
           assert (Player.score c <= Player.score w) by (apply H1; now left). lia.
      * exact H2.
Qed.

Lemma filter_twice {A} (f g : A -> bool) l :
  List.filter g (List.filter f l) = List.filter (fun x => f x && g x) l.
Proof.
  induction l as [|x l IH]; simpl; [reflexivity|].
  destruct (f x); simpl; [destruct (g x); now rewrite IH | exact IH].
Qed.

Lemma filter_split {A} (f : A -> bool) l : forall l1 x l2,
  List.filter f l = l1 ++ x :: l2 ->
  exists m1 m2, l = m1 ++ x :: m2 /\ List.filter f m1 = l1 /\ List.filter f m2 = l2.
Proof.
  induction l as [|y l IH]; intros l1 x l2 H; simpl in H.
  - destruct l1; discriminate.
  - destruct (f y) eqn:E.
    + destruct l1 as [|z l1]; simpl in H; injection H as Hy Hl.
      * subst y. exists [], l. simpl. auto.
      * subst z. destruct (IH _ _ _ Hl) as (m1 & m2 & -> & <- & <-).
        exists (y :: m1), m2. simpl. now rewrite E.
    + destruct (IH _ _ _ H) as (m1 & m2 & -> & <- & <-).
      exists (y :: m1), m2. simpl. now rewrite E.
Qed.

(** C3, as the code has it. No winner is declared unless somebody is
    eligible; a declared winner has at least 8 points, does not hold the
    token, and is the highest-scoring eligible player; among several of
    them it is the one that comes last in the iteration order. *)
Theorem declareWinner_highest_eligible_last
    (updatedPlayers : list Player.t) (newPinkCowHolder : option string) :
  match declareWinner updatedPlayers newPinkCowHolder with
  | None => forall p, In p updatedPlayers -> ~ eligible newPinkCowHolder p
  | Some winner =>
      eligible newPinkCowHolder winner /\
      exists before after,
        updatedPlayers = before ++ winner :: after /\
        (forall p, In p before -> eligible newPinkCowHolder p ->
                   Player.score p <= Player.score winner) /\
        (forall p, In p after -> eligible newPinkCowHolder p ->
                   Player.score p < Player.score winner)
  end.
Proof.
  unfold declareWinner.
  destruct (potentialWinners updatedPlayers newPinkCowHolder) as [|first rest] eqn:E.
  - intros p Hp He.
    assert (H : In p (potentialWinners updatedPlayers newPinkCowHolder))
      by (apply potentialWinners_iff; auto).
    rewrite E in H. exact H.
  - destruct (keepHigher_fold rest first _ eq_refl) as (l1 & l2 & Heq & H1 & H2).
    set (w := fold_left keepHigher rest first) in *.
    assert (Hw : In w (potentialWinners updatedPlayers newPinkCowHolder)).
    { rewrite E, Heq. apply in_or_app. right. now left. }
    apply potentialWinners_iff in Hw. destruct Hw as [_ Hw]. split; [exact Hw|].
    rewrite Heq in E. unfold potentialWinners in E. rewrite filter_twice in E.
    destruct (filter_split _ _ _ _ _ E) as (m1 & m2 & Hm & F1 & F2).
    exists m1, m2. split; [exact Hm|].
    assert (Hin : forall m p, In p m -> eligible newPinkCowHolder p ->
              In p (List.filter (fun x => (8 <=? Player.score x) &&
                       idIsNot (Player._id x) newPinkCowHolder) m)).
    { intros m p Hp [Hs Hi]. apply filter_In. split; [exact Hp|].
      apply andb_true_iff. split; [now apply Nat.leb_le | now apply idIsNot_iff]. }
    split; intros p Hp He.
    + apply H1. rewrite <- F1. now apply Hin.
    + apply H2. rewrite <- F2. now apply Hin.
Qed.

(** C3 as the specification states it: with two eligible players on the
    same score, the first-encountered one is not the one declared. *)
Lemma declareWinner_not_first_encountered :
  let a := Player.mk "p1" "g1" "alice" true 8 true "sA" in
  let b := Player.mk "p2" "g1" "bob" false 8 true "sB" in
  specWinner [a; b] None = Some a /\
  declareWinner [a; b] None = Some b /\
  declareWinner [a; b] None <> specWinner [a; b] None.
Proof. vm_compute. repeat split; discriminate. Qed.

(** The other server file takes the first player that passes
    [checkWinCondition], whose comparison of an ObjectId with a string
    never fails: a holder with 8 points is returned. *)
Example findWinner_returns_holder :
  let a := Player.mk "p1" "g1" "alice" true 8 true "sA" in
  findWinner [a] (Some "p1") = Some a.
Proof. reflexivity. Qed.

(** ** The round tally on an answer that names an inherited property *)

(** C7 at a failing input. Two of three players answer [constructor]: it is
    the only text with the highest count, yet no majority is found and
    nobody scores, because the first read of [answerCounts.constructor]
    finds the inherited function and [+ 1] makes a string of it. The same
    through the handlers: alice and bob submit "Constructors" and "the
    constructor", carol's "cat" closes the round. *)
Theorem analyzeRoundAnswers_no_majority_for_constructor :
  (exists r,
     analyzeRoundAnswers [answerOf "p1" "constructor"; answerOf "p2" "constructor";
                          answerOf "p3" "cat"] = Some r /\
     majorityAnswer r = None /\ scoringPlayers r = []) /\
  (let s := serveAll AtomicIncrement catalog emptyStore
              (threePlayersStarted ++
               [call "sA" (Req.submit_answer "g1" "Constructors") "a";
                call "sB" (Req.submit_answer "g1" "the constructor") "b"]) in
   let '(s', es) := run (Part000.submit_answer "sC" "g1" "cat") s in
   map Answer.normalizedAnswer (answers s') = ["constructor"; "constructor"; "cat"] /\
   option_map (fun r => (majorityAnswer (fst r), scoringPlayers (fst r))) (closedWith es)
     = Some (None, []) /\
   map Player.score (players s') = [0; 0; 0]).
Proof. split; [eexists|]; vm_compute; repeat split. Qed.

(** C8 at a failing input. [constructor] is the only text given by exactly
    one player, yet no unique answerer is found: its count is a string,
    which [=== 1] rejects. Through the handlers the token stays unset. *)
Theorem analyzeRoundAnswers_no_unique_for_constructor :
  (exists r,
     analyzeRoundAnswers [answerOf "p1" "constructor"; answerOf "p2" "dog";
                          answerOf "p3" "dog"] = Some r /\
     uniqueAnswerPlayer r = None) /\
  (let s := serveAll AtomicIncrement catalog emptyStore
              (threePlayersStarted ++
               [call "sA" (Req.submit_answer "g1" "constructor") "a";
                call "sB" (Req.submit_answer "g1" "dog") "b"]) in
   let '(s', es) := run (Part000.submit_answer "sC" "g1" "Dogs") s in
   map Answer.normalizedAnswer (answers s') = ["constructor"; "dog"; "dog"] /\
   option_map (fun r => (uniqueAnswerPlayer (fst r), snd r)) (closedWith es)
     = Some (None, None)).
Proof. split; [eexists|]; vm_compute; repeat split. Qed.

(** The scenario of the specification: dog, dog, cat. *)
Example analyzeRoundAnswers_dog_dog_cat :
  analyzeRoundAnswers [answerOf "A" "dog"; answerOf "B" "dog"; answerOf "C" "cat"] =
  Some {| majorityAnswer := Some "dog"; uniqueAnswerPlayer := Some "C";
          scoringPlayers := ["A"; "B"];
          allAnswers := [("A", "A", "dog"); ("B", "B", "dog"); ("C", "C", "cat")] |}.
Proof. vm_compute. reflexivity. Qed.
(** ** The round tally when no answer names an inherited property *)

Lemma NoDup_map_filter {A B} (g : A -> B) (f : A -> bool) l :
  NoDup (map g l) -> NoDup (map g (List.filter f l)).
Proof.
  induction l as [|a l IH]; simpl; intros H; [constructor|].
  apply NoDup_cons in H. destruct H as [Ha Hl].
  destruct (f a); [|now apply IH]. simpl. apply NoDup_cons. split; [|now apply IH].
  intros Hin. apply Ha.
  apply list_elem_of_In in Hin. apply list_elem_of_In.
  apply in_map_iff in Hin. destruct Hin as (b & Hp & Hb).
  apply filter_In in Hb. apply in_map_iff. exists b. tauto.
Qed.


Lemma bump_assign_lookup (acc : gmap string JsCount) cf key k :
  ownKeyOnly key = true ->
  (forall k, acc !! k = storedCount (cf k)) ->
  assignCount acc key (bumpCount acc key) !! k =
  storedCount (cf k + (if String.eqb key k then 1 else 0)).
Proof.
  intros Hown Hacc. unfold ownKeyOnly in Hown.
  apply andb_true_iff in Hown. destruct Hown as [Hp Hi].
  apply negb_true_iff in Hp.
  unfold assignCount, bumpCount. rewrite Hp, (Hacc key).
  destruct (Object_prototype_function key); [discriminate|].
  destruct (String.eqb_spec key k) as [->|Hne].
  - rewrite lookup_insert_eq.
    destruct (cf k) as [|n]; cbn; [reflexivity|]. do 2 f_equal; lia.
  - rewrite lookup_insert_ne by exact Hne. rewrite Hacc. now rewrite Nat.add_0_r.
Qed.

Lemma countAnswers_fold answers : forall (acc : gmap string JsCount) cf,
  Forall (fun a => ownKeyOnly (Answer.normalizedAnswer a) = true) answers ->
  (forall k, acc !! k = storedCount (cf k)) ->
  forall k,
    fold_left
      (fun answerCounts answer =>
         let normalized := Answer.normalizedAnswer answer in
         assignCount answerCounts normalized (bumpCount answerCounts normalized))
      answers acc !! k = storedCount (cf k + groupSize answers k).
Proof.
  induction answers as [|a l IH]; intros acc cf Hown Hacc k; cbn [fold_left].
  - unfold groupSize. simpl. now rewrite Nat.add_0_r.
  - inversion Hown as [|? ? Ha Hl]; subst.
    rewrite (IH _ (fun k => cf k + (if String.eqb (Answer.normalizedAnswer a) k
                                    then 1 else 0)) Hl).
    + f_equal. unfold groupSize. cbn [List.filter].
      destruct (String.eqb (Answer.normalizedAnswer a) k); simpl; lia.
    + intros k'. now apply bump_assign_lookup.
Qed.

(** Each text is counted with its group size. *)
Lemma countAnswers_lookup answers k :
  Forall (fun a => ownKeyOnly (Answer.normalizedAnswer a) = true) answers ->
  countAnswers answers !! k = storedCount (groupSize answers k).
Proof.
  intros Hown. unfold countAnswers.
  rewrite (countAnswers_fold answers ∅ (fun _ => 0) Hown); [reflexivity|].
  intros k'. apply lookup_empty.
Qed.

Lemma keysWhere_In p (m : gmap string JsCount) k :
  In k (keysWhere p m) <-> exists v, m !! k = Some v /\ p v = true.
Proof.
  unfold keysWhere. rewrite in_map_iff. split.
  - intros ([k' v] & Hk & Hin). simpl in Hk. subst k'.
    apply filter_In in Hin. destruct Hin as [Hin Hp].
    exists v. split; [|exact Hp].
    apply list_elem_of_In in Hin. now apply elem_of_map_to_list in Hin.
  - intros (v & Hm & Hp). exists (k, v). split; [reflexivity|].
    apply filter_In. split; [|exact Hp].
    apply list_elem_of_In. now apply elem_of_map_to_list.
Qed.

Lemma keysWhere_NoDup p (m : gmap string JsCount) : NoDup (keysWhere p m).
Proof. unfold keysWhere. apply NoDup_map_filter, NoDup_fst_map_to_list. Qed.

Lemma maxStep_fold vs : forall acc,
  Forall (fun v => exists n, v = JNum n) vs ->
  exists M, fold_left maxStep vs (Num acc) = Num M /\
            (M = acc \/ In (JNum M) vs) /\ acc <= M /\
            forall n, In (JNum n) vs -> n <= M.
Proof.
  induction vs as [|v vs IH]; intros acc H; cbn [fold_left].
  - exists acc. repeat split; auto. intros n [].
  - inversion H as [|? ? [n ->] Hvs]; subst. cbn [maxStep].
    destruct (IH (Nat.max acc n) Hvs) as (M & HM & Hin & Hle & Hall).
    exists M. split; [exact HM|]. repeat split.
    + destruct Hin as [->|Hin]; [|right; now right].
      destruct (Nat.max_spec acc n) as [[_ ->]|[_ ->]]; [right; now left | now left].
    + lia.
    + intros n' [Hn|Hn]; [injection Hn as <-; lia | now apply Hall].
Qed.

Lemma Math_max_spec vs :
  vs <> [] -> Forall (fun v => exists n, v = JNum n) vs ->
  exists M, Math_max vs = Num M /\ In (JNum M) vs /\
            forall n, In (JNum n) vs -> n <= M.
Proof.
  destruct vs as [|v vs]; [congruence|]. intros _ H.
  inversion H as [|? ? [n ->] Hvs]; subst.
  unfold Math_max. cbn [fold_left maxStep].
  destruct (maxStep_fold vs n Hvs) as (M & HM & Hin & Hle & Hall).
  exists M. split; [exact HM|]. split.
  - destruct Hin as [->|Hin]; [now left | now right].
  - intros n' [Hn|Hn]; [injection Hn as <-; lia | now apply Hall].
Qed.

Lemma storedCount_Some n v : storedCount n = Some v -> v = JNum n /\ 1 <= n.
Proof. destruct n; cbn; intros H; inversion H. split; [reflexivity | lia]. Qed.

(** With at least one answer, [maxCount] is the largest group size. *)
Lemma maxCount_spec answers :
  answers <> [] ->
  Forall (fun a => ownKeyOnly (Answer.normalizedAnswer a) = true) answers ->
  exists M top,
    Math_max (map snd (map_to_list (countAnswers answers))) = Num M /\
    groupSize answers top = M /\ 1 <= M /\
    forall k, groupSize answers k <= M.
Proof.
  intros Hne Hown.
  assert (Hvals : Forall (fun v => exists n, v = JNum n)
                    (map snd (map_to_list (countAnswers answers)))).
  { apply Forall_forall. intros v Hv. apply list_elem_of_In, in_map_iff in Hv.
    destruct Hv as ([k v'] & <- & Hin). apply list_elem_of_In in Hin.
    apply elem_of_map_to_list in Hin. rewrite (countAnswers_lookup _ _ Hown) in Hin.
    apply storedCount_Some in Hin. destruct Hin as [-> _]. eauto. }
  assert (Hsome : map snd (map_to_list (countAnswers answers)) <> []).
  { destruct answers as [|a l]; [congruence|].
    intros Hnil. apply map_eq_nil in Hnil. apply map_to_list_empty_iff in Hnil.
    pose proof (countAnswers_lookup (a :: l) (Answer.normalizedAnswer a) Hown) as H.
    rewrite Hnil, lookup_empty in H. unfold groupSize in H. cbn [List.filter] in H.
    rewrite String.eqb_refl in H. discriminate. }
  destruct (Math_max_spec _ Hsome Hvals) as (M & HM & Hin & Hall).
  apply in_map_iff in Hin. destruct Hin as ([top v] & Hv & Hin). simpl in Hv. subst v.
  apply list_elem_of_In in Hin. apply elem_of_map_to_list in Hin.
  rewrite (countAnswers_lookup _ _ Hown) in Hin.
  apply storedCount_Some in Hin. destruct Hin as [Heq Hpos].
  injection Heq as Heq.
  exists M, top. split; [exact HM|]. split; [congruence|]. split; [lia|].
  intros k. destruct (groupSize answers k) as [|n] eqn:E; [lia|].
  apply Hall. apply in_map_iff. exists (k, JNum (S n)). split; [reflexivity|].
  apply list_elem_of_In, elem_of_map_to_list.
  rewrite (countAnswers_lookup _ _ Hown), E. reflexivity.
Qed.

Lemma keys_with_count answers n k :
  Forall (fun a => ownKeyOnly (Answer.normalizedAnswer a) = true) answers ->
  1 <= n ->
  In k (keysWhere (fun c => countIs c (Num n)) (countAnswers answers)) <->
  groupSize answers k = n.
Proof.
  intros Hown Hn. rewrite keysWhere_In, (countAnswers_lookup _ _ Hown). split.
  - intros (v & Hv & Hc). apply storedCount_Some in Hv. destruct Hv as [-> _].
    cbn in Hc. now apply Nat.eqb_eq in Hc.
  - intros <-. exists (JNum (groupSize answers k)). split.
    + destruct (groupSize answers k); [lia | reflexivity].
    + cbn. apply Nat.eqb_refl.
Qed.

Lemma NoDup_only_one {A} (l : list A) x :
  NoDup l -> (forall y, In y l <-> y = x) -> l = [x].
Proof.
  intros Hnd H. destruct l as [|a [|b l]].
  - exfalso. apply (proj2 (H x) eq_refl).
  - f_equal. apply H. now left.
  - exfalso.
    assert (a = x) by (apply H; now left).
    assert (b = x) by (apply H; right; now left). subst.
    apply NoDup_cons in Hnd. destruct Hnd as [Hx _]. apply Hx. now left.
Qed.

Lemma two_members_not_single {A B} (l : list A) x y (one : A -> B) (other : B) :
  In x l -> In y l -> x <> y ->
  match l with [m] => one m | _ => other end = other.
Proof.
  intros Hx Hy Hne. destruct l as [|a [|b l]]; try reflexivity.
  exfalso. destruct Hx as [<-|[]]. destruct Hy as [<-|[]]. congruence.
Qed.

(** X6. The tally finds the majority, when no answer names a property
    that [answerCounts] inherits: the one text with the strictly largest
    group gives [majorityAnswer] and its players score; when two texts
    share the largest group size there is no majority and nobody scores. *)
Lemma analyzeRoundAnswers_majority answers results :
  Forall (fun a => ownKeyOnly (Answer.normalizedAnswer a) = true) answers ->
  analyzeRoundAnswers answers = Some results ->
  (forall m,
      (forall k, k <> m -> groupSize answers k < groupSize answers m) ->
      majorityAnswer results = Some m /\
      scoringPlayers results =
        map Answer.playerId
          (List.filter (fun a => String.eqb (Answer.normalizedAnswer a) m) answers)) /\
  (forall m1 m2,
      m1 <> m2 -> groupSize answers m1 = groupSize answers m2 ->
      (forall k, groupSize answers k <= groupSize answers m1) ->
      majorityAnswer results = None /\ scoringPlayers results = []).
Proof.
  intros Hown Hres.
  assert (Hne : answers <> []) by (destruct answers; [discriminate | congruence]).
  destruct (maxCount_spec answers Hne Hown) as (M & top & HM & Htop & Hpos & Hmax).
  unfold analyzeRoundAnswers in Hres.
  destruct answers as [|a0 l0] eqn:Ea; [congruence|]. rewrite <- Ea in *.
  injection Hres as <-. cbv beta iota zeta delta [majorityAnswer scoringPlayers].
  rewrite HM. split.
  - intros m Hm.
    assert (Hmm : groupSize answers m = M).
    { destruct (String.eqb_spec top m) as [<-|Hd]; [exact Htop|].
      specialize (Hm top Hd). specialize (Hmax m). lia. }
    rewrite (NoDup_only_one _ m (keysWhere_NoDup _ _)); [auto|].
    intros y. rewrite (keys_with_count answers M y Hown Hpos). split.
    + intros Hy. destruct (String.eqb_spec y m) as [|Hd]; [assumption|].
      specialize (Hm y Hd). lia.
    + intros ->. exact Hmm.
  - intros m1 m2 Hd Heq Hall.
    assert (H1 : groupSize answers m1 = M).
    { specialize (Hall top). specialize (Hmax m1). lia. }
    assert (In1 : In m1 (keysWhere (fun c => countIs c (Num M)) (countAnswers answers)))
      by (apply keys_with_count; auto).
    assert (In2 : In m2 (keysWhere (fun c => countIs c (Num M)) (countAnswers answers)))
      by (apply keys_with_count; auto; congruence).
    split.
    + apply (two_members_not_single _ m1 m2 (fun m => Some m) None In1 In2 Hd).
    + apply (two_members_not_single _ m1 m2
               (fun m => map Answer.playerId
                  (List.filter (fun a => String.eqb (Answer.normalizedAnswer a) m) answers))
               [] In1 In2 Hd).
Qed.

(** X7. The tally finds the unique answerer, when no answer names a
    property that [answerCounts] inherits: when exactly one text has a group
    of one, the player who gave it; when none or several have, nobody. *)
Lemma analyzeRoundAnswers_unique answers results :
  Forall (fun a => ownKeyOnly (Answer.normalizedAnswer a) = true) answers ->
  analyzeRoundAnswers answers = Some results ->
  (forall u,
      groupSize answers u = 1 ->
      (forall k, k <> u -> groupSize answers k <> 1) ->
      exists a, In a answers /\ Answer.normalizedAnswer a = u /\
                uniqueAnswerPlayer results = Some (Answer.playerId a)) /\
  ((forall k, groupSize answers k <> 1) -> uniqueAnswerPlayer results = None) /\
  (forall u1 u2,
      u1 <> u2 -> groupSize answers u1 = 1 -> groupSize answers u2 = 1 ->
      uniqueAnswerPlayer results = None).
Proof.
  intros Hown Hres.
  unfold analyzeRoundAnswers in Hres.
  destruct answers as [|a0 l0] eqn:Ea; [discriminate|]. rewrite <- Ea in *.
  injection Hres as <-. cbv beta iota zeta delta [uniqueAnswerPlayer].
  assert (Hkeys : forall k,
    In k (keysWhere (fun c => countIs c (Num 1)) (countAnswers answers)) <->
    groupSize answers k = 1) by (intros k; apply keys_with_count; auto).
  split; [|split].
  - intros u Hu Honly.
    rewrite (NoDup_only_one _ u (keysWhere_NoDup _ _)).
    2:{ intros y. rewrite Hkeys. split; [|now intros ->].
        intros Hy. destruct (String.eqb_spec y u); [assumption|].
        now specialize (Honly y n). }
    destruct (List.find (fun a => existsb (String.eqb (Answer.normalizedAnswer a)) [u])
                answers) as [a|] eqn:Ef.
    + apply find_some in Ef. destruct Ef as [Hin Hm]. cbn in Hm.
      rewrite orb_false_r in Hm. apply String.eqb_eq in Hm.
      exists a. auto.
    + exfalso. unfold groupSize in Hu.
      destruct (List.filter (fun a => String.eqb (Answer.normalizedAnswer a) u) answers)
        as [|b l] eqn:Eb; [discriminate|].
      assert (Hb : In b (List.filter
                (fun a => String.eqb (Answer.normalizedAnswer a) u) answers))
        by (rewrite Eb; now left).
      apply filter_In in Hb. destruct Hb as [Hb Hm].
      pose proof (find_none _ _ Ef b Hb) as Hn. cbn in Hn. now rewrite Hm in Hn.
  - intros Hnone.
    destruct (keysWhere (fun c => countIs c (Num 1)) (countAnswers answers))
      as [|k [|k' ks]] eqn:Ek; try reflexivity.
    exfalso. apply (Hnone k). apply Hkeys. now left.
  - intros u1 u2 Hd H1 H2.
    apply (two_members_not_single _ u1 u2
             (fun _ => option_map Answer.playerId
                (List.find (fun a => existsb (String.eqb (Answer.normalizedAnswer a))
                   (keysWhere (fun c => countIs c (Num 1)) (countAnswers answers)))
                   answers))
             None); [now apply Hkeys | now apply Hkeys | exact Hd].
Qed.
(** ** The closing test of [submit_answer] *)

Lemma analyzeRoundAnswers_some answers :
  answers <> [] -> exists results, analyzeRoundAnswers answers = Some results.
Proof.
  destruct answers as [|a l]; [congruence|]. intros _.
  unfold analyzeRoundAnswers. eexists. reflexivity.
Qed.

Lemma find_gameInProgress s gameId g :
  findGame s gameId = Some g -> Game.status g = Game.in_progress ->
  List.find (gameInProgress gameId) (games s) = Some g.
Proof.
  unfold findGame. intros Hf Hs.
  induction (games s) as [|x l IH]; simpl in *; [discriminate|].
  unfold gameInProgress at 1. destruct (gameHasId gameId x) eqn:E; simpl.
  - injection Hf as ->. now rewrite Hs.
  - now apply IH.
Qed.

Lemma roundClosings_cons e es :
  roundClosings (e :: es) = (if isRoundCompleted e then 1 else 0) + roundClosings es.
Proof. unfold roundClosings. simpl. destruct (isRoundCompleted e); reflexivity. Qed.

(** Once entered with an answer of the round in the store, the closing
    block of either file broadcasts its result once. *)
Lemma part000_sa_close_broadcasts sock gameId game round s :
  List.filter (answerInRound (Round._id round)) (answers s) <> [] ->
  roundClosings (snd (run (Part000.sa_close sock gameId game round) s)) = 1.
Proof.
  intros Hne. destruct (analyzeRoundAnswers_some _ Hne) as [results Hr].
  unfold Part000.sa_close. cbn [run exec]. rewrite Hr.
  assert (Hreset : forall s' h,
    roundClosings (snd (run (Part000.sa_reset gameId game results h) s')) = 1).
  { intros s' h. unfold Part000.sa_reset, Part000.sa_broadcast. cbn [run exec].
    destruct (declareWinner _ _); unfold Part000.sa_complete; cbn [run exec];
      reflexivity. }
  destruct (scoringPlayers results); [apply Hreset|].
  cbn [run exec]. apply Hreset.
Qed.

Lemma part001_incScores_run ids k : forall s,
  exists s', run (Part001.incScores ids k) s = run k s' /\
             answers s' = answers s /\ games s' = games s /\ rounds s' = rounds s.
Proof.
  induction ids as [|id ids IH]; intros s; simpl.
  - exists s. auto.
  - destruct (IH (withPlayers s (updateFirst (playerHasId id) Player.incScore (players s))))
      as (s' & Hrun & Ha & Hg & Hr).
    exists s'. auto.
Qed.

Lemma part001_sa_close_broadcasts sock gameId game round s :
  List.filter (answerInRound (Round._id round)) (answers s) <> [] ->
  roundClosings (snd (run (Part001.sa_close sock gameId game round) s)) = 1.
Proof.
  intros Hne. destruct (analyzeRoundAnswers_some _ Hne) as [results Hr].
  unfold Part001.sa_close. cbn [run exec]. rewrite Hr.
  match goal with
  | |- context [run (Part001.incScores ?ids ?k) s] =>
      destruct (part001_incScores_run ids k s) as (s' & -> & _)
  end.
  cbn [run exec]. destruct (findWinner _ _); cbn [run exec]; reflexivity.
Qed.

Lemma filter_app_last_nonempty {A} (f : A -> bool) l x :
  f x = true -> List.filter f (l ++ [x]) <> [].
Proof.
  intros Hx H. assert (Hin : In x (List.filter f (l ++ [x]))).
  { apply filter_In. split; [apply in_or_app; right; now left | exact Hx]. }
  rewrite H in Hin. exact Hin.
Qed.

(** C1, as the code has it. A submission to a room in progress that finds
    its player and round and whose answer is stored runs the closing block
    (once) exactly when, in the file that increments atomically, the
    incremented counter has reached the number of connected players, and in
    the file that reads and saves, the incremented counter equals the
    number of players of the room. *)
Theorem submit_answer_closes_iff
    (s : Store) (sock gameId answer : string)
    (g : Game.t) (p : Player.t) (r : Round.t) :
  findGame s gameId = Some g ->
  Game.status g = Game.in_progress ->
  findPlayerOnSocket s gameId sock = Some p ->
  findRound s gameId (Game.currentRound g) = Some r ->
  answerRejected (answers s) (answerDoc gameId answer p r) = false ->
  roundClosings (snd (run (Part000.submit_answer sock gameId answer) s)) =
    (if connectedCount s gameId <=? Game.playersAnswered g + 1 then 1 else 0) /\
  roundClosings (snd (run (Part001.submit_answer sock gameId answer) s)) =
    (if Game.playersAnswered g + 1 =? length (playersOf s gameId) then 1 else 0).
Proof.
  intros Hg Hst Hp Hr Ha. split.
  - unfold Part000.submit_answer. cbn [run exec].
    rewrite (find_gameInProgress _ _ _ Hg Hst). cbn [option_map].
    unfold Part000.sa_player. cbn [run exec withGames players].
    unfold findPlayerOnSocket in Hp. rewrite Hp.
    unfold Part000.sa_round. cbn [run exec withGames rounds].
    change (Game.currentRound (incPlayersAnswered g)) with (Game.currentRound g).
    unfold findRound in Hr. rewrite Hr.
    unfold Part000.sa_save. cbn [run exec withGames answers].
    fold (answerDoc gameId answer p r). rewrite Ha.
    unfold Part000.sa_count. cbn [run exec withGames withAnswers players].
    change (Game.playersAnswered (incPlayersAnswered g)) with (Game.playersAnswered g + 1).
    fold (connectedCount s gameId).
    destruct (connectedCount s gameId <=? Game.playersAnswered g + 1).
    + match goal with
      | |- context [run (Part000.sa_close ?a ?b ?c ?d) ?s'] =>
          pose proof (part000_sa_close_broadcasts a b c d s') as Hc;
          destruct (run (Part000.sa_close a b c d) s') as [s2 es]
      end.
      cbn [snd] in *. rewrite roundClosings_cons. cbn [isRoundCompleted].
      rewrite Hc; [reflexivity|].
      cbn [answers withAnswers]. apply filter_app_last_nonempty.
      unfold answerInRound, answerDoc. cbn. apply String.eqb_refl.
    + reflexivity.
  - unfold Part001.submit_answer. cbn [run exec].
    unfold findGame in Hg. rewrite Hg, Hst. cbn [Game.status_eqb negb].
    cbn [run exec].
    unfold findPlayerOnSocket in Hp. rewrite Hp.
    cbn [run exec].
    unfold findRound in Hr. rewrite Hr.
    cbn [run exec].
    fold (answerDoc gameId answer p r). rewrite Ha.
    cbn [run exec withGames withAnswers players].
    change (Game.playersAnswered
              (Game.apply g (Game.set_playersAnswered (Game.playersAnswered g + 1))))
      with (Game.playersAnswered g + 1).
    fold (playersOf s gameId).
    destruct (Game.playersAnswered g + 1 =? length (playersOf s gameId)).
    + match goal with
      | |- context [run (Part001.sa_close ?a ?b ?c ?d) ?s'] =>
          pose proof (part001_sa_close_broadcasts a b c d s') as Hc;
          destruct (run (Part001.sa_close a b c d) s') as [s2 es]
      end.
      cbn [snd] in *. rewrite roundClosings_cons. cbn [isRoundCompleted].
      rewrite Hc; [reflexivity|].
      cbn [answers withAnswers withGames]. apply filter_app_last_nonempty.
      unfold answerInRound, answerDoc. cbn. apply String.eqb_refl.
    + reflexivity.
Qed.

Lemma submit_answer_closes_iff_witness :
  let s := serveAll AtomicIncrement catalog emptyStore carolLeftAfterAnswering in
  roundClosings (snd (run (Part000.submit_answer "sB" "g1" "dog") s)) = 1 /\
  roundClosings (snd (run (Part001.submit_answer "sB" "g1" "dog") s)) = 1.
Proof.
  intros s.
  destruct (findGame s "g1") as [g|] eqn:Hg; [|vm_compute in Hg; discriminate].
  destruct (findPlayerOnSocket s "g1" "sB") as [p|] eqn:Hp; [|vm_compute in Hp; discriminate].
  destruct (findRound s "g1" 1) as [r|] eqn:Hr; [|vm_compute in Hr; discriminate].
  assert (Hst : Game.status g = Game.in_progress).
  { vm_compute in Hg. injection Hg as <-. reflexivity. }
  assert (Hcr : Game.currentRound g = 1).
  { vm_compute in Hg. injection Hg as <-. reflexivity. }
  assert (Hpa : Game.playersAnswered g = 2).
  { vm_compute in Hg. injection Hg as <-. reflexivity. }
  rewrite <- Hcr in Hr.
  assert (Ha : answerRejected (answers s) (answerDoc "g1" "dog" p r) = false).
  { vm_compute in Hp. injection Hp as <-. rewrite Hcr in Hr.
    vm_compute in Hr. injection Hr as <-. vm_compute. reflexivity. }
  destruct (submit_answer_closes_iff s "sB" "g1" "dog" g p r Hg Hst Hp Hr Ha) as [H0 H1].
  rewrite H0, H1, Hpa. split; reflexivity.
Defined.

(** C1 as the specification states it: bob's submission finds the counter
    at 3 after the increment and 2 connected players, and closes the round. *)
Lemma submit_answer_closes_above_equality :
  let s := serveAll AtomicIncrement catalog emptyStore carolLeftAfterAnswering in
  ~ closesExactlyAtEquality
      (roundClosings (snd (run (Part000.submit_answer "sB" "g1" "dog") s))) s "g1".
Proof.
  intros s H. unfold closesExactlyAtEquality in H.
  destruct (findGame s "g1") as [g|] eqn:Hg; [|vm_compute in Hg; discriminate].
  specialize (H g eq_refl).
  vm_compute in Hg. injection Hg as <-.
  specialize (H eq_refl). vm_compute in H.
  destruct H as [H _]. specialize (H (le_n 1)). discriminate.
Qed.
(** ** Scores *)

Lemma Forall2_refl_on {A} (R : A -> A -> Prop) l :
  (forall x, R x x) -> Forall2 R l l.
Proof. intros H. induction l; constructor; auto. Qed.

Lemma updateFirst_Forall2 {A} (R : A -> A -> Prop) p f l :
  (forall x, R x x) -> (forall x, R x (f x)) -> Forall2 R l (updateFirst p f l).
Proof.
  intros Hr Hf. induction l as [|x l IH]; simpl; [constructor|].
  destruct (p x); constructor; auto. now apply Forall2_refl_on.
Qed.

Lemma updateAll_Forall2 {A} (R : A -> A -> Prop) p f l :
  (forall x, R x x) -> (forall x, p x = true -> R x (f x)) ->
  Forall2 R l (updateAll p f l).
Proof.
  intros Hr Hf. unfold updateAll. induction l as [|x l IH]; simpl; constructor; auto.
  destruct (p x) eqn:E; auto.
Qed.

(** *** Creation and the operations that do not write a score *)

Lemma Player_create_score_zero s id gid name host sock s' p :
  exec (Player_create id gid name host sock) s = (s', Some p) -> Player.score p = 0.
Proof.
  cbn [exec]. destruct (_ || _); intros H; inversion H. reflexivity.
Qed.

Lemma keepsScores_refl l : keepsScores l l.
Proof.
  exists l, []. rewrite app_nil_r. repeat split; [|constructor].
  apply Forall2_refl_on. auto.
Qed.

Lemma keepsScores_trans a b c : keepsScores a b -> keepsScores b c -> keepsScores a c.
Proof.
  intros (k1 & n1 & -> & F1 & Z1) (k2 & n2 & -> & F2 & Z2).
  apply Forall2_app_inv_l in F2. destruct F2 as (k2a & k2b & Fa & Fb & ->).
  exists k2a, (k2b ++ n2). rewrite <- app_assoc. repeat split.
  - clear -F1 Fa. revert k2a Fa. induction F1 as [|x y l l' [Hi Hs] _ IH]; intros k Fa.
    + inversion Fa. constructor.
    + inversion Fa as [|? z ? l'' [Hi' Hs'] Fa']; subst. constructor; [split; congruence|].
      now apply IH.
  - apply Forall_app. split; [|exact Z2].
    clear -Z1 Fb. revert k2b Fb. induction Z1 as [|x l Hx _ IH]; intros k Fb.
    + inversion Fb. constructor.
    + inversion Fb as [|? z ? l'' [_ Hs'] Fb']; subst. constructor; [congruence|].
      now apply IH.
Qed.

Lemma exec_keepsScores {R} (q : Query R) s :
  writesScore q = false -> keepsScores (players s) (players (fst (exec q s))).
Proof.
  destruct q; cbn [exec writesScore]; intros Hq; try discriminate;
    try apply keepsScores_refl.
  - destruct (_ || _); apply keepsScores_refl.
  - destruct (_ || _); [apply keepsScores_refl|]. cbn.
    exists (players s), [Player.mk _id gameId username isHost 0 true socketId].
    repeat split; [apply Forall2_refl_on; auto | repeat constructor].
  - cbn. exists (updateFirst (playerHasId id) (fun p => Player.applyAll p us) (players s)), [].
    rewrite app_nil_r. repeat split; [|constructor].
    apply updateFirst_Forall2; [auto|]. intros x. unfold Player.applyAll.
    revert x. induction us as [|u us IH]; intros x; simpl; [auto|].
    destruct (IH (Player.apply x u)) as [Hi Hs]. rewrite Hi, Hs.
    destruct u; auto.
  - cbn. eexists _, []. rewrite app_nil_r. repeat split; [|constructor].
    apply updateFirst_Forall2; auto.
  - destruct (existsb _ _); apply keepsScores_refl.
  - destruct (answerRejected _ _); apply keepsScores_refl.
Qed.

Lemma quiet_run p : Quiet p -> forall s,
  keepsScores (players s) (players (fst (run p s))) /\ scorersOf (snd (run p s)) = None.
Proof.
  induction 1 as [|e k He Hk IH|R q k Hq Hk IH]; intros s; cbn [run].
  - split; [apply keepsScores_refl | reflexivity].
  - destruct (IH s) as [H1 H2]. destruct (run k s) as [s' es]. cbn [fst snd] in *.
    split; [exact H1|].
    destruct e as [? ?|? m|? ?]; cbn [scorersOf]; try exact H2.
    destruct m; cbn in He; try discriminate; exact H2.
  - pose proof (exec_keepsScores q s Hq) as H1.
    destruct (exec q s) as [s1 r]. cbn [fst] in H1.
    destruct (IH r s1) as [H2 H3]. split; [|exact H3].
    eapply keepsScores_trans; eassumption.
Qed.

Ltac quiet :=
  repeat first
    [ apply Quiet_Done
    | apply Quiet_Emit; [reflexivity|]
    | apply Quiet_Await; [reflexivity | intros ?]
    | match goal with
      | |- Quiet (match ?x with _ => _ end) => destruct x
      end
    | progress cbv zeta
    | progress unfold Common.fail ].

Lemma generateRoomCode_quiet candidates k :
  (forall c, Quiet (k c)) -> Quiet (Common.generateRoomCode candidates k).
Proof.
  intros Hk. induction candidates as [|c more IH]; simpl; [constructor|].
  apply Quiet_Await; [reflexivity|]. intros [g|]; [exact IH | apply Hk].
Qed.

Lemma handler_quiet v cat c :
  ~ isSubmitAnswer (request c) -> Quiet (handler v cat c).
Proof.
  intros Hn. destruct c as [sock req f]. cbn [request] in Hn.
  destruct v, req; cbn [handler Part000.handle Part001.handle socket request fresh];
    try (exfalso; apply Hn; eexists _, _; reflexivity);
    try (apply generateRoomCode_quiet; intros ?);
    try unfold Part000.create_game, Part001.create_game, Common.join_game,
      Common.start_game, Common.next_round, Common.remove_player,
      Common.disconnect, Part000.reconnect_game;
    try (apply generateRoomCode_quiet; intros ?);
    quiet.
Qed.
(** *** The unique index of the answers is kept *)

Lemma answerRejected_fresh_key l a :
  answerRejected l a = false -> ~ In (answerKey a) (map answerKey l).
Proof.
  unfold answerRejected. intros H Hin.
  apply orb_false_iff in H. destruct H as [_ H].
  apply in_map_iff in Hin. destruct Hin as (b & Hk & Hb).
  assert (Ht : existsb (sameRoundAndPlayer a) l = true).
  { apply existsb_exists. exists b. split; [exact Hb|].
    unfold answerKey in Hk. injection Hk as Hr Hp.
    unfold sameRoundAndPlayer, answerInRound. rewrite Hr, Hp.
    now rewrite !String.eqb_refl. }
  congruence.
Qed.

Lemma exec_answersUnique {R} (q : Query R) s :
  answersUnique s -> answersUnique (fst (exec q s)).
Proof.
  unfold answersUnique. destruct q; cbn [exec]; intros H;
    try exact H;
    try (match goal with |- context [if ?b then _ else _] => destruct b eqn:E end;
         try exact H).
  cbn. rewrite map_app. simpl.
  apply NoDup_app; repeat split.
  - exact H.
  - intros x Hx Hx'. apply list_elem_of_In in Hx, Hx'. destruct Hx' as [<-|[]].
    now apply (answerRejected_fresh_key _ _ E).
  - repeat constructor. intros Hx. apply list_elem_of_In in Hx. exact Hx.
Qed.

Lemma run_answersUnique p : forall s,
  answersUnique s -> answersUnique (fst (run p s)).
Proof.
  induction p as [|e k IH|R q k IH]; intros s H; cbn [run].
  - exact H.
  - specialize (IH s H). destruct (run k s). exact IH.
  - pose proof (exec_answersUnique q s H) as H1.
    destruct (exec q s) as [s1 r]. now apply IH.
Qed.

Lemma serve_answersUnique v cat s c :
  answersUnique s -> answersUnique (serve v cat s c).
Proof. apply run_answersUnique. Qed.

Lemma serveAll_answersUnique v cat cs : forall s,
  answersUnique s -> answersUnique (serveAll v cat s cs).
Proof.
  induction cs as [|c cs IH]; intros s H; simpl; [exact H|].
  apply IH, serve_answersUnique, H.
Qed.

(** Within one round no player is listed twice among the scoring players. *)
Lemma NoDup_playerId_in_round rid l :
  NoDup (map answerKey l) ->
  NoDup (map Answer.playerId (List.filter (answerInRound rid) l)).
Proof.
  induction l as [|a l IH]; simpl; intros H; [constructor|].
  apply NoDup_cons in H. destruct H as [Ha Hl].
  destruct (answerInRound rid a) eqn:E; [|now apply IH].
  simpl. apply NoDup_cons. split; [|now apply IH].
  intros Hin. apply Ha.
  apply list_elem_of_In in Hin. apply list_elem_of_In.
  apply in_map_iff in Hin. destruct Hin as (b & Hp & Hb).
  apply filter_In in Hb. destruct Hb as [Hb Hr].
  apply in_map_iff. exists b. split; [|exact Hb].
  unfold answerKey. unfold answerInRound in *.
  apply String.eqb_eq in E, Hr. congruence.
Qed.

Lemma scoringPlayers_sublist answers results :
  analyzeRoundAnswers answers = Some results ->
  scoringPlayers results = [] \/
  exists f, scoringPlayers results = map Answer.playerId (List.filter f answers).
Proof.
  unfold analyzeRoundAnswers. destruct answers as [|a found]; [discriminate|].
  generalize (a :: found). intros l H. injection H as <-.
  cbv beta iota delta [scoringPlayers].
  match goal with
  | |- (match ?ks with _ => _ end) = _ \/ _ => destruct ks as [|k1 [|k2 ks']]
  end; auto.
  right. eexists. reflexivity.
Qed.

Lemma scoringPlayers_NoDup rid l results :
  NoDup (map answerKey l) ->
  analyzeRoundAnswers (List.filter (answerInRound rid) l) = Some results ->
  NoDup (scoringPlayers results).
Proof.
  intros Hl H. destruct (scoringPlayers_sublist _ _ H) as [->|[f ->]]; [constructor|].
  apply (NoDup_map_filter Answer.playerId). now apply NoDup_playerId_in_round.
Qed.

(** *** What [submit_answer] does to the scores *)

Lemma scoreStep_refl scorers p : scoreStep scorers p p.
Proof. split; auto. Qed.

Lemma part000_sa_close_scoreStep sock gameId game round s :
  Forall2 (scoreStep (scorersOf (snd (run (Part000.sa_close sock gameId game round) s))))
    (players s) (players (fst (run (Part000.sa_close sock gameId game round) s))).
Proof.
  unfold Part000.sa_close. cbn [run exec].
  destruct (analyzeRoundAnswers _) as [results|]; cbn [run exec fst snd].
  2:{ apply Forall2_refl_on, scoreStep_refl. }
  assert (Hreset : forall s' h,
    scorersOf (snd (run (Part000.sa_reset gameId game results h) s')) =
      Some (scoringPlayers results) /\
    players (fst (run (Part000.sa_reset gameId game results h) s')) = players s').
  { intros s' h. unfold Part000.sa_reset, Part000.sa_broadcast. cbn [run exec].
    destruct (declareWinner _ _); unfold Part000.sa_complete; cbn [run exec];
      split; reflexivity. }
  destruct (scoringPlayers results) as [|id ids] eqn:Hs.
  - destruct (Hreset s (determinePinkCowHolder (Game.pinkCowHolder game)
                          (uniqueAnswerPlayer results))) as [_ ->].
    apply Forall2_refl_on, scoreStep_refl.
  - cbn [run exec]. rewrite <- Hs.
    match goal with
    | |- context [run (Part000.sa_reset _ _ _ ?h) ?s'] =>
        destruct (Hreset s' h) as [-> ->]
    end.
    cbn [players withPlayers]. apply updateAll_Forall2; [apply scoreStep_refl|].
    intros p Hp. split; [reflexivity|]. right. split; [reflexivity|].
    eexists. split; [reflexivity|].
    apply existsb_exists in Hp. destruct Hp as (x & Hx & He).
    apply String.eqb_eq in He. rewrite He, <- Hs. exact Hx.
Qed.

Lemma scorersOf_skip e es :
  isRoundCompleted e = false -> scorersOf (e :: es) = scorersOf es.
Proof.
  destruct e as [? ?|? m|? ?]; try reflexivity. destruct m; try reflexivity; discriminate.
Qed.

Lemma part000_submit_scoreStep sock gameId answer s :
  Forall2 (scoreStep (scorersOf (snd (run (Part000.submit_answer sock gameId answer) s))))
    (players s) (players (fst (run (Part000.submit_answer sock gameId answer) s))).
Proof.
  unfold Part000.submit_answer. cbn [run exec].
  destruct (List.find _ _) as [g|]; cbn [option_map run fst snd players withGames];
    [|apply Forall2_refl_on, scoreStep_refl].
  unfold Part000.sa_player. cbn [run exec players withGames].
  destruct (List.find _ _) as [p|]; cbn [run fst snd players withGames];
    [|apply Forall2_refl_on, scoreStep_refl].
  unfold Part000.sa_round. cbn [run exec rounds withGames].
  destruct (List.find _ _) as [r|]; cbn [run fst snd players withGames];
    [|apply Forall2_refl_on, scoreStep_refl].
  unfold Part000.sa_save. cbn [run exec answers withGames].
  destruct (answerRejected _ _); cbn [run fst snd players withGames];
    [apply Forall2_refl_on, scoreStep_refl|].
  unfold Part000.sa_count. cbn [run exec].
  match goal with |- context [if ?b then _ else _] => destruct b end.
  - match goal with
    | |- context [run (Part000.sa_close ?a ?b ?c ?d) ?s'] =>
        pose proof (part000_sa_close_scoreStep a b c d s') as Hc;
        destruct (run (Part000.sa_close a b c d) s') as [s2 es]
    end.
    cbn [fst snd] in *. rewrite scorersOf_skip by reflexivity. exact Hc.
  - cbn [run fst snd players withAnswers withGames].
    apply Forall2_refl_on, scoreStep_refl.
Qed.

(** The loop of the other file adds one point per listed identifier, to
    the first document with that identifier. *)
Lemma incScores_players ids : forall k s,
  exists s', run (Part001.incScores ids k) s = run k s' /\
    players s' = fold_left (fun l id => updateFirst (playerHasId id) Player.incScore l)
                   ids (players s) /\
    games s' = games s /\ rounds s' = rounds s /\ answers s' = answers s.
Proof.
  induction ids as [|id ids IH]; intros k s; simpl.
  - exists s. auto.
  - destruct (IH k (withPlayers s (updateFirst (playerHasId id) Player.incScore (players s))))
      as (s' & Hrun & Hp & Hg & Hr & Ha).
    exists s'. auto.
Qed.

Lemma incScores_bumpedWithin ids : NoDup ids -> forall l,
  Forall2 (bumpedWithin ids) l
    (fold_left (fun l id => updateFirst (playerHasId id) Player.incScore l) ids l).
Proof.
  induction 1 as [|id ids Hid _ IH]; intros l; simpl.
  - apply Forall2_refl_on. intros x. split; auto.
  - specialize (IH (updateFirst (playerHasId id) Player.incScore l)).
    set (l1 := updateFirst (playerHasId id) Player.incScore l) in *.
    assert (H1 : Forall2 (fun p p1 => p1 = p \/ (p1 = Player.incScore p /\ Player._id p = id))
                   l l1).
    { subst l1. clear. induction l as [|x l IHl]; simpl; [constructor|].
      destruct (playerHasId id x) eqn:E; constructor; auto.
      - right. split; [reflexivity|]. now apply String.eqb_eq in E.
      - apply Forall2_refl_on. auto. }
    revert IH. generalize (fold_left
      (fun l id => updateFirst (playerHasId id) Player.incScore l) ids l1).
    clear -H1 Hid. induction H1 as [|p p1 l l1 Hp _ IHl]; intros l' H'.
    + inversion H'. constructor.
    + inversion H' as [|? p' ? l'' [Hi Hs] Ht]; subst. constructor; [|now apply IHl].
      destruct Hp as [->|[-> Hpid]].
      * split; [exact Hi|]. destruct Hs as [Hs|[Hs Hin]]; [left; exact Hs|].
        right. split; [exact Hs | now right].
      * cbn in Hi, Hs. split; [exact Hi|]. right.
        destruct Hs as [Hs|[_ Hin]].
        -- split; [exact Hs | now left].
        -- exfalso. apply Hid. apply list_elem_of_In. cbn in Hin. congruence.
Qed.

Lemma part001_sa_close_scoreStep sock gameId game round s :
  answersUnique s ->
  Forall2 (scoreStep (scorersOf (snd (run (Part001.sa_close sock gameId game round) s))))
    (players s) (players (fst (run (Part001.sa_close sock gameId game round) s))).
Proof.
  intros Hu. unfold Part001.sa_close. cbn [run exec].
  destruct (analyzeRoundAnswers _) as [results|] eqn:Hr; cbn [run exec fst snd].
  2:{ apply Forall2_refl_on, scoreStep_refl. }
  pose proof (scoringPlayers_NoDup _ _ _ Hu Hr) as Hnd.
  match goal with
  | |- context [run (Part001.incScores ?ids ?k) s] =>
      destruct (incScores_players ids k s) as (s' & -> & Hp & _)
  end.
  cbn [run exec].
  assert (Hev : forall w s2,
    scorersOf (snd (let '(s3, es) := run (match w with
        | Some _ => Await (Game_update (Game._id game) [Game.set_status Game.completed])
                      (fun _ => Done)
        | None => Done end) s2 in
      (s3, to_room (Game.roomCode game)
             (Msg.round_completed_with results
                (determinePinkCowHolder (Game.pinkCowHolder game) (uniqueAnswerPlayer results))
                (List.filter (playerInGame gameId) (players s2)) w) :: es))) =
      Some (scoringPlayers results) /\
    players (fst (let '(s3, es) := run (match w with
        | Some _ => Await (Game_update (Game._id game) [Game.set_status Game.completed])
                      (fun _ => Done)
        | None => Done end) s2 in
      (s3, to_room (Game.roomCode game)
             (Msg.round_completed_with results
                (determinePinkCowHolder (Game.pinkCowHolder game) (uniqueAnswerPlayer results))
                (List.filter (playerInGame gameId) (players s2)) w) :: es))) = players s2).
  { intros [w|] s2; cbn [run exec]; split; reflexivity. }
  match goal with
  | |- context [findWinner ?a ?b] => generalize (findWinner a b); intros w
  end.
  match goal with
  | |- Forall2 (scoreStep (scorersOf (snd ?X))) _ (players (fst ?X)) =>
      match X with
      | context [run _ ?s2] => destruct (Hev w s2) as [He Hpl]
      end
  end.
  cbn [players withGames withRounds] in *.
  rewrite He, Hpl. cbn [players withGames withRounds]. rewrite Hp.
  eapply Forall2_impl; [apply incScores_bumpedWithin, Hnd|].
  intros p p' [Hi Hs]. split; [exact Hi|].
  destruct Hs as [Hs|[Hs Hin]]; [left; exact Hs|].
  right. split; [exact Hs|]. eexists. split; [reflexivity | exact Hin].
Qed.

Lemma part001_submit_scoreStep sock gameId answer s :
  answersUnique s ->
  Forall2 (scoreStep (scorersOf (snd (run (Part001.submit_answer sock gameId answer) s))))
    (players s) (players (fst (run (Part001.submit_answer sock gameId answer) s))).
Proof.
  intros Hu. unfold Part001.submit_answer. cbn [run exec].
  destruct (List.find _ _) as [g|]; cbn [run fst snd];
    [|apply Forall2_refl_on, scoreStep_refl].
  destruct (negb _); cbn [run exec fst snd];
    [apply Forall2_refl_on, scoreStep_refl|].
  destruct (List.find _ _) as [p|]; cbn [run exec fst snd];
    [|apply Forall2_refl_on, scoreStep_refl].
  destruct (List.find _ _) as [r|]; cbn [run exec fst snd];
    [|apply Forall2_refl_on, scoreStep_refl].
  destruct (answerRejected _ _) eqn:Ea; cbn [run exec fst snd];
    [apply Forall2_refl_on, scoreStep_refl|].
  match goal with |- context [if ?b then _ else _] => destruct b end.
  - match goal with
    | |- context [run (Part001.sa_close ?a ?b ?c ?d) ?s'] =>
        assert (Hu' : answersUnique s');
        [| pose proof (part001_sa_close_scoreStep a b c d s' Hu') as Hc;
           destruct (run (Part001.sa_close a b c d) s') as [s2 es] ]
    end.
    { pose proof (exec_answersUnique
        (Answer_create (answerDoc gameId answer p r)) s Hu) as H.
      cbn [exec] in H. unfold answerDoc in H. rewrite Ea in H. exact H. }
    cbn [fst snd] in *. rewrite scorersOf_skip by reflexivity. exact Hc.
  - cbn [run fst snd players withAnswers withGames].
    apply Forall2_refl_on, scoreStep_refl.
Qed.
Lemma sameOrHigher_trans a b c : sameOrHigher a b -> sameOrHigher b c -> sameOrHigher a c.
Proof. unfold sameOrHigher. intros [H1 H2] [H3 H4]. split; [congruence | lia]. Qed.

Lemma Forall2_compose {A} (R : A -> A -> Prop) :
  (forall a b c, R a b -> R b c -> R a c) ->
  forall l1 l2 l3, Forall2 R l1 l2 -> Forall2 R l2 l3 -> Forall2 R l1 l3.
Proof.
  intros Ht l1 l2 l3 H12. revert l3.
  induction H12 as [|a b l1 l2 Hab _ IH]; intros l3 H23; inversion H23; subst;
    constructor; eauto.
Qed.

Lemma request_submit_dec req : isSubmitAnswer req \/ ~ isSubmitAnswer req.
Proof.
  destruct req; try (right; intros (g & a & H); discriminate).
  left. eexists _, _. reflexivity.
Qed.

(** One request. *)
Lemma serve_scoreStep v cat s c :
  answersUnique s ->
  exists kept new,
    players (fst (run (handler v cat c) s)) = kept ++ new /\
    Forall2 (scoreStep (scorersOf (snd (run (handler v cat c) s)))) (players s) kept /\
    Forall (fun p => Player.score p = 0) new /\
    (scorersOf (snd (run (handler v cat c) s)) <> None -> isSubmitAnswer (request c)).
Proof.
  intros Hu. destruct (request_submit_dec (request c)) as [Hs|Hn].
  - destruct c as [sock req f]. cbn [request] in Hs.
    destruct Hs as (gameId & answer & ->).
    eexists _, []. rewrite app_nil_r. split; [reflexivity|].
    split; [|split; [constructor | intros _; eexists _, _; reflexivity]].
    destruct v; cbn [handler Part000.handle Part001.handle socket request fresh].
    + apply part000_submit_scoreStep.
    + now apply part001_submit_scoreStep.
  - destruct (quiet_run _ (handler_quiet v cat c Hn) s) as [(kept & new & He & Hk & Hz) Hq].
    exists kept, new. rewrite Hq. repeat split; try assumption; [|congruence].
    eapply Forall2_impl; [exact Hk|]. intros p p' [Hi Hsc]. split; auto.
Qed.

Lemma growsOnly_refl l : growsOnly l l.
Proof.
  exists l, []. rewrite app_nil_r. split; [reflexivity|].
  apply Forall2_refl_on. intros p. split; auto.
Qed.

Lemma growsOnly_trans a b c : growsOnly a b -> growsOnly b c -> growsOnly a c.
Proof.
  intros (k1 & n1 & -> & F1) (k2 & n2 & -> & F2).
  apply Forall2_app_inv_l in F2. destruct F2 as (ka & kb & Fa & _ & ->).
  exists ka, (kb ++ n2). rewrite <- app_assoc. split; [reflexivity|].
  eapply (Forall2_compose _ sameOrHigher_trans); eassumption.
Qed.

Lemma scoreStep_growsOnly scorers l kept new :
  Forall2 (scoreStep scorers) l kept -> growsOnly l (kept ++ new).
Proof.
  intros F. exists kept, new. split; [reflexivity|].
  eapply Forall2_impl; [exact F|].
  intros p p' [Hi Hs]. split; [exact Hi|]. destruct Hs as [->|[-> _]]; lia.
Qed.

(** Every single operation keeps the players and takes no point away. *)
Lemma exec_growsOnly {R} (q : Query R) s :
  growsOnly (players s) (players (fst (exec q s))).
Proof.
  destruct (writesScore q) eqn:E.
  - destruct q; try discriminate; cbn [exec fst players withPlayers].
    + eexists _, []. rewrite app_nil_r. split; [reflexivity|].
      apply updateAll_Forall2; [split; auto|]. intros p _. split; [reflexivity|]. cbn. lia.
    + eexists _, []. rewrite app_nil_r. split; [reflexivity|].
      apply updateFirst_Forall2; [split; auto|]. intros p. split; [reflexivity|]. cbn. lia.
  - destruct (exec_keepsScores q s E) as (kept & new & -> & F & _).
    exists kept, new. split; [reflexivity|].
    eapply Forall2_impl; [exact F|]. intros p p' [Hi Hs]. split; [exact Hi | lia].
Qed.

Lemma resume_growsOnly p s :
  growsOnly (players s) (players (fst (fst (resume p s)))).
Proof.
  destruct p as [|e k|R q k]; cbn [resume].
  - apply growsOnly_refl.
  - destruct (settle (Emit e k)). apply growsOnly_refl.
  - pose proof (exec_growsOnly q s) as H. destruct (exec q s) as [s' r].
    destruct (settle (k r)). exact H.
Qed.

Lemma interleave_growsOnly schedule : forall w,
  growsOnly (players (store w)) (players (store (interleave w schedule))).
Proof.
  induction schedule as [|i schedule IH]; intros w; cbn [interleave fold_left].
  - apply growsOnly_refl.
  - eapply growsOnly_trans; [|apply IH].
    unfold turn. destruct (pool w !! i) as [p|]; [|apply growsOnly_refl].
    pose proof (resume_growsOnly p (store w)) as H.
    destruct (resume p (store w)) as [[s' es] p']. exact H.
Qed.

(** C10. Starting from a store that respects the unique index of the
    answers, with either server file: one request leaves every existing
    player's score as it is or adds exactly one, the latter only to players
    listed as scoring in the round result which that [submit_answer]
    broadcast; players created by the request have score 0; over any
    sequence of requests no score ever goes down; and neither does it when
    handlers, whichever they are, run interleaved. Scores are natural
    numbers throughout. *)
Theorem scores_start_at_zero_and_only_grow (v : Server) (cat : list string) (s : Store) :
  answersUnique s ->
  (forall c, exists kept new,
      players (fst (run (handler v cat c) s)) = kept ++ new /\
      Forall2 (scoreStep (scorersOf (snd (run (handler v cat c) s)))) (players s) kept /\
      Forall (fun p => Player.score p = 0) new /\
      (scorersOf (snd (run (handler v cat c) s)) <> None -> isSubmitAnswer (request c))) /\
  (forall cs, growsOnly (players s) (players (serveAll v cat s cs))) /\
  (forall handlers schedule,
      growsOnly (players s)
        (players (store (interleave (mkWorld s handlers []) schedule)))).
Proof.
  intros Hu. split; [intros c; now apply serve_scoreStep|]. split.
  - intros cs. revert s Hu. induction cs as [|c cs IH]; intros s Hu.
    + apply growsOnly_refl.
    + cbn [serveAll fold_left].
      destruct (serve_scoreStep v cat s c Hu) as (k1 & n1 & H1 & F1 & _ & _).
      eapply growsOnly_trans; [|apply (IH _ (serve_answersUnique v cat s c Hu))].
      unfold serve. rewrite H1. eapply scoreStep_growsOnly, F1.
  - intros handlers schedule. apply (interleave_growsOnly schedule (mkWorld s handlers [])).
Qed.

Lemma scores_start_at_zero_and_only_grow_witness :
  let s := serveAll ReadThenSave catalog emptyStore twoPlayersStarted in
  growsOnly (players s)
    (players (serveAll ReadThenSave catalog s (agreeingRound "a" ++ advance "n2"))).
Proof.
  intros s.
  refine (proj1 (proj2 (scores_start_at_zero_and_only_grow ReadThenSave catalog s _))
            (agreeingRound "a" ++ advance "n2")).
  unfold answersUnique. vm_compute. constructor.
Defined.
(** ** A submission that fails after the increment *)

(** C4 at failing inputs, in the file that increments with
    [findOneAndUpdate]. A socket that is no player of the room, and a
    player who has answered already, both leave the counter one higher and
    no answer stored; after the stranger's submission alice's single
    answer closes the round of two players. *)
Theorem submit_answer_counts_what_it_does_not_store :
  let s := serveAll AtomicIncrement catalog emptyStore twoPlayersStarted in
  let stranger := serve AtomicIncrement catalog s
                    (call "sX" (Req.submit_answer "g1" "dog") "x") in
  let once := serve AtomicIncrement catalog s
                (call "sA" (Req.submit_answer "g1" "dog") "y") in
  let twice := serve AtomicIncrement catalog once
                 (call "sA" (Req.submit_answer "g1" "cat") "z") in
  (counterOf s "g1" = Some 0 /\ answers s = []) /\
  (counterOf stranger "g1" = Some 1 /\ answers stranger = []) /\
  (counterOf once "g1" = Some 1 /\ length (answers once) = 1) /\
  (counterOf twice "g1" = Some 2 /\ answers twice = answers once) /\
  roundClosings (snd (run (Part000.submit_answer "sA" "g1" "dog") stranger)) = 1.
Proof. vm_compute. repeat split. Qed.

(** The file that reads, adds one and saves stores the answer first: the
    same two submissions leave its counter alone. *)
Example submit_answer_read_then_save_counts_stored_answers :
  let s := serveAll ReadThenSave catalog emptyStore twoPlayersStarted in
  let stranger := serve ReadThenSave catalog s
                    (call "sX" (Req.submit_answer "g1" "dog") "x") in
  let once := serve ReadThenSave catalog s
                (call "sA" (Req.submit_answer "g1" "dog") "y") in
  let twice := serve ReadThenSave catalog once
                 (call "sA" (Req.submit_answer "g1" "cat") "z") in
  counterOf stranger "g1" = Some 0 /\
  counterOf once "g1" = Some 1 /\
  counterOf twice "g1" = Some 1.
Proof. vm_compute. repeat split. Qed.

(** ** The lifecycle of a room *)

(** C5 at a failing input. After eight rounds the game is completed; the
    host's [start_game] puts it back to in-progress, at round 1 (in both
    files, whose [start_game] is the same). *)
Theorem start_game_reopens_completed_game :
  let ended0 := serveAll AtomicIncrement catalog emptyStore playedToTheEnd in
  let ended1 := serveAll ReadThenSave catalog emptyStore playedToTheEnd in
  let again := call "sA" (Req.start_game "g1") "again" in
  statusOf ended0 "g1" = Some Game.completed /\
  statusOf (serve AtomicIncrement catalog ended0 again) "g1" = Some Game.in_progress /\
  statusOf ended1 "g1" = Some Game.completed /\
  statusOf (serve ReadThenSave catalog ended1 again) "g1" = Some Game.in_progress /\
  option_map Game.currentRound (findGame (serve AtomicIncrement catalog ended0 again) "g1")
    = Some 1.
Proof. vm_compute. repeat split. Qed.

(** The sibling handlers test the status first: on a completed game
    [next_round] and [submit_answer] change nothing. *)
Example next_round_and_submit_answer_guard_the_status :
  let ended := serveAll AtomicIncrement catalog emptyStore playedToTheEnd in
  serve AtomicIncrement catalog ended (call "sA" (Req.next_round "g1") "n9") = ended /\
  serve AtomicIncrement catalog ended (call "sA" (Req.submit_answer "g1" "dog") "i") = ended.
Proof. vm_compute. split; reflexivity. Qed.
(** Apart from [start_game], no request takes a game back. *)

Lemma lifecycleForward_refl l : lifecycleForward l l.
Proof.
  exists l, []. rewrite app_nil_r. split; [reflexivity|].
  apply Forall2_refl_on. auto.
Qed.

Lemma lifecycleForward_trans a b c :
  lifecycleForward a b -> lifecycleForward b c -> lifecycleForward a c.
Proof.
  intros (k1 & n1 & -> & F1) (k2 & n2 & -> & F2).
  apply Forall2_app_inv_l in F2. destruct F2 as (k2a & k2b & Fa & _ & ->).
  exists k2a, (k2b ++ n2). rewrite <- app_assoc. split; [reflexivity|].
  eapply Forall2_compose; [|exact F1|exact Fa].
  intros x y z [H1 H2] [H3 H4]. split; [congruence | lia].
Qed.

Lemma applyAll_keepsLifecycle us : forall g,
  forallb (fun u => match u with
                    | Game.set_status s => Game.status_eqb s Game.completed
                    | _ => true
                    end) us = true ->
  Game._id (Game.applyAll g us) = Game._id g /\
  Game.rank (Game.status g) <= Game.rank (Game.status (Game.applyAll g us)).
Proof.
  unfold Game.applyAll. induction us as [|u us IH]; intros g H; simpl in *; [auto|].
  apply andb_true_iff in H. destruct H as [Hu Hus].
  destruct (IH (Game.apply g u) Hus) as [Hi Hr]. rewrite Hi. split.
  - destruct u; reflexivity.
  - etransitivity; [|exact Hr]. destruct u; cbn; try lia.
    destruct s; try discriminate. destruct (Game.status g); cbn; lia.
Qed.

Lemma exec_lifecycleForward {R} (q : Query R) s :
  keepsLifecycle q = true -> lifecycleForward (games s) (games (fst (exec q s))).
Proof.
  destruct q; cbn [exec keepsLifecycle]; intros Hq;
    try apply lifecycleForward_refl;
    try (match goal with |- context [if ?b then _ else _] => destruct b end;
         try apply lifecycleForward_refl).
  - cbn. eexists _, [_]. split; [reflexivity|]. apply Forall2_refl_on. auto.
  - cbn. eexists _, []. rewrite app_nil_r. split; [reflexivity|].
    apply updateFirst_Forall2; [auto|]. intros g. now apply applyAll_keepsLifecycle.
  - cbn. eexists _, []. rewrite app_nil_r. split; [reflexivity|].
    apply updateFirst_Forall2; auto.
Qed.

Lemma forward_run p : Forward p -> forall s,
  lifecycleForward (games s) (games (fst (run p s))).
Proof.
  induction 1 as [|e k Hk IH|R q k Hq Hk IH]; intros s; cbn [run].
  - apply lifecycleForward_refl.
  - specialize (IH s). destruct (run k s). exact IH.
  - pose proof (exec_lifecycleForward q s Hq) as H1.
    destruct (exec q s) as [s1 r]. cbn [fst] in H1.
    eapply lifecycleForward_trans; [exact H1 | apply IH].
Qed.

Ltac forward :=
  repeat first
    [ apply Forward_Done
    | apply Forward_Emit
    | apply Forward_Await; [reflexivity | intros ?]
    | match goal with
      | |- Forward (match ?x with _ => _ end) => destruct x
      end
    | progress cbv zeta
    | progress unfold Common.fail ].

Lemma generateRoomCode_forward candidates k :
  (forall c, Forward (k c)) -> Forward (Common.generateRoomCode candidates k).
Proof.
  intros Hk. induction candidates as [|c more IH]; simpl; [constructor|].
  apply Forward_Await; [reflexivity|]. intros [g|]; [exact IH | apply Hk].
Qed.

Lemma incScores_forward ids k : Forward k -> Forward (Part001.incScores ids k).
Proof.
  intros Hk. induction ids as [|id ids IH]; simpl; [exact Hk|].
  apply Forward_Await; [reflexivity|]. intros _. exact IH.
Qed.

Lemma handler_forward v cat c :
  ~ isStartGame (request c) -> Forward (handler v cat c).
Proof.
  intros Hn. destruct c as [sock req f]. cbn [request] in Hn.
  destruct v, req; cbn [handler Part000.handle Part001.handle socket request fresh];
    try (exfalso; apply Hn; eexists; reflexivity);
    try (apply generateRoomCode_forward; intros ?);
    try unfold Part000.create_game, Part001.create_game, Common.join_game,
      Common.next_round, Common.remove_player, Common.disconnect,
      Part000.reconnect_game, Part000.submit_answer, Part000.sa_player,
      Part000.sa_round, Part000.sa_save, Part000.sa_count, Part000.sa_close,
      Part000.sa_reset, Part000.sa_broadcast, Part000.sa_complete,
      Part001.submit_answer, Part001.sa_close;
    try (apply generateRoomCode_forward; intros ?);
    forward;
    try (apply incScores_forward; forward).
Qed.

(** X20. Every request other than [start_game], in either file, leaves each
    game where it is in the lifecycle or moves it forward. *)
Lemma lifecycle_forward_except_start_game v cat s c :
  ~ isStartGame (request c) ->
  lifecycleForward (games s) (games (serve v cat s c)).
Proof. intros Hn. apply forward_run, handler_forward, Hn. Qed.
(** ** Concurrent submissions *)

Section ListFacts.
Context {A : Type}.
Implicit Types (l : list A) (P : A -> bool).

Lemma filter_length_insert P l i x y :
  l !! i = Some x ->
  length (List.filter P (<[i:=y]> l)) + (if P x then 1 else 0) =
  length (List.filter P l) + (if P y then 1 else 0).
Proof.
  revert i. induction l as [|a l IH]; intros [|i] H; simpl in *; try discriminate.
  - injection H as ->. destruct (P x), (P y); simpl; lia.
  - specialize (IH i H). destruct (P a); simpl; lia.
Qed.

Lemma filter_length_le P l : length (List.filter P l) <= length l.
Proof. induction l as [|a l IH]; simpl; [lia|]. destruct (P a); simpl; lia. Qed.

Lemma filter_length_lt P l i x :
  l !! i = Some x -> P x = false -> length (List.filter P l) < length l.
Proof.
  revert i. induction l as [|a l IH]; intros [|i] H Hx; simpl in *; try discriminate.
  - injection H as ->. rewrite Hx. pose proof (filter_length_le P l). lia.
  - specialize (IH i H Hx). destruct (P a); simpl; lia.
Qed.

Lemma filter_length_full P l :
  (forall i x, l !! i = Some x -> P x = true) -> length (List.filter P l) = length l.
Proof.
  induction l as [|a l IH]; intros H; simpl; [reflexivity|].
  rewrite (H 0 a eq_refl). simpl. f_equal. apply IH.
  intros i x Hi. apply (H (S i) x Hi).
Qed.

Lemma filter_length_unique P l i x :
  l !! i = Some x -> P x = true ->
  (forall j y, l !! j = Some y -> P y = true -> j = i) ->
  length (List.filter P l) = 1.
Proof.
  revert i. induction l as [|a l IH]; intros [|i] H Hx Hu; simpl in *; try discriminate.
  - injection H as ->. rewrite Hx. simpl. f_equal.
    assert (Hn : forall j y, l !! j = Some y -> P y = false).
    { intros j y Hj. destruct (P y) eqn:E; [|reflexivity].
      specialize (Hu (S j) y Hj E). discriminate. }
    clear -Hn. induction l as [|b l IH]; simpl; [reflexivity|].
    rewrite (Hn 0 b eq_refl). apply IH. intros j y Hj. apply (Hn (S j) y Hj).
  - destruct (P a) eqn:E.
    + specialize (Hu 0 a eq_refl E). discriminate.
    + apply (IH i H Hx). intros j y Hj Hy.
      specialize (Hu (S j) y Hj Hy). now injection Hu.
Qed.

Lemma existsb_lookup P l :
  existsb P l = true -> exists i x, l !! i = Some x /\ P x = true.
Proof.
  induction l as [|a l IH]; simpl; [discriminate|].
  destruct (P a) eqn:E; simpl.
  - intros _. exists 0, a. auto.
  - intros H. destruct (IH H) as (i & x & Hi & Hx). exists (S i), x. auto.
Qed.

Lemma lookup_existsb P l i x : l !! i = Some x -> P x = true -> existsb P l = true.
Proof.
  intros Hi Hx. apply existsb_exists. exists x. split; [|exact Hx].
  apply list_elem_of_In. eapply list_elem_of_lookup_2. exact Hi.
Qed.

Lemma existsb_insert_same P l i x y :
  l !! i = Some x -> P y = P x -> existsb P (<[i:=y]> l) = existsb P l.
Proof.
  revert i. induction l as [|a l IH]; intros [|i] H Hy; simpl in *; try discriminate.
  - injection H as ->. now rewrite Hy.
  - now rewrite (IH i H Hy).
Qed.

Lemma lookup_insert_cases l i j y z :
  <[i:=y]> l !! j = Some z ->
  (j = i /\ z = y) \/ (j <> i /\ l !! j = Some z).
Proof.
  intros H. destruct (decide (i = j)) as [->|Hne].
  - left. split; [reflexivity|].
    assert (Hlt : j < length l).
    { apply lookup_lt_Some in H. now rewrite length_insert in H. }
    rewrite list_lookup_insert_eq in H by exact Hlt. congruence.
  - right. rewrite list_lookup_insert_ne in H by exact Hne. auto.
Qed.
End ListFacts.

(** *** The store while only [submit_answer] handlers run *)

Lemma updateFirst_find {A} (p : A -> bool) f l x :
  List.find p l = Some x -> p (f x) = true ->
  List.find p (updateFirst p f l) = Some (f x).
Proof.
  induction l as [|a l IH]; simpl; [discriminate|].
  destruct (p a) eqn:E.
  - intros H Hf. injection H as ->. simpl. now rewrite Hf.
  - intros H Hf. simpl. rewrite E. now apply IH.
Qed.

Lemma updateFirst_gameInProgress gameId f l g' :
  List.find (gameHasId gameId) l = Some g' ->
  Game.status g' = Game.in_progress ->
  updateFirst (gameInProgress gameId) f l = updateFirst (gameHasId gameId) f l.
Proof.
  induction l as [|a l IH]; simpl; [discriminate|].
  unfold gameInProgress at 1. destruct (gameHasId gameId a) eqn:E; simpl.
  - intros H Hs. injection H as ->. now rewrite Hs.
  - intros H Hs. f_equal. now apply IH.
Qed.

Lemma findGame_update s gameId g' f :
  findGame s gameId = Some g' ->
  Game._id (f g') = Game._id g' ->
  findGame (withGames s (updateFirst (gameHasId gameId) f (games s))) gameId = Some (f g').
Proof.
  unfold findGame. intros H Hid. cbn [games withGames].
  apply updateFirst_find; [exact H|].
  apply find_some in H. destruct H as [_ H]. unfold gameHasId in *. now rewrite Hid.
Qed.

Lemma cons_eq {A} (x y : A) l l' : x :: l = y :: l' -> x = y /\ l = l'.
Proof. intros H. injection H as -> ->. auto. Qed.

Lemma stripScore_find_socket gameId sock l l0 p :
  map stripScore l = map stripScore l0 ->
  List.find (playerOnSocket gameId sock) l0 = Some p ->
  exists pl, List.find (playerOnSocket gameId sock) l = Some pl /\
             Player._id pl = Player._id p /\ Player.username pl = Player.username p.
Proof.
  revert l0. induction l as [|a l IH]; intros [|b l0] H; cbn [map List.find] in *;
    try discriminate.
  apply cons_eq in H. destruct H as [Hab Hl].
  assert (Hsame : playerOnSocket gameId sock a = playerOnSocket gameId sock b).
  { unfold playerOnSocket, playerInGame.
    assert (Hg : Player.gameId a = Player.gameId b)
      by (apply (f_equal Player.gameId) in Hab; exact Hab).
    assert (Hk : Player.socketId a = Player.socketId b)
      by (apply (f_equal Player.socketId) in Hab; exact Hab).
    now rewrite Hg, Hk. }
  rewrite Hsame. destruct (playerOnSocket gameId sock b).
  - intros Hp. injection Hp as <-. exists a. split; [reflexivity|]. split.
    + apply (f_equal Player._id) in Hab. exact Hab.
    + apply (f_equal Player.username) in Hab. exact Hab.
  - now apply IH.
Qed.

Lemma stripScore_count_connected gameId l l0 :
  map stripScore l = map stripScore l0 ->
  length (List.filter (playerConnected gameId) l) =
  length (List.filter (playerConnected gameId) l0).
Proof.
  revert l0. induction l as [|a l IH]; intros [|b l0] H; cbn [map List.filter] in *;
    try discriminate; [reflexivity|].
  apply cons_eq in H. destruct H as [Hab Hl].
  assert (Hsame : playerConnected gameId a = playerConnected gameId b).
  { unfold playerConnected, playerInGame.
    assert (Hg : Player.gameId a = Player.gameId b)
      by (apply (f_equal Player.gameId) in Hab; exact Hab).
    assert (Hk : Player.isConnected a = Player.isConnected b)
      by (apply (f_equal Player.isConnected) in Hab; exact Hab).
    now rewrite Hg, Hk. }
  rewrite Hsame. destruct (playerConnected gameId b); simpl; rewrite (IH _ Hl); reflexivity.
Qed.

Lemma stripScore_updateAll p l :
  map stripScore (updateAll p Player.incScore l) = map stripScore l.
Proof.
  unfold updateAll. induction l as [|a l IH]; simpl; [reflexivity|].
  rewrite IH. destruct (p a); reflexivity.
Qed.

Lemma filter_app_nonempty {A} (f : A -> bool) l x :
  List.filter f l <> [] -> List.filter f (l ++ [x]) <> [].
Proof.
  rewrite List.filter_app. destruct (List.filter f l); [congruence|]. discriminate.
Qed.
Lemma roundClosings_app es es' :
  roundClosings (es ++ es') = roundClosings es + roundClosings es'.
Proof. unfold roundClosings. now rewrite List.filter_app, length_app. Qed.

Lemma pastReset_closing st : pastReset st = true -> closing st = true.
Proof. destruct st as [| | | | | | | | | |[] ?]; simpl; congruence. Qed.

Lemma pastReset_started st : pastReset st = true -> started st = true.
Proof. destruct st; simpl; congruence. Qed.

Lemma hasClosed_pastReset st : hasClosed st = true -> pastReset st = true.
Proof. destruct st as [| | | | | | | | | |[] ?]; simpl; congruence. Qed.

Section Interleaving.

Variable sc : Scene.
Hypothesis ready : Ready sc.

Local Abbreviation gid := (sceneGameId sc).
Local Abbreviation calls := (sceneCalls sc).
Local Abbreviation callers := (sceneCallers sc).
Local Abbreviation K := (length (sceneCalls sc)).

Lemma callers_length : length callers = K.
Proof. symmetry. eapply Forall2_length, ready_callers, ready. Qed.

Lemma caller_found i c p :
  calls !! i = Some c -> callers !! i = Some p ->
  findPlayerOnSocket (sceneStore sc) gid (fst c) = Some p /\
  answerRejected (answers (sceneStore sc)) (answerDoc gid (snd c) p (sceneRound sc)) = false.
Proof.
  intros Hc Hp. pose proof (ready_callers sc ready) as H.
  eapply Forall2_lookup_lr in H; eauto.
Qed.

Lemma callers_distinct i j p q :
  callers !! i = Some p -> callers !! j = Some q ->
  Player._id p = Player._id q -> i = j.
Proof.
  intros Hp Hq Heq. pose proof (ready_distinct sc ready) as Hnd.
  eapply NoDup_lookup; [exact Hnd | |].
  - rewrite list_lookup_fmap, Hp. reflexivity.
  - rewrite list_lookup_fmap, Hq. simpl. now rewrite Heq.
Qed.

Lemma lookups w sts i st :
  Inv sc w sts -> sts !! i = Some st ->
  exists c p, calls !! i = Some c /\ callers !! i = Some p /\
              pool w !! i = Some (stageProgram gid c st).
Proof.
  intros HI Hst. pose proof (lookup_lt_Some _ _ _ Hst) as Hlt.
  rewrite (inv_len _ _ _ HI) in Hlt.
  destruct (lookup_lt_is_Some_2 calls i Hlt) as [c Hc].
  destruct (lookup_lt_is_Some_2 callers i) as [p Hp]; [now rewrite callers_length|].
  exists c, p. repeat split; try assumption.
  rewrite (inv_pool _ _ _ HI). unfold poolOf.
  rewrite lookup_zip_with, Hc, Hst. reflexivity.
Qed.

(** No handler resets the counter while another has not started. *)
Lemma no_reset_before_all_started w sts i st :
  Inv sc w sts -> sts !! i = Some st -> started st = false ->
  existsb pastReset sts = false.
Proof.
  intros HI Hst Hns. destruct (existsb pastReset sts) eqn:E; [|reflexivity].
  exfalso. apply existsb_lookup in E. destruct E as (j & sj & Hj & Hpr).
  destruct (lookups w sts j sj HI Hj) as (c & p & Hc & Hp & _).
  destruct (inv_local _ _ _ HI j c p sj Hc Hp Hj) as (_ & _ & Hcl & _).
  specialize (Hcl (pastReset_closing _ Hpr)).
  pose proof (inv_pa_le _ _ _ HI j sj Hj) as Hle.
  pose proof (filter_length_lt started sts i st Hst Hns) as Hlt.
  rewrite (inv_len _ _ _ HI) in Hlt. lia.
Qed.

(** A handler that has started moves to its next stage. *)
Lemma inv_advance w sts i c p st st' s' es :
  Inv sc w sts ->
  calls !! i = Some c -> callers !! i = Some p -> sts !! i = Some st ->
  started st = true -> started st' = true -> paOf st' = paOf st ->
  GameKept sc s' (<[i:=st']> sts) ->
  (forall j c' p' sj, j <> i -> calls !! j = Some c' -> callers !! j = Some p' ->
     sts !! j = Some sj ->
     Local sc c' p' sj (answers (store w)) -> Local sc c' p' sj (answers s')) ->
  Local sc c p st' (answers s') ->
  map stripScore (players s') = map stripScore (players (store w)) ->
  rounds s' = rounds (store w) ->
  roundClosings es + (if hasClosed st then 1 else 0) = (if hasClosed st' then 1 else 0) ->
  Inv sc (mkWorld s' (<[i := stageProgram gid c st']> (pool w)) (sent w ++ es))
    (<[i:=st']> sts).
Proof.
  intros HI Hc Hp Hst Hs Hs' Hpa Hg Hothers Hloc Hpl Hrd Hev.
  assert (Hcount : length (List.filter started (<[i:=st']> sts)) =
                   length (List.filter started sts)).
  { pose proof (filter_length_insert started sts i st st' Hst) as H.
    rewrite Hs, Hs' in H. lia. }
  constructor; cbn [store pool sent].
  - rewrite (inv_pool _ _ _ HI). unfold poolOf.
    rewrite insert_zip_with. now rewrite (list_insert_id calls i c Hc).
  - rewrite length_insert. apply (inv_len _ _ _ HI).
  - exact Hg.
  - intros j sj Hj. rewrite Hcount.
    destruct (lookup_insert_cases _ _ _ _ _ Hj) as [[-> ->]|[Hne Hj']].
    + rewrite Hpa. apply (inv_pa_le _ _ _ HI i st Hst).
    + apply (inv_pa_le _ _ _ HI j sj Hj').
  - intros j k sj sk Hj Hk Hsj Hsk Heq.
    destruct (lookup_insert_cases _ _ _ _ _ Hj) as [[-> ->]|[Hnej Hj']];
      destruct (lookup_insert_cases _ _ _ _ _ Hk) as [[-> ->]|[Hnek Hk']].
    + reflexivity.
    + rewrite Hpa in Heq. apply (inv_pa_inj _ _ _ HI i k st sk); auto.
    + rewrite Hpa in Heq. apply (inv_pa_inj _ _ _ HI j i sj st); auto.
    + apply (inv_pa_inj _ _ _ HI j k sj sk); auto.
  - intros n Hn. rewrite Hcount in Hn.
    destruct (inv_pa_surj _ _ _ HI n Hn) as (j & sj & Hj & Hsj & Hpj).
    destruct (decide (j = i)) as [->|Hne].
    + exists i, st'. rewrite list_lookup_insert_eq
        by (apply lookup_lt_Some in Hst; exact Hst).
      rewrite Hst in Hj. injection Hj as <-. auto with lia.
    + exists j, sj. rewrite list_lookup_insert_ne by congruence. auto.
  - intros j c' p' sj Hcj Hpj Hj.
    destruct (lookup_insert_cases _ _ _ _ _ Hj) as [[-> ->]|[Hne Hj']].
    + rewrite Hc in Hcj. rewrite Hp in Hpj. injection Hcj as <-. injection Hpj as <-.
      exact Hloc.
    + apply (Hothers j c' p' sj Hne Hcj Hpj Hj').
      apply (inv_local _ _ _ HI j c' p' sj Hcj Hpj Hj').
  - rewrite Hpl. apply (inv_players _ _ _ HI).
  - rewrite Hrd. apply (inv_rounds _ _ _ HI).
  - rewrite roundClosings_app, (inv_sent _ _ _ HI).
    pose proof (filter_length_insert hasClosed sts i st st' Hst) as H. lia.
Qed.

Lemma gameKept_same s s' sts i st st' :
  GameKept sc s sts -> sts !! i = Some st ->
  games s' = games s -> started st' = started st -> pastReset st' = pastReset st ->
  GameKept sc s' (<[i:=st']> sts).
Proof.
  intros (g' & Hf & Hr & Hno & Hyes) Hst Hg Hs Hp.
  exists g'. unfold findGame in *. rewrite Hg.
  rewrite (existsb_insert_same pastReset sts i st st' Hst Hp).
  pose proof (filter_length_insert started sts i st st' Hst) as Hc. rewrite Hs in Hc.
  assert (Hcount : length (List.filter started (<[i:=st']> sts)) =
                   length (List.filter started sts)) by lia.
  rewrite Hcount. auto.
Qed.

(** *** One turn of a handler at each stage *)

Lemma resume_NotStarted c s g' :
  List.find (gameInProgress gid) (games s) = Some g' ->
  resume (stageProgram gid c NotStarted) s =
  (withGames s (updateFirst (gameInProgress gid) incPlayersAnswered (games s)), [],
   stageProgram gid c (AtPlayer (incPlayersAnswered g'))).
Proof.
  intros H. unfold stageProgram, Part000.submit_answer, resume. cbn [exec].
  rewrite H. reflexivity.
Qed.

Lemma resume_AtPlayer c game s pl :
  List.find (playerOnSocket gid (fst c)) (players s) = Some pl ->
  resume (stageProgram gid c (AtPlayer game)) s =
  (s, [], stageProgram gid c (AtRound game pl)).
Proof.
  intros H. unfold stageProgram, Part000.sa_player, resume. cbn [exec].
  rewrite H. reflexivity.
Qed.

Lemma resume_AtRound c game pl s rd :
  List.find (roundIs gid (Game.currentRound game)) (rounds s) = Some rd ->
  resume (stageProgram gid c (AtRound game pl)) s =
  (s, [], stageProgram gid c (AtSave game pl rd)).
Proof.
  intros H. unfold stageProgram, Part000.sa_round, resume. cbn [exec].
  rewrite H. reflexivity.
Qed.

Lemma resume_AtSave c game pl rd s :
  answerRejected (answers s) (answerDoc gid (snd c) pl rd) = false ->
  resume (stageProgram gid c (AtSave game pl rd)) s =
  (withAnswers s (answers s ++ [answerDoc gid (snd c) pl rd]), [],
   stageProgram gid c (AtCount game rd)).
Proof.
  intros H. unfold stageProgram, Part000.sa_save, resume. cbn [exec].
  fold (answerDoc gid (snd c) pl rd). rewrite H. reflexivity.
Qed.

Lemma resume_AtCount c game rd s :
  resume (stageProgram gid c (AtCount game rd)) s =
  (s, [to_room (Game.roomCode game)
         (Msg.player_answered (Game.playersAnswered game) (connectedCount s gid))],
   stageProgram gid c
     (if connectedCount s gid <=? Game.playersAnswered game
      then AtClose game rd else Stopped NotClosed (Game.playersAnswered game))).
Proof.
  unfold stageProgram, Part000.sa_count, resume, connectedCount. cbn [exec].
  destruct (_ <=? _); reflexivity.
Qed.

Lemma resume_AtClose c game rd s results :
  analyzeRoundAnswers (List.filter (answerInRound (Round._id rd)) (answers s))
    = Some results ->
  resume (stageProgram gid c (AtClose game rd)) s =
  (s, [],
   stageProgram gid c
     (let holder := determinePinkCowHolder (Game.pinkCowHolder game)
                      (uniqueAnswerPlayer results) in
      match scoringPlayers results with
      | [] => AtReset game results holder
      | _ :: _ => AtInc game results holder
      end)).
Proof.
  intros H. unfold stageProgram, Part000.sa_close, resume. cbn [exec].
  rewrite H. cbv zeta.
  destruct (scoringPlayers results) eqn:E; [reflexivity|]. rewrite <- E. reflexivity.
Qed.

Lemma resume_AtInc c game results holder s :
  resume (stageProgram gid c (AtInc game results holder)) s =
  (withPlayers s
     (updateAll (fun p => existsb (String.eqb (Player._id p)) (scoringPlayers results))
        Player.incScore (players s)), [],
   stageProgram gid c (AtReset game results holder)).
Proof. reflexivity. Qed.

Lemma resume_AtReset c game results holder s :
  resume (stageProgram gid c (AtReset game results holder)) s =
  (withGames s
     (updateFirst (gameHasId gid)
        (fun g => Game.applyAll g [Game.set_pinkCowHolder holder; Game.set_playersAnswered 0])
        (games s)), [],
   stageProgram gid c (AtBroadcast game results holder)).
Proof. reflexivity. Qed.

Lemma resume_AtBroadcast c game results holder s :
  resume (stageProgram gid c (AtBroadcast game results holder)) s =
  (s, [to_room (Game.roomCode game)
         (Msg.round_completed results holder (List.filter (playerInGame gid) (players s)))],
   stageProgram gid c
     match declareWinner (List.filter (playerInGame gid) (players s)) holder with
     | Some winner => AtComplete game winner
     | None => Stopped Closed (Game.playersAnswered game)
     end).
Proof.
  unfold stageProgram, Part000.sa_broadcast, resume. cbn [exec].
  destruct (declareWinner _ _); reflexivity.
Qed.

Lemma resume_AtComplete c game winner s :
  resume (stageProgram gid c (AtComplete game winner)) s =
  (withGames s
     (updateFirst (gameHasId gid)
        (fun g => Game.applyAll g [Game.set_status Game.completed]) (games s)),
   [to_room (Game.roomCode game) (Msg.game_completed winner)],
   stageProgram gid c (Stopped Closed (Game.playersAnswered game))).
Proof. reflexivity. Qed.

Ltac take_turn HI Hst c p Hc Hp :=
  let Hpool := fresh "Hpool" in
  destruct (lookups _ _ _ _ HI Hst) as (c & p & Hc & Hp & Hpool);
  unfold turn; rewrite Hpool; clear Hpool.

Lemma step_NotStarted w sts i :
  Inv sc w sts -> sts !! i = Some NotStarted -> exists st', Inv sc (turn w i) (<[i:=st']> sts) /\
    Nat.min 10 (S (rank NotStarted)) <= rank st'.
Proof.
  intros HI Hst. take_turn HI Hst c p Hc Hp.
  pose proof (no_reset_before_all_started w sts i _ HI Hst eq_refl) as Hnr.
  destruct (inv_game _ _ _ HI) as (g' & Hf & Hcr & Hno & _).
  destruct (Hno Hnr) as [Hcnt Hstat].
  rewrite (resume_NotStarted c (store w) g') by (now apply find_gameInProgress).
  cbv beta iota.
  set (st' := AtPlayer (incPlayersAnswered g')).
  exists st'. split; [|unfold st'; cbn; lia].
  assert (Hcount : length (List.filter started (<[i:=st']> sts)) =
                   S (length (List.filter started sts))).
  { pose proof (filter_length_insert started sts i _ st' Hst) as H. simpl in H. lia. }
  assert (Hpa : paOf st' = S (length (List.filter started sts))).
  { unfold st'. cbn. rewrite Hcnt. lia. }
  constructor; cbn [store pool sent].
  - rewrite (inv_pool _ _ _ HI). unfold poolOf.
    rewrite insert_zip_with. now rewrite (list_insert_id calls i c Hc).
  - rewrite length_insert. apply (inv_len _ _ _ HI).
  - exists (incPlayersAnswered g'). repeat split.
    + rewrite (updateFirst_gameInProgress gid _ _ g' Hf Hstat).
      now apply findGame_update.
    + exact Hcr.
    + rewrite Hcount. cbn. rewrite Hcnt. lia.
    + exact Hstat.
    + rewrite (existsb_insert_same pastReset sts i _ st' Hst eq_refl), Hnr. discriminate.
  - intros j sj Hj. rewrite Hcount.
    destruct (lookup_insert_cases _ _ _ _ _ Hj) as [[-> ->]|[Hne Hj']].
    + rewrite Hpa. lia.
    + pose proof (inv_pa_le _ _ _ HI j sj Hj'). lia.
  - intros j k sj sk Hj Hk Hsj Hsk Heq.
    destruct (lookup_insert_cases _ _ _ _ _ Hj) as [[-> ->]|[Hnej Hj']];
      destruct (lookup_insert_cases _ _ _ _ _ Hk) as [[-> ->]|[Hnek Hk']].
    + reflexivity.
    + pose proof (inv_pa_le _ _ _ HI k sk Hk'). lia.
    + pose proof (inv_pa_le _ _ _ HI j sj Hj'). lia.
    + apply (inv_pa_inj _ _ _ HI j k sj sk); auto.
  - intros n Hn. rewrite Hcount in Hn.
    destruct (decide (n = S (length (List.filter started sts)))) as [->|Hne].
    + exists i, st'. rewrite list_lookup_insert_eq
        by (apply lookup_lt_Some in Hst; exact Hst). auto.
    + destruct (inv_pa_surj _ _ _ HI n) as (j & sj & Hj & Hsj & Hpj); [lia|].
      exists j, sj. rewrite list_lookup_insert_ne; [auto|].
      intros ->. rewrite Hst in Hj. injection Hj as <-. discriminate.
  - intros j c' p' sj Hcj Hpj Hj.
    destruct (lookup_insert_cases _ _ _ _ _ Hj) as [[-> ->]|[Hne Hj']].
    + destruct (inv_local _ _ _ HI i c' p' _ Hcj Hpj Hst) as (Hu & _).
      unfold Local, st'. cbn [saved closing withGames answers].
      repeat split; try discriminate; [exact Hu | exact Hcr].
    + apply (inv_local _ _ _ HI j c' p' sj Hcj Hpj Hj').
  - apply (inv_players _ _ _ HI).
  - apply (inv_rounds _ _ _ HI).
  - rewrite roundClosings_app, (inv_sent _ _ _ HI).
    pose proof (filter_length_insert hasClosed sts i _ st' Hst) as H.
    cbn in H. cbn. lia.
Qed.

Lemma step_AtPlayer w sts i game :
  Inv sc w sts -> sts !! i = Some (AtPlayer game) -> exists st', Inv sc (turn w i) (<[i:=st']> sts) /\
    Nat.min 10 (S (rank (AtPlayer game))) <= rank st'.
Proof.
  intros HI Hst. take_turn HI Hst c p Hc Hp.
  destruct (caller_found i c p Hc Hp) as [Hfound _].
  destruct (stripScore_find_socket gid (fst c) _ _ p (inv_players _ _ _ HI) Hfound)
    as (pl & Hpl & Hid & Hun).
  rewrite (resume_AtPlayer c game (store w) pl Hpl). cbv beta iota.
  exists (AtRound game pl). split; [|cbn; lia].
  destruct (inv_local _ _ _ HI i c p _ Hc Hp Hst) as (Hu & _ & _ & Hsnap).
  eapply inv_advance; eauto.
  - eapply gameKept_same; eauto. apply (inv_game _ _ _ HI).
  - repeat split; try discriminate; auto.
Qed.

Lemma step_AtRound w sts i game pl :
  Inv sc w sts -> sts !! i = Some (AtRound game pl) -> exists st', Inv sc (turn w i) (<[i:=st']> sts) /\
    Nat.min 10 (S (rank (AtRound game pl))) <= rank st'.
Proof.
  intros HI Hst. take_turn HI Hst c p Hc Hp.
  destruct (inv_local _ _ _ HI i c p _ Hc Hp Hst) as (Hu & _ & _ & Hsnap & Hid & Hun).
  assert (Hrd : List.find (roundIs gid (Game.currentRound game)) (rounds (store w))
                = Some (sceneRound sc)).
  { rewrite (inv_rounds _ _ _ HI), Hsnap. apply (ready_round sc ready). }
  rewrite (resume_AtRound c game pl (store w) _ Hrd). cbv beta iota.
  exists (AtSave game pl (sceneRound sc)). split; [|cbn; lia].
  eapply inv_advance; eauto.
  - eapply gameKept_same; eauto. apply (inv_game _ _ _ HI).
  - repeat split; try discriminate; auto.
Qed.

Lemma local_after_append (c c' : string * string) p p' sj stored :
  Player._id p <> Player._id p' ->
  Local sc c' p' sj stored ->
  Local sc c' p' sj (stored ++ [answerDoc gid (snd c) p (sceneRound sc)]).
Proof.
  intros Hne (Hu & Hs & Hrest). repeat split; [| |apply Hrest|apply Hrest].
  - intros Hsv. rewrite existsb_app, (Hu Hsv). cbn.
    unfold sameRoundAndPlayer, answerDoc. cbn.
    destruct (String.eqb_spec (Player._id p) (Player._id p')); [contradiction|].
    now rewrite andb_false_r.
  - intros Hsv. apply filter_app_nonempty. exact (Hs Hsv).
Qed.

Lemma step_AtSave w sts i game pl rd :
  Inv sc w sts -> sts !! i = Some (AtSave game pl rd) -> exists st', Inv sc (turn w i) (<[i:=st']> sts) /\
    Nat.min 10 (S (rank (AtSave game pl rd))) <= rank st'.
Proof.
  intros HI Hst. take_turn HI Hst c p Hc Hp.
  destruct (inv_local _ _ _ HI i c p _ Hc Hp Hst) as (Hu & _ & _ & Hid & Hun & ->).
  destruct (caller_found i c p Hc Hp) as [_ Hacc].
  assert (Hdoc : answerDoc gid (snd c) pl (sceneRound sc) =
                 answerDoc gid (snd c) p (sceneRound sc)).
  { unfold answerDoc. now rewrite Hid, Hun. }
  assert (Hok : answerRejected (answers (store w))
                  (answerDoc gid (snd c) pl (sceneRound sc)) = false).
  { rewrite Hdoc. unfold answerRejected in *.
    apply orb_false_iff in Hacc. destruct Hacc as [Hstatic _].
    rewrite Hstatic. apply (Hu eq_refl). }
  rewrite (resume_AtSave c game pl _ (store w) Hok). cbv beta iota.
  exists (AtCount game (sceneRound sc)). split; [|cbn; lia].
  eapply inv_advance; eauto.
  - eapply gameKept_same; eauto. apply (inv_game _ _ _ HI).
  - intros j c' p' sj Hne Hcj Hpj Hj Hl. cbn [answers withAnswers]. rewrite Hdoc.
    apply local_after_append; [|exact Hl].
    intros Heq. apply Hne. symmetry. eapply callers_distinct; eauto.
  - cbn [answers withAnswers]. repeat split; try discriminate.
    intros _. apply filter_app_last_nonempty.
    unfold answerInRound, answerDoc. cbn. apply String.eqb_refl.
Qed.

Lemma step_AtCount w sts i game rd :
  Inv sc w sts -> sts !! i = Some (AtCount game rd) -> exists st', Inv sc (turn w i) (<[i:=st']> sts) /\
    Nat.min 10 (S (rank (AtCount game rd))) <= rank st'.
Proof.
  intros HI Hst. take_turn HI Hst c p Hc Hp.
  destruct (inv_local _ _ _ HI i c p _ Hc Hp Hst) as (_ & Hs & _ & ->).
  rewrite (resume_AtCount c game _ (store w)). cbv beta iota.
  assert (Hk : connectedCount (store w) gid = K).
  { unfold connectedCount.
    rewrite (stripScore_count_connected gid _ _ (inv_players _ _ _ HI)).
    symmetry. apply (ready_all sc ready). }
  rewrite Hk.
  destruct (Nat.leb_spec K (Game.playersAnswered game)) as [Hle|Hlt].
  - exists (AtClose game (sceneRound sc)). split; [|cbn; lia].
    eapply inv_advance; eauto.
    + eapply gameKept_same; eauto. apply (inv_game _ _ _ HI).
    + repeat split; try discriminate; auto.
  - exists (Stopped NotClosed (Game.playersAnswered game)). split; [|cbn; lia].
    eapply inv_advance; eauto.
    + eapply gameKept_same; eauto. apply (inv_game _ _ _ HI).
    + repeat split; try discriminate; auto.
Qed.

Lemma step_AtClose w sts i game rd :
  Inv sc w sts -> sts !! i = Some (AtClose game rd) -> exists st', Inv sc (turn w i) (<[i:=st']> sts) /\
    Nat.min 10 (S (rank (AtClose game rd))) <= rank st'.
Proof.
  intros HI Hst. take_turn HI Hst c p Hc Hp.
  destruct (inv_local _ _ _ HI i c p _ Hc Hp Hst) as (_ & Hs & Hcl & ->).
  destruct (analyzeRoundAnswers_some _ (Hs eq_refl)) as [results Hres].
  rewrite (resume_AtClose c game _ (store w) results Hres). cbv beta iota zeta.
  destruct (scoringPlayers results) as [|x l].
  - eexists (AtReset game results _). split; [|cbn; lia].
    eapply inv_advance; eauto.
    + eapply gameKept_same; eauto. apply (inv_game _ _ _ HI).
    + repeat split; try discriminate; auto.
  - eexists (AtInc game results _). split; [|cbn; lia].
    eapply inv_advance; eauto.
    + eapply gameKept_same; eauto. apply (inv_game _ _ _ HI).
    + repeat split; try discriminate; auto.
Qed.

Lemma step_AtInc w sts i game results holder :
  Inv sc w sts -> sts !! i = Some (AtInc game results holder) ->
  exists st', Inv sc (turn w i) (<[i:=st']> sts) /\
    Nat.min 10 (S (rank (AtInc game results holder))) <= rank st'.
Proof.
  intros HI Hst. take_turn HI Hst c p Hc Hp.
  destruct (inv_local _ _ _ HI i c p _ Hc Hp Hst) as (_ & Hs & Hcl & _).
  rewrite (resume_AtInc c game results holder (store w)). cbv beta iota.
  exists (AtReset game results holder). split; [|cbn; lia].
  eapply inv_advance; eauto.
  - eapply gameKept_same; eauto. apply (inv_game _ _ _ HI).
  - repeat split; try discriminate; auto.
  - cbn [players withPlayers]. apply stripScore_updateAll.
Qed.

Lemma step_AtReset w sts i game results holder :
  Inv sc w sts -> sts !! i = Some (AtReset game results holder) ->
  exists st', Inv sc (turn w i) (<[i:=st']> sts) /\
    Nat.min 10 (S (rank (AtReset game results holder))) <= rank st'.
Proof.
  intros HI Hst. take_turn HI Hst c p Hc Hp.
  destruct (inv_local _ _ _ HI i c p _ Hc Hp Hst) as (_ & Hs & Hcl & _).
  rewrite (resume_AtReset c game results holder (store w)). cbv beta iota.
  exists (AtBroadcast game results holder). split; [|cbn; lia].
  eapply inv_advance; eauto.
  - destruct (inv_game _ _ _ HI) as (g' & Hf & Hcr & _ & _).
    eexists. split; [apply findGame_update; [exact Hf | reflexivity]|].
    split; [exact Hcr|].
    assert (He : existsb pastReset (<[i:=AtBroadcast game results holder]> sts) = true).
    { eapply lookup_existsb;
        [apply list_lookup_insert_eq; now apply lookup_lt_Some in Hst | reflexivity]. }
    rewrite He. split; [discriminate | reflexivity].
  - repeat split; try discriminate; auto.
Qed.

Lemma step_AtBroadcast w sts i game results holder :
  Inv sc w sts -> sts !! i = Some (AtBroadcast game results holder) ->
  exists st', Inv sc (turn w i) (<[i:=st']> sts) /\
    Nat.min 10 (S (rank (AtBroadcast game results holder))) <= rank st'.
Proof.
  intros HI Hst. take_turn HI Hst c p Hc Hp.
  destruct (inv_local _ _ _ HI i c p _ Hc Hp Hst) as (_ & Hs & Hcl & _).
  rewrite (resume_AtBroadcast c game results holder (store w)). cbv beta iota.
  destruct (declareWinner _ _) as [winner|].
  - exists (AtComplete game winner). split; [|cbn; lia].
    eapply inv_advance; eauto.
    + eapply gameKept_same; eauto. apply (inv_game _ _ _ HI).
    + repeat split; try discriminate; auto.
  - exists (Stopped Closed (Game.playersAnswered game)). split; [|cbn; lia].
    eapply inv_advance; eauto.
    + eapply gameKept_same; eauto. apply (inv_game _ _ _ HI).
    + repeat split; try discriminate; auto.
Qed.

Lemma step_AtComplete w sts i game winner :
  Inv sc w sts -> sts !! i = Some (AtComplete game winner) ->
  exists st', Inv sc (turn w i) (<[i:=st']> sts) /\
    Nat.min 10 (S (rank (AtComplete game winner))) <= rank st'.
Proof.
  intros HI Hst. take_turn HI Hst c p Hc Hp.
  destruct (inv_local _ _ _ HI i c p _ Hc Hp Hst) as (_ & Hs & Hcl & _).
  rewrite (resume_AtComplete c game winner (store w)). cbv beta iota.
  exists (Stopped Closed (Game.playersAnswered game)). split; [|cbn; lia].
  eapply inv_advance; eauto.
  - destruct (inv_game _ _ _ HI) as (g' & Hf & Hcr & _ & Hyes).
    assert (He0 : existsb pastReset sts = true) by (eapply lookup_existsb; eauto).
    eexists. split; [apply findGame_update; [exact Hf | reflexivity]|].
    split; [exact Hcr|].
    rewrite (existsb_insert_same pastReset sts i _
               (Stopped Closed (Game.playersAnswered game)) Hst eq_refl), He0.
    split; [discriminate|]. intros _. cbn. apply (Hyes He0).
  - repeat split; try discriminate; auto.
Qed.

Lemma step_Stopped w sts i o n :
  Inv sc w sts -> sts !! i = Some (Stopped o n) -> exists st', Inv sc (turn w i) (<[i:=st']> sts) /\
    Nat.min 10 (S (rank (Stopped o n))) <= rank st'.
Proof.
  intros HI Hst. destruct (lookups _ _ _ _ HI Hst) as (c & p & Hc & Hp & Hpool).
  unfold turn. rewrite Hpool. cbn [stageProgram resume]. cbn [stageProgram] in Hpool.
  rewrite (list_insert_id _ _ _ Hpool), app_nil_r.
  exists (Stopped o n). split; [|cbn; lia].
  rewrite (list_insert_id _ _ _ Hst). destruct w. exact HI.
Qed.

(** The invariant holds after every turn, and the handler that took the
    turn has moved on. *)
Lemma turn_Inv w sts i :
  Inv sc w sts ->
  exists sts', Inv sc (turn w i) sts' /\
    forall j st, sts !! j = Some st ->
      exists st', sts' !! j = Some st' /\
        (if decide (j = i) then Nat.min 10 (S (rank st)) <= rank st' else st' = st).
Proof.
  intros HI. destruct (sts !! i) as [st|] eqn:Hst.
  - assert (Hstep : exists st', Inv sc (turn w i) (<[i:=st']> sts) /\
                      Nat.min 10 (S (rank st)) <= rank st').
    { destruct st.
      + eapply step_NotStarted; eauto.
      + eapply step_AtPlayer; eauto.
      + eapply step_AtRound; eauto.
      + eapply step_AtSave; eauto.
      + eapply step_AtCount; eauto.
      + eapply step_AtClose; eauto.
      + eapply step_AtInc; eauto.
      + eapply step_AtReset; eauto.
      + eapply step_AtBroadcast; eauto.
      + eapply step_AtComplete; eauto.
      + eapply step_Stopped; eauto. }
    destruct Hstep as (st' & HI' & Hrank).
    exists (<[i:=st']> sts). split; [exact HI'|].
    intros j sj Hj. destruct (decide (j = i)) as [->|Hne].
    + exists st'. rewrite list_lookup_insert_eq by (now apply lookup_lt_Some in Hst).
      rewrite Hst in Hj. injection Hj as <-. auto.
    + exists sj. rewrite list_lookup_insert_ne by congruence. auto.
  - exists sts. split.
    + unfold turn.
      assert (Hp : pool w !! i = None).
      { rewrite (inv_pool _ _ _ HI). unfold poolOf. rewrite lookup_zip_with, Hst.
        destruct (calls !! i); reflexivity. }
      rewrite Hp. exact HI.
    + intros j sj Hj. exists sj. split; [exact Hj|].
      destruct (decide (j = i)) as [->|]; [congruence | reflexivity].
Qed.

Lemma interleave_Inv schedule : forall w sts,
  Inv sc w sts ->
  exists sts', Inv sc (interleave w schedule) sts' /\
    forall j st, sts !! j = Some st ->
      exists st', sts' !! j = Some st' /\
        Nat.min 10 (rank st + count_occ Nat.eq_dec schedule j) <= rank st'.
Proof.
  induction schedule as [|i schedule IH]; intros w sts HI.
  - exists sts. split; [exact HI|]. intros j st Hj. exists st. split; [exact Hj|].
    cbn [count_occ]. lia.
  - destruct (turn_Inv w sts i HI) as (sts1 & HI1 & H1).
    destruct (IH _ _ HI1) as (sts2 & HI2 & H2).
    exists sts2. split; [exact HI2|].
    intros j st Hj. destruct (H1 j st Hj) as (st1 & Hj1 & Hr1).
    destruct (H2 j st1 Hj1) as (st2 & Hj2 & Hr2).
    exists st2. split; [exact Hj2|].
    cbn [count_occ]. destruct (Nat.eq_dec i j) as [->|Hne].
    + destruct (decide (j = j)); [|congruence]. lia.
    + destruct (decide (j = i)); [congruence|]. subst st1. lia.
Qed.

Lemma existsb_replicate_false {A} (P : A -> bool) x n :
  P x = false -> existsb P (replicate n x) = false.
Proof. intros H. induction n; simpl; [reflexivity|]. now rewrite H. Qed.

Lemma filter_replicate_false {A} (P : A -> bool) x n :
  P x = false -> List.filter P (replicate n x) = [].
Proof. intros H. induction n; simpl; [reflexivity|]. now rewrite H. Qed.

(** Before any turn: nobody has started. *)
Lemma Inv_initial :
  Inv sc (submitAll (sceneStore sc) gid calls) (replicate K NotStarted).
Proof.
  constructor; cbn [store pool sent submitAll].
  - unfold poolOf. generalize calls. intros l.
    induction l as [|c l IH]; simpl; [reflexivity|]. now rewrite <- IH.
  - apply length_replicate.
  - exists (sceneGame sc). split; [apply (ready_game sc ready)|]. split; [reflexivity|].
    rewrite (existsb_replicate_false pastReset) by reflexivity.
    rewrite (filter_replicate_false started) by reflexivity.
    split; [|discriminate]. intros _.
    split; [apply (ready_counter sc ready) | apply (ready_status sc ready)].
  - intros i st Hi. apply lookup_replicate in Hi. destruct Hi as [-> _]. simpl. lia.
  - intros i j si sj Hi _ Hsi. apply lookup_replicate in Hi. destruct Hi as [-> _].
    discriminate.
  - intros n Hn. rewrite (filter_replicate_false started) in Hn by reflexivity.
    simpl in Hn. lia.
  - intros i c p st Hc Hp Hi. apply lookup_replicate in Hi. destruct Hi as [-> _].
    destruct (caller_found i c p Hc Hp) as [_ Hacc].
    unfold answerRejected in Hacc. apply orb_false_iff in Hacc.
    repeat split; try discriminate. intros _. apply Hacc.
  - reflexivity.
  - reflexivity.
  - rewrite (filter_replicate_false hasClosed) by reflexivity. reflexivity.
Qed.

(** When every handler is done, one of them has closed the round. *)
Lemma Inv_final w sts :
  Inv sc w sts -> allDone w ->
  roundClosings (sent w) = 1 /\ counterOf (store w) gid = Some 0.
Proof.
  intros HI Hdone.
  assert (Hstopped : forall i st, sts !! i = Some st -> exists o n, st = Stopped o n).
  { intros i st Hst. destruct (lookups _ _ _ _ HI Hst) as (c & p & _ & _ & Hpool).
    unfold allDone in Hdone. rewrite Forall_lookup in Hdone.
    specialize (Hdone _ _ Hpool). destruct st; try discriminate. eauto. }
  assert (Hall : length (List.filter started sts) = K).
  { rewrite <- (inv_len _ _ _ HI). apply filter_length_full.
    intros i st Hst. destruct (Hstopped i st Hst) as (o & n & ->). reflexivity. }
  assert (Hpos : 1 <= K).
  { pose proof (ready_some sc ready). destruct calls; [congruence | simpl; lia]. }
  destruct (inv_pa_surj _ _ _ HI K) as (i & st & Hst & _ & Hpa); [lia|].
  destruct (Hstopped i st Hst) as (o & n & ->). cbn in Hpa. subst n.
  destruct (lookups _ _ _ _ HI Hst) as (c & p & Hc & Hp & _).
  pose proof (inv_local _ _ _ HI i c p _ Hc Hp Hst) as (_ & _ & _ & Ho).
  destruct o; [|cbn in Ho; lia|contradiction].
  split.
  - rewrite (inv_sent _ _ _ HI).
    apply (filter_length_unique hasClosed sts i _ Hst eq_refl).
    intros j sj Hj Hcj.
    destruct (Hstopped j sj Hj) as (o & n & ->).
    destruct (lookups _ _ _ _ HI Hj) as (c' & p' & Hc' & Hp' & _).
    pose proof (inv_local _ _ _ HI j c' p' _ Hc' Hp' Hj) as (_ & _ & Hcl & _).
    destruct o; try discriminate.
    specialize (Hcl eq_refl). cbn in Hcl.
    pose proof (inv_pa_le _ _ _ HI j _ Hj) as Hle. cbn in Hle.
    apply (inv_pa_inj _ _ _ HI j i _ _ Hj Hst eq_refl eq_refl). cbn. lia.
  - destruct (inv_game _ _ _ HI) as (g' & Hf & _ & _ & Hyes).
    unfold counterOf. rewrite Hf. cbn. f_equal. apply Hyes.
    eapply lookup_existsb; eauto.
Qed.

(** Ten turns each are enough for all handlers to be done. *)
Lemma Inv_enough_turns w sts :
  Inv sc w sts ->
  (forall j st, sts !! j = Some st -> 10 <= rank st) -> allDone w.
Proof.
  intros HI Hr. unfold allDone. apply Forall_lookup. intros j pr Hj.
  rewrite (inv_pool _ _ _ HI) in Hj. unfold poolOf in Hj.
  apply lookup_zip_with_Some in Hj. destruct Hj as (c & st & -> & _ & Hst).
  specialize (Hr j st Hst). destruct st; cbn in Hr; try lia. reflexivity.
Qed.

(** At no time has [round_completed] been broadcast twice. *)
Lemma Inv_at_most_once w sts : Inv sc w sts -> roundClosings (sent w) <= 1.
Proof.
  intros HI. rewrite (inv_sent _ _ _ HI).
  destruct (existsb hasClosed sts) eqn:E.
  - apply existsb_lookup in E. destruct E as (i & st & Hst & Hc).
    rewrite (filter_length_unique hasClosed sts i st Hst Hc); [lia|].
    assert (Hk : forall j sj, sts !! j = Some sj -> hasClosed sj = true ->
                   started sj = true /\ paOf sj = K).
    { intros j sj Hj Hcj.
      destruct (lookups _ _ _ _ HI Hj) as (c' & p' & Hc' & Hp' & _).
      pose proof (inv_local _ _ _ HI j c' p' _ Hc' Hp' Hj) as (_ & _ & Hcl & _).
      specialize (Hcl (pastReset_closing _ (hasClosed_pastReset _ Hcj))).
      pose proof (inv_pa_le _ _ _ HI j _ Hj) as Hle.
      pose proof (filter_length_le started sts) as Hle'.
      rewrite (inv_len _ _ _ HI) in Hle'.
      split; [apply pastReset_started, hasClosed_pastReset, Hcj | lia]. }
    intros j sj Hj Hcj.
    destruct (Hk i st Hst Hc) as [Hs1 Hp1]. destruct (Hk j sj Hj Hcj) as [Hs2 Hp2].
    apply (inv_pa_inj _ _ _ HI j i sj st Hj Hst Hs2 Hs1). congruence.
  - assert (Hz : List.filter hasClosed sts = []).
    { clear -E. induction sts as [|a l IH]; simpl in *; [reflexivity|].
      apply orb_false_iff in E. destruct E as [-> E]. now apply IH. }
    rewrite Hz. simpl. lia.
Qed.

End Interleaving.

(** X1. One closing for a full set of accepted answers, in the file that
    increments atomically. In a room in progress whose counter is 0, with
    K >= 1 connected players, let [submit_answer] be called once for each
    of K distinct players of the room, with answers the store accepts, and
    let the K handlers of the file that increments atomically take their
    turns in any order. At no time has [round_completed] been broadcast
    twice; once all handlers are done it has been broadcast exactly once
    and the room's [playersAnswered] is 0; and all handlers are done as
    soon as each has had ten turns. *)
Theorem concurrent_submissions_close_once (sc : Scene) (schedule : list nat) :
  Ready sc ->
  let w := interleave (submitAll (sceneStore sc) (sceneGameId sc) (sceneCalls sc))
             schedule in
  roundClosings (sent w) <= 1 /\
  (allDone w ->
     roundClosings (sent w) = 1 /\ counterOf (store w) (sceneGameId sc) = Some 0) /\
  ((forall i, i < length (sceneCalls sc) -> 10 <= count_occ Nat.eq_dec schedule i) ->
     allDone w).
Proof.
  intros Hready w.
  destruct (interleave_Inv sc Hready schedule _ _ (Inv_initial sc Hready))
    as (sts & HI & Hprog).
  split; [exact (Inv_at_most_once sc Hready _ _ HI)|].
  split; [exact (Inv_final sc Hready _ _ HI)|].
  intros Hfair. apply (Inv_enough_turns sc _ _ HI).
  intros j st Hj.
  assert (Hlt : j < length (sceneCalls sc)).
  { apply lookup_lt_Some in Hj. now rewrite (inv_len _ _ _ HI) in Hj. }
  destruct (Hprog j NotStarted) as (st' & Hj' & Hr).
  { apply lookup_replicate. auto. }
  rewrite Hj in Hj'. injection Hj' as <-.
  specialize (Hfair j Hlt). cbn [rank] in Hr. lia.
Qed.

Lemma threeAnswering_ready : Ready threeAnswering.
Proof.
  constructor.
  - vm_compute. reflexivity.
  - reflexivity.
  - reflexivity.
  - vm_compute. reflexivity.
  - repeat constructor.
  - vm_compute. repeat constructor; intros H; apply list_elem_of_In in H;
      simpl in H; intuition discriminate.
  - vm_compute. reflexivity.
  - discriminate.
Defined.

Lemma concurrent_submissions_close_once_witness :
  let w := interleave (submitAll (sceneStore threeAnswering) "g1"
                         (sceneCalls threeAnswering)) roundRobin in
  roundClosings (sent w) = 1 /\ counterOf (store w) "g1" = Some 0.
Proof.
  destruct (concurrent_submissions_close_once threeAnswering roundRobin
              threeAnswering_ready) as (_ & Hdone & Hfair).
  apply Hdone, Hfair. intros i Hi.
  destruct i as [|[|[|i]]]; [vm_compute; lia ..|].
  cbn in Hi. lia.
Defined.

(** The answers the closing handler tallies are those stored by then: when
    carol's handler overtakes the other two, she alone scores. *)
Example closing_handler_tallies_what_is_stored :
  let w := interleave (submitAll (sceneStore threeAnswering) "g1"
                         (sceneCalls threeAnswering)) carolOvertakes in
  roundClosings (sent w) = 1 /\ scorersOf (sent w) = Some ["p3"] /\
  map Player.score (players (store w)) = [0; 0; 1].
Proof. vm_compute. repeat split. Qed.

(** C2 at a failing input, in the file that increments atomically. Alice
    and bob are the two connected players of the room; alice has answered
    round 1 when the host moves on, and [next_round] leaves the counter at
    1. Their two concurrent submissions for round 2 both increment first,
    to 2 and 3, and both pass [playersAnswered >= connectedPlayers]:
    alice's handler closes the round when her answer alone is stored, bob's
    closes it again. [round_completed] is broadcast twice for round 2 and
    alice is given two points in one round, so the room does not close
    exactly once. A second input: with the counter at 0 and three connected
    players, carol's answer "the" has an empty normal form and is rejected
    after her increment; no handler closes the round and the counter stays
    at 3. *)
Theorem concurrent_submissions_close_twice :
  let s := serveAll AtomicIncrement catalog emptyStore advancedMidRound in
  let calls := [("sA", "cat"); ("sB", "cat")] in
  (length calls = connectedCount s "g1" /\
   option_map Game.currentRound (findGame s "g1") = Some 2 /\
   counterOf s "g1" = Some 1 /\
   map Player.score (players s) = [0; 0]) /\
  (let w := interleave (submitAll s "g1" calls) ([0; 1] ++ repeat 0 9) in
   roundClosings (sent w) = 1 /\
   map Answer.playerId (List.filter (answerInRound "rn2") (answers (store w))) = ["p1"] /\
   map Player.score (players (store w)) = [1; 0]) /\
  (let w := interleave (submitAll s "g1" calls) bothIncrementFirst in
   allDone w /\ roundClosings (sent w) = 2 /\
   map Player.score (players (store w)) = [2; 1]) /\
  ~ closesExactlyOnce s "g1" calls bothIncrementFirst /\
  (let s3 := sceneStore threeAnswering in
   let calls3 := [("sA", "dog"); ("sB", "Dogs"); ("sC", "the")] in
   let w := interleave (submitAll s3 "g1" calls3) roundRobin in
   length calls3 = connectedCount s3 "g1" /\ counterOf s3 "g1" = Some 0 /\
   allDone w /\ roundClosings (sent w) = 0 /\ counterOf (store w) "g1" = Some 3 /\
   ~ closesExactlyOnce s3 "g1" calls3 roundRobin).
Proof.
  intros s calls.
  assert (Hdone : allDone (interleave (submitAll s "g1" calls) bothIncrementFirst))
    by (vm_compute; repeat constructor).
  assert (Hdone3 : allDone (interleave (submitAll (sceneStore threeAnswering) "g1"
                              [("sA", "dog"); ("sB", "Dogs"); ("sC", "the")]) roundRobin))
    by (vm_compute; repeat constructor).
  split; [vm_compute; repeat split|].
  split; [vm_compute; repeat split|].
  split; [split; [exact Hdone | vm_compute; repeat split]|].
  split.
  - intros H. unfold closesExactlyOnce in H.
    assert (Hk : length calls = connectedCount s "g1") by (vm_compute; reflexivity).
    destruct (H Hk Hdone) as [Hone _]. vm_compute in Hone. discriminate.
  - cbv zeta. split; [vm_compute; reflexivity|]. split; [vm_compute; reflexivity|].
    split; [exact Hdone3|]. split; [vm_compute; reflexivity|].
    split; [vm_compute; reflexivity|].
    intros H. unfold closesExactlyOnce in H.
    destruct (H ltac:(vm_compute; reflexivity) Hdone3) as [Hone _].
    vm_compute in Hone. discriminate.
Qed.

(** ** More on the normalizer *)

Lemma normalizeAnswer_chars x :
  normalizeAnswer x = string_of_list_ascii (normalizeChars (list_ascii_of_string x)).
Proof.
  unfold normalizeAnswer. destruct (String.eqb x "") eqn:E; [|reflexivity].
  apply String.eqb_eq in E. now subst x.
Qed.



Lemma list_ascii_of_string_app (a b : string) :
  list_ascii_of_string (a ++ b)%string = list_ascii_of_string a ++ list_ascii_of_string b.
Proof. induction a as [|c r IH]; simpl; [reflexivity | now rewrite IH]. Qed.




Lemma isSpace_toLowerChar c : isSpace (toLowerChar c) = isSpace c.
Proof. destruct c as [[] [] [] [] [] [] [] []]; reflexivity. Qed.

Lemma dropWhile_app_all {A} (p : A -> bool) w m :
  Forall (fun c => p c = true) w -> dropWhile p (w ++ m) = dropWhile p m.
Proof. induction 1 as [|c r Hc _ IH]; simpl; [reflexivity | now rewrite Hc]. Qed.

Lemma trimEnd_app_space m w :
  Forall (fun c => isSpace c = true) w -> trimEnd (m ++ w) = trimEnd m.
Proof.
  intros H. unfold trimEnd. rewrite rev_app_distr.
  rewrite dropWhile_app_all; [reflexivity | now apply Forall_rev].
Qed.

Lemma trim_padded w1 l w2 :
  Forall (fun c => isSpace c = true) w1 ->
  Forall (fun c => isSpace c = true) w2 ->
  trim (w1 ++ l ++ w2) = trim l.
Proof.
  intros H1 H2. unfold trim, trimStart. rewrite (dropWhile_app_all _ _ _ H1).
  induction l as [|c r IH]; simpl.
  - rewrite <- (app_nil_r w2), dropWhile_app_all by exact H2. reflexivity.
  - destruct (isSpace c); [exact IH|].
    apply (trimEnd_app_space (c :: r) w2 H2).
Qed.

(** X4. Letter case and white space around an answer have no bearing on
    its normal form. *)
Theorem normalizeAnswer_ignores_case_and_outer_space (w1 w2 x y : string) :
  Forall (fun c => isSpace c = true) (list_ascii_of_string w1) ->
  Forall (fun c => isSpace c = true) (list_ascii_of_string w2) ->
  toLowerCase (list_ascii_of_string x) = toLowerCase (list_ascii_of_string y) ->
  normalizeAnswer (w1 ++ x ++ w2)%string = normalizeAnswer y.
Proof.
  intros H1 H2 Hxy. rewrite !normalizeAnswer_chars. f_equal.
  unfold normalizeChars. do 5 f_equal.
  rewrite !list_ascii_of_string_app. unfold toLowerCase in *.
  rewrite !map_app, Hxy.
  apply trim_padded; apply Forall_map;
    (eapply Forall_impl; [eassumption|]); intros c Hc; cbn beta;
    now rewrite isSpace_toLowerChar.
Qed.

Lemma normalizeAnswer_ignores_case_and_outer_space_witness :
  normalizeAnswer ("  " ++ "The Cats" ++ " ")%string = normalizeAnswer "the cats".
Proof.
  apply (normalizeAnswer_ignores_case_and_outer_space "  " " " "The Cats" "the cats").
  - repeat constructor.
  - repeat constructor.
  - reflexivity.
Defined.

(** ** More on the token rule, the win check and the question draw *)

Local Ltac string_cases :=
  repeat (cbn [negb andb] in *;
          match goal with
          | H : String.eqb _ _ = true |- _ => apply String.eqb_eq in H; subst
          | H : context [String.eqb ?a ?a] |- _ => rewrite String.eqb_refl in H
          | |- context [String.eqb ?a ?a] => rewrite String.eqb_refl
          | H : String.eqb ?a ?b = false |- context [String.eqb ?a ?b] => rewrite H
          | |- context [String.eqb ?a ?b] => destruct (String.eqb a b) eqn:?
          end);
  try discriminate; try reflexivity.

(** X8. The token rule never hands back the empty string, and applying it a
    second time with the same unique answerer changes nothing. *)
Theorem determinePinkCowHolder_settles (currentHolder uniqueAnswerPlayer : option string) :
  determinePinkCowHolder currentHolder uniqueAnswerPlayer <> Some "" /\
  determinePinkCowHolder (determinePinkCowHolder currentHolder uniqueAnswerPlayer)
    uniqueAnswerPlayer
  = determinePinkCowHolder currentHolder uniqueAnswerPlayer.
Proof.
  split.
  - unfold determinePinkCowHolder, truthy, orEmpty.
    destruct uniqueAnswerPlayer as [u|], currentHolder as [h|];
      string_cases; intros [= ->]; string_cases.
  - unfold determinePinkCowHolder, truthy, orEmpty.
    destruct uniqueAnswerPlayer as [u|], currentHolder as [h|]; string_cases.
Qed.

Lemma unused_iff (usedQuestions : list (option string)) (q : string) :
  negb (existsb (fun u => match u with Some s => String.eqb s q | None => false end)
          usedQuestions) = true
  <-> ~ In (Some q) usedQuestions.
Proof.
  rewrite negb_true_iff, <- not_true_iff_false, existsb_exists.
  split; intros H H'; apply H.
  - exists (Some q). split; [exact H' | apply String.eqb_refl].
  - destruct H' as ([s|] & Hs & E); [|discriminate].
    apply String.eqb_eq in E. now subst s.
Qed.

(** An index reduced modulo the length of a non-empty list selects one of
    its elements. *)
Lemma nth_error_mod {A} (l : list A) (random : nat) :
  l <> [] -> exists x, nth_error l (random mod length l) = Some x /\ In x l.
Proof.
  intros Hl. destruct (nth_error l (random mod length l)) as [x|] eqn:E.
  - exists x. split; [reflexivity | now apply nth_error_In in E].
  - apply nth_error_None in E.
    pose proof (Nat.mod_upper_bound random (length l)) as Hb.
    destruct l; [congruence | simpl length in *; lia].
Qed.

(** X9. The draw prefers a prompt the game has not used: when the catalog
    holds one, the prompt returned is in the catalog and not among the
    used ones. *)
Theorem getRandomQuestion_prefers_unused
    (PREDEFINED_QUESTIONS : list string) (random : nat)
    (usedQuestions : list (option string)) (q0 : string) :
  In q0 PREDEFINED_QUESTIONS -> ~ In (Some q0) usedQuestions ->
  exists q, getRandomQuestion PREDEFINED_QUESTIONS random usedQuestions = Some q /\
            In q PREDEFINED_QUESTIONS /\ ~ In (Some q) usedQuestions.
Proof.
  intros Hin Hnew. unfold getRandomQuestion.
  set (unused := fun q => negb (existsb _ usedQuestions)).
  assert (Hq0 : In q0 (List.filter unused PREDEFINED_QUESTIONS)).
  { apply filter_In. split; [exact Hin | now apply unused_iff]. }
  destruct (List.filter unused PREDEFINED_QUESTIONS) as [|a available] eqn:E;
    [destruct Hq0|].
  destruct (nth_error_mod (a :: available) random ltac:(discriminate)) as (q & Hq & Hm).
  exists q. split; [exact Hq|].
  rewrite <- E in Hm. apply filter_In in Hm. destruct Hm as [H1 H2].
  split; [exact H1 | now apply unused_iff].
Qed.

Lemma getRandomQuestion_prefers_unused_witness :
  exists q, getRandomQuestion catalog 7 [Some "Name an animal"] = Some q /\
            In q catalog /\ ~ In (Some q) [Some "Name an animal"].
Proof.
  apply (getRandomQuestion_prefers_unused catalog 7 [Some "Name an animal"] "Name a fruit").
  - right. left. reflexivity.
  - intros [H|[]]. discriminate.
Defined.

(** X10. The draw answers with a prompt of the catalog whatever has been
    used, starting over when every prompt has been; it is [undefined] only
    for an empty catalog. *)
Theorem getRandomQuestion_from_catalog
    (PREDEFINED_QUESTIONS : list string) (random : nat)
    (usedQuestions : list (option string)) :
  (getRandomQuestion PREDEFINED_QUESTIONS random usedQuestions = None <->
   PREDEFINED_QUESTIONS = []) /\
  (forall q, getRandomQuestion PREDEFINED_QUESTIONS random usedQuestions = Some q ->
             In q PREDEFINED_QUESTIONS).
Proof.
  unfold getRandomQuestion.
  set (unused := fun q => negb (existsb
         (fun u => match u with Some s => String.eqb s q | None => false end)
         usedQuestions)).
  destruct (List.filter unused PREDEFINED_QUESTIONS) as [|a available] eqn:E.
  - split.
    + split.
      * intros H. apply nth_error_None in H.
        destruct PREDEFINED_QUESTIONS as [|b l]; [reflexivity|].
        pose proof (Nat.mod_upper_bound random (length (b :: l))) as Hb.
        simpl length in *. lia.
      * intros ->. apply nth_error_None. simpl. lia.
    + intros q H. now apply nth_error_In in H.
  - assert (Ha : In a PREDEFINED_QUESTIONS).
    { assert (H : In a (List.filter unused PREDEFINED_QUESTIONS))
        by (rewrite E; now left).
      now apply filter_In in H. }
    split.
    + split.
      * intros H. apply nth_error_None in H.
        pose proof (Nat.mod_upper_bound random (length (a :: available))) as Hb.
        simpl length in *. lia.
      * intros ->. destruct Ha.
    + intros q H. apply nth_error_In in H. rewrite <- E in H.
      now apply filter_In in H.
Qed.


Lemma groupSize_dog_dog_cat k :
  let answers := [answerOf "A" "dog"; answerOf "B" "dog"; answerOf "C" "cat"] in
  groupSize answers k =
  (if String.eqb "dog" k then 2 else 0) + (if String.eqb "cat" k then 1 else 0).
Proof.
  cbv zeta. unfold groupSize, answerOf. cbn [List.filter Answer.normalizedAnswer].
  destruct (String.eqb "dog" k), (String.eqb "cat" k); reflexivity.
Qed.

Lemma analyzeRoundAnswers_majority_witness :
  let answers := [answerOf "A" "dog"; answerOf "B" "dog"; answerOf "C" "cat"] in
  exists results,
    analyzeRoundAnswers answers = Some results /\
    majorityAnswer results = Some "dog" /\ scoringPlayers results = ["A"; "B"].
Proof.
  intros answers. eexists. split; [vm_compute; reflexivity|].
  refine (proj1 (analyzeRoundAnswers_majority answers _ _ eq_refl) "dog" _).
  - repeat constructor.
  - intros k Hk. change (groupSize answers "dog") with 2.
    unfold answers. rewrite groupSize_dog_dog_cat.
    destruct (String.eqb_spec "dog" k); [congruence|].
    destruct (String.eqb "cat" k); lia.
Defined.

Lemma analyzeRoundAnswers_unique_witness :
  let answers := [answerOf "A" "dog"; answerOf "B" "dog"; answerOf "C" "cat"] in
  exists results a,
    analyzeRoundAnswers answers = Some results /\
    In a answers /\ Answer.normalizedAnswer a = "cat" /\
    uniqueAnswerPlayer results = Some (Answer.playerId a).
Proof.
  intros answers. eexists.
  assert (H := proj1 (analyzeRoundAnswers_unique answers _
                        ltac:(repeat constructor) eq_refl) "cat").
  destruct H as (a & Ha & Hn & Hu).
  - unfold answers. rewrite groupSize_dog_dog_cat. reflexivity.
  - intros k Hk. unfold answers. rewrite groupSize_dog_dog_cat.
    destruct (String.eqb_spec "cat" k); [congruence|].
    destruct (String.eqb "dog" k); lia.
  - exists a. repeat split; assumption.
Defined.

Lemma lifecycle_forward_except_start_game_witness :
  let s := serveAll AtomicIncrement catalog emptyStore playedToTheEnd in
  lifecycleForward (games s)
    (games (serve AtomicIncrement catalog s (call "sA" (Req.next_round "g1") "n"))).
Proof.
  intros s. apply lifecycle_forward_except_start_game.
  intros [gameId H]. discriminate.
Defined.

(** ** Requests that are refused *)

Lemma updateFirst_none {A} (p : A -> bool) f (l : list A) :
  List.find p l = None -> updateFirst p f l = l.
Proof.
  induction l as [|x r IH]; cbn [List.find updateFirst]; [reflexivity|].
  destruct (p x); [discriminate|]. intros H. now rewrite IH.
Qed.

Lemma find_none_weaken {A} (p q : A -> bool) (l : list A) :
  (forall x, q x = true -> p x = true) ->
  List.find p l = None -> List.find q l = None.
Proof.
  intros Hpq. induction l as [|x r IH]; cbn [List.find]; [reflexivity|].
  destruct (p x) eqn:Ep; [discriminate|]. intros H.
  destruct (q x) eqn:Eq; [|auto]. apply Hpq in Eq. congruence.
Qed.

Lemma withGames_same s : withGames s (games s) = s.
Proof. now destruct s. Qed.

Lemma withPlayers_same s : withPlayers s (players s) = s.
Proof. now destruct s. Qed.

Lemma neq_eqb_false (a b : string) : a <> b -> String.eqb a b = false.
Proof. intros H. now apply String.eqb_neq. Qed.

(** X12. Only the host starts the game, moves to the next round or removes a
    player: from any other socket the request changes nothing and the
    sender alone gets an error. *)
Theorem only_the_host_may_start_advance_or_remove
    (v : Server) (cat : list string) (s : Store) (c : Call) (gameId : string) (g : Game.t) :
  gameOf (request c) = Some gameId ->
  hostOnly (request c) = true ->
  findGame s gameId = Some g ->
  Game.hostId g <> socket c ->
  exists message,
    run (handler v cat c) s = (s, [to_socket (socket c) (Msg.error message)]).
Proof.
  destruct c as [sock req f]. cbn [request socket]. intros Hg Hh Hfind Hne.
  unfold findGame in Hfind.
  assert (E1 : String.eqb (Game.hostId g) sock = false) by now apply neq_eqb_false.
  assert (E2 : String.eqb sock (Game.hostId g) = false)
    by (apply neq_eqb_false; congruence).
  destruct req; try discriminate; injection Hg as ->;
    destruct v; cbn [handler Part000.handle Part001.handle socket request fresh];
    unfold Common.start_game, Common.next_round, Common.remove_player, Common.fail;
    cbn [run exec]; rewrite Hfind; rewrite ?E1, ?E2; cbn [negb];
    try (destruct (Game.status_eqb (Game.status g) Game.in_progress); cbn [negb]);
    cbn [run]; eexists; reflexivity.
Qed.

Lemma only_the_host_may_start_advance_or_remove_witness :
  let s := serveAll AtomicIncrement catalog emptyStore threePlayersStarted in
  exists message,
    run (handler AtomicIncrement catalog (call "sB" (Req.next_round "g1") "n")) s
    = (s, [to_socket "sB" (Msg.error message)]).
Proof.
  intros s.
  refine (only_the_host_may_start_advance_or_remove AtomicIncrement catalog s
            (call "sB" (Req.next_round "g1") "n") "g1" _ eq_refl eq_refl eq_refl _).
  vm_compute. discriminate.
Defined.

(** X13. A request that names a game the store does not hold changes
    nothing, and whatever it sends goes to the sender alone. *)
Theorem unknown_game_changes_nothing
    (v : Server) (cat : list string) (s : Store) (c : Call) (gameId : string) :
  gameOf (request c) = Some gameId ->
  findGame s gameId = None ->
  fst (run (handler v cat c) s) = s /\
  onlyTo (socket c) (snd (run (handler v cat c) s)).
Proof.
  destruct c as [sock req f]. cbn [request socket]. intros Hg Hfind.
  unfold findGame in Hfind.
  assert (Hp : List.find (gameInProgress gameId) (games s) = None).
  { apply (find_none_weaken (gameHasId gameId)); [|exact Hfind].
    intros g H. now apply andb_prop in H. }
  assert (Hc : forall code,
             List.find (fun g => gameHasId gameId g && String.eqb (Game.roomCode g) code)
               (games s) = None).
  { intros code. apply (find_none_weaken (gameHasId gameId)); [|exact Hfind].
    intros g H. now apply andb_prop in H. }
  destruct req; try discriminate; injection Hg as ->;
    destruct v; cbn [handler Part000.handle Part001.handle socket request fresh];
    unfold Common.start_game, Common.next_round, Common.remove_player,
      Part000.submit_answer, Part001.submit_answer, Part000.reconnect_game, Common.fail;
    cbn [run exec]; rewrite ?Hfind, ?Hp, ?Hc; cbn [option_map run fst snd];
    rewrite ?(updateFirst_none _ _ _ Hp), ?withGames_same;
    (split; [reflexivity|]); repeat constructor; eexists; reflexivity.
Qed.

Lemma unknown_game_changes_nothing_witness :
  let c := call "sA" (Req.submit_answer "g9" "dog") "a" in
  fst (run (handler AtomicIncrement catalog c) emptyStore) = emptyStore /\
  onlyTo "sA" (snd (run (handler AtomicIncrement catalog c) emptyStore)).
Proof.
  intros c.
  apply (unknown_game_changes_nothing AtomicIncrement catalog emptyStore c "g9");
    reflexivity.
Defined.

(** X14. [join_game] refuses an unknown room code, and a new username once
    the game has left the waiting state; the store stays as it is and the
    sender alone gets an error. *)
Theorem join_game_refuses_unknown_rooms_and_late_joiners
    (v : Server) (cat : list string) (s : Store) (c : Call) (roomCode username : string) :
  request c = Req.join_game roomCode username ->
  match findGameByCode s roomCode with
  | None => True
  | Some g => Game.status g <> Game.waiting /\
              findPlayerNamed s (Game._id g) username = None
  end ->
  exists message,
    run (handler v cat c) s = (s, [to_socket (socket c) (Msg.error message)]).
Proof.
  destruct c as [sock req f]. cbn [request socket]. intros -> H.
  unfold findGameByCode, findPlayerNamed in H.
  destruct v; cbn [handler Part000.handle Part001.handle socket request fresh];
    unfold Common.join_game, Common.fail; cbn [run exec];
    (destruct (List.find _ (games s)) as [g|];
     [destruct H as [Hst Hp]; cbn [run exec]; rewrite Hp;
      destruct (Game.status g); try congruence; cbn [Game.status_eqb negb run]
     | cbn [run]]);
    eexists; reflexivity.
Qed.

Lemma join_game_refuses_unknown_rooms_and_late_joiners_witness :
  let s := serveAll AtomicIncrement catalog emptyStore threePlayersStarted in
  exists message,
    run (handler AtomicIncrement catalog (call "sD" (Req.join_game "AB12CD" "dave") "4")) s
    = (s, [to_socket "sD" (Msg.error message)]).
Proof.
  intros s.
  refine (join_game_refuses_unknown_rooms_and_late_joiners AtomicIncrement catalog s
            (call "sD" (Req.join_game "AB12CD" "dave") "4") "AB12CD" "dave" eq_refl _).
  vm_compute. split; [discriminate | reflexivity].
Defined.

(** X15. [reconnect_game] goes through only for a player of the game who is
    marked disconnected: when the store holds none under that username the
    store stays as it is and the sender gets [reconnect_failed]. *)
Theorem reconnect_game_needs_a_disconnected_player
    (cat : list string) (s : Store) (c : Call) (gameId roomCode username : string) :
  request c = Req.reconnect_game gameId roomCode username ->
  findDisconnected s gameId username = None ->
  exists reason,
    run (handler AtomicIncrement cat c) s
    = (s, [to_socket (socket c) (Msg.reconnect_failed reason)]).
Proof.
  destruct c as [sock req f]. cbn [request socket]. intros -> H.
  unfold findDisconnected in H.
  cbn [handler Part000.handle socket request fresh].
  unfold Part000.reconnect_game. cbn [run exec].
  destruct (List.find _ (games s)) as [g|]; cbn [run exec]; [rewrite H; cbn [run]|];
    eexists; reflexivity.
Qed.

Lemma reconnect_game_needs_a_disconnected_player_witness :
  let s := serveAll AtomicIncrement catalog emptyStore threePlayersStarted in
  exists reason,
    run (handler AtomicIncrement catalog
           (call "sX" (Req.reconnect_game "g1" "AB12CD" "bob") "r")) s
    = (s, [to_socket "sX" (Msg.reconnect_failed reason)]).
Proof.
  intros s.
  apply (reconnect_game_needs_a_disconnected_player catalog s
           (call "sX" (Req.reconnect_game "g1" "AB12CD" "bob") "r") "g1" "AB12CD" "bob");
    reflexivity.
Defined.

(** X5. An answer whose normal form is empty (such as [The], [s] or [!?])
    is never stored: the submission leaves answers and players as they
    are and closes no round; the server that reads, adds one and saves
    leaves the whole store as it is. *)
Theorem submit_answer_drops_empty_normal_form
    (v : Server) (cat : list string) (s : Store) (c : Call) (gameId answer : string) :
  request c = Req.submit_answer gameId answer ->
  normalizeAnswer answer = "" ->
  answers (serve v cat s c) = answers s /\
  players (serve v cat s c) = players s /\
  roundClosings (snd (run (handler v cat c) s)) = 0 /\
  (v = ReadThenSave -> serve v cat s c = s).
Proof.
  destruct c as [sock req f]. cbn [request socket]. intros -> Hn.
  assert (Hrej : forall l g r p,
             answerRejected l (Answer.mk g r (Player._id p) (Player.username p) answer
                                 (normalizeAnswer answer)) = true).
  { intros. unfold answerRejected. cbn [Answer.normalizedAnswer]. rewrite Hn.
    cbn [String.eqb]. now rewrite !orb_true_r. }
  unfold serve.
  destruct v; cbn [handler Part000.handle Part001.handle socket request fresh].
  - unfold Part000.submit_answer, Part000.sa_player, Part000.sa_round, Part000.sa_save,
      Common.fail.
    cbn [run exec].
    destruct (List.find (gameInProgress gameId) (games s)) as [g|]; cbn [option_map run exec];
      [|repeat split; discriminate].
    cbn [players withGames].
    destruct (List.find _ (players s)) as [p|]; cbn [run exec];
      [|repeat split; discriminate].
    cbn [rounds withGames].
    destruct (List.find _ (rounds s)) as [r|]; cbn [run exec];
      [|repeat split; discriminate].
    cbn [answers withGames]. rewrite Hrej. cbn [run].
    repeat split; discriminate.
  - unfold Part001.submit_answer, Common.fail. cbn [run exec].
    destruct (List.find (gameHasId gameId) (games s)) as [g|]; cbn [run exec];
      [|repeat split].
    destruct (Game.status_eqb (Game.status g) Game.in_progress); cbn [negb run exec];
      [|repeat split].
    destruct (List.find _ (players s)) as [p|]; cbn [run exec]; [|repeat split].
    destruct (List.find _ (rounds s)) as [r|]; cbn [run exec]; [|repeat split].
    rewrite Hrej. cbn [run]. repeat split.
Qed.

Lemma submit_answer_drops_empty_normal_form_witness :
  let s := serveAll ReadThenSave catalog emptyStore twoPlayersStarted in
  serve ReadThenSave catalog s (call "sA" (Req.submit_answer "g1" "The!") "a") = s.
Proof.
  intros s.
  apply (proj2 (proj2 (proj2
           (submit_answer_drops_empty_normal_form ReadThenSave catalog s
              (call "sA" (Req.submit_answer "g1" "The!") "a") "g1" "The!"
              eq_refl eq_refl))) eq_refl).
Defined.

(** ** What holds of the store after any requests *)


Lemma uses_settle ok p : Uses ok p -> Uses ok (snd (settle p)).
Proof.
  induction 1 as [|e k Hk IH|R q k Hq Hk IH]; cbn [settle snd].
  - constructor.
  - destruct (settle k). exact IH.
  - now constructor.
Qed.

Section Invariant.
Variable ok : forall R, Query R -> bool.
Variable P : Store -> Prop.
Hypothesis exec_keeps : forall R (q : Query R) s,
  ok R q = true -> P s -> P (fst (exec q s)).

Lemma uses_run p : Uses ok p -> forall s, P s -> P (fst (run p s)).
Proof.
  induction 1 as [|e k Hk IH|R q k Hq Hk IH]; intros s Hs; cbn [run].
  - exact Hs.
  - specialize (IH s Hs). destruct (run k s). exact IH.
  - pose proof (exec_keeps R q s Hq Hs) as H1.
    destruct (exec q s) as [s1 r]. now apply IH.
Qed.

Lemma uses_resume p s :
  Uses ok p -> P s ->
  P (fst (fst (resume p s))) /\ Uses ok (snd (resume p s)).
Proof.
  intros Hp Hs. destruct Hp as [|e k Hk|R q k Hq Hk]; cbn [resume].
  - split; [exact Hs | constructor].
  - pose proof (uses_settle ok (Emit e k) (Uses_Emit ok e k Hk)) as H.
    destruct (settle (Emit e k)). split; [exact Hs | exact H].
  - pose proof (exec_keeps R q s Hq Hs) as H1. destruct (exec q s) as [s1 r].
    pose proof (uses_settle ok (k r) (Hk r)) as H. destruct (settle (k r)).
    split; [exact H1 | exact H].
Qed.

Lemma uses_interleave schedule : forall w,
  Forall (Uses ok) (pool w) -> P (store w) ->
  P (store (interleave w schedule)).
Proof.
  induction schedule as [|i schedule IH]; intros w Hp Hs; cbn [interleave fold_left].
  - exact Hs.
  - apply IH; unfold turn; destruct (pool w !! i) as [p|] eqn:E; try assumption.
    + assert (Hu : Uses ok p).
      { rewrite Forall_forall in Hp. apply Hp.
        apply list_elem_of_lookup. eauto. }
      destruct (uses_resume p (store w) Hu Hs) as [_ H2].
      destruct (resume p (store w)) as [[s' es] p']. cbn [pool].
      apply Forall_insert; assumption.
    + assert (Hu : Uses ok p).
      { rewrite Forall_forall in Hp. apply Hp.
        apply list_elem_of_lookup. eauto. }
      destruct (uses_resume p (store w) Hu Hs) as [H1 _].
      destruct (resume p (store w)) as [[s' es] p']. exact H1.
Qed.

End Invariant.

(** *** The unique indexes *)





Lemma Game_applyAll_keys us : forall g,
  Game._id (Game.applyAll g us) = Game._id g /\
  Game.roomCode (Game.applyAll g us) = Game.roomCode g /\
  Game.hostId (Game.applyAll g us) = Game.hostId g.
Proof.
  unfold Game.applyAll. induction us as [|u us IH]; intros g; simpl; [auto|].
  destruct (IH (Game.apply g u)) as (H1 & H2 & H3). rewrite H1, H2, H3.
  destruct u; auto.
Qed.

Lemma Player_applyAll_keys us : forall p,
  Player._id (Player.applyAll p us) = Player._id p /\
  Player.gameId (Player.applyAll p us) = Player.gameId p /\
  Player.username (Player.applyAll p us) = Player.username p /\
  Player.score (Player.applyAll p us) = Player.score p.
Proof.
  unfold Player.applyAll. induction us as [|u us IH]; intros p; simpl; [auto|].
  destruct (IH (Player.apply p u)) as (H1 & H2 & H3 & H4). rewrite H1, H2, H3, H4.
  destruct u; auto.
Qed.






(** *** Stored answers *)

Ltac uses :=
  repeat first
    [ apply Uses_Done
    | apply Uses_Emit
    | apply Uses_Await; [first [reflexivity | apply String.eqb_refl] | intros ?]
    | match goal with
      | |- Uses _ (match ?x with _ => _ end) => destruct x
      | |- Uses _ (if ?x then _ else _) => destruct x
      end
    | progress cbv zeta
    | progress unfold Common.fail ].

Lemma generateRoomCode_uses (ok : forall R, Query R -> bool) candidates k :
  (forall code, ok _ (Game_findOne_roomCode code) = true) ->
  (forall c, Uses ok (k c)) -> Uses ok (Common.generateRoomCode candidates k).
Proof.
  intros Hq Hk. induction candidates as [|c more IH]; simpl; [constructor|].
  apply Uses_Await; [apply Hq|]. intros [g|]; [exact IH | apply Hk].
Qed.

Lemma incScores_uses (ok : forall R, Query R -> bool) ids k :
  (forall id, ok _ (Player_incScore_byId id) = true) ->
  Uses ok k -> Uses ok (Part001.incScores ids k).
Proof.
  intros Hq Hk. induction ids as [|id ids IH]; simpl; [exact Hk|].
  apply Uses_Await; [apply Hq|]. intros _. exact IH.
Qed.

Ltac unfold_handlers :=
  unfold Part000.create_game, Part001.create_game, Common.join_game,
    Common.start_game, Common.next_round, Common.remove_player, Common.disconnect,
    Part000.reconnect_game, Part000.submit_answer, Part000.sa_player,
    Part000.sa_round, Part000.sa_save, Part000.sa_count, Part000.sa_close,
    Part000.sa_reset, Part000.sa_broadcast, Part000.sa_complete,
    Part001.submit_answer, Part001.sa_close.

Lemma handler_savesNormalForm v cat c : Uses savesNormalForm (handler v cat c).
Proof.
  destruct c as [sock req f].
  destruct v, req; cbn [handler Part000.handle Part001.handle socket request fresh];
    unfold_handlers;
    try (apply generateRoomCode_uses; [reflexivity | intros ?]);
    uses;
    try (apply incScores_uses; [reflexivity|]; uses).
Qed.

Lemma exec_answers_append R (q : Query R) s :
  savesNormalForm R q = true -> answersTidy s ->
  answersTidy (fst (exec q s)) /\ exists new, answers (fst (exec q s)) = answers s ++ new.
Proof.
  intros Hq Ht.
  assert (Hsame : forall s', answers s' = answers s ->
            answersTidy s' /\ exists new, answers s' = answers s ++ new).
  { intros s' E. unfold answersTidy. rewrite E. split; [exact Ht|].
    exists []. now rewrite app_nil_r. }
  destruct q; cbn [exec];
    try (apply Hsame; reflexivity);
    try (match goal with |- context [if ?b then _ else _] => destruct b eqn:E end;
         apply Hsame; reflexivity).
  destruct (answerRejected (answers s) a) eqn:E; [apply Hsame; reflexivity|].
  cbn [fst answers withAnswers]. split; [|eexists; reflexivity].
  unfold answersTidy. cbn [answers]. apply Forall_app. split; [exact Ht|].
  repeat constructor.
  - cbn [savesNormalForm] in Hq. now apply String.eqb_eq in Hq.
  - unfold answerRejected in E. repeat (apply orb_false_iff in E; destruct E as [E ?]).
    now apply String.eqb_neq.
Qed.

(** X17. Stored answers are never removed or changed, whatever the requests
    and however the handlers interleave: the collection only grows at its
    end, and every answer in it carries the normal form of its text, which
    is not empty. *)
Theorem answers_are_normalized_and_append_only
    (v : Server) (cat : list string) (s : Store) :
  answersTidy s ->
  (forall cs,
      answersTidy (serveAll v cat s cs) /\
      exists new, answers (serveAll v cat s cs) = answers s ++ new) /\
  (forall calls schedule,
      let w := interleave (mkWorld s (map (handler v cat) calls) []) schedule in
      answersTidy (store w) /\ exists new, answers (store w) = answers s ++ new).
Proof.
  intros Ht.
  set (P := fun s' => answersTidy s' /\ exists new, answers s' = answers s ++ new).
  assert (HP : forall R (q : Query R) s', savesNormalForm R q = true -> P s' ->
                 P (fst (exec q s'))).
  { intros R q s' Hq [H1 [new H2]].
    destruct (exec_answers_append R q s' Hq H1) as [H3 [new' H4]].
    split; [exact H3|]. exists (new ++ new'). now rewrite H4, H2, app_assoc. }
  assert (P0 : P s) by (split; [exact Ht | exists []; now rewrite app_nil_r]).
  split.
  - intros cs. change (P (serveAll v cat s cs)).
    generalize s P0. clear P0 Ht. induction cs as [|c cs IH]; intros s0 H0;
      cbn [serveAll fold_left]; [exact H0|].
    apply IH. unfold serve.
    apply (uses_run savesNormalForm P HP _ (handler_savesNormalForm v cat c) _ H0).
  - intros calls schedule.
    apply (uses_interleave savesNormalForm P HP); [|exact P0].
    cbn [pool]. apply Forall_forall. intros p Hp.
    apply list_elem_of_In, in_map_iff in Hp. destruct Hp as (c & <- & _).
    apply handler_savesNormalForm.
Qed.

Lemma answers_are_normalized_and_append_only_witness :
  let s := serveAll ReadThenSave catalog emptyStore twoPlayersStarted in
  answersTidy (serveAll ReadThenSave catalog s (agreeingRound "a")) /\
  exists new, answers (serveAll ReadThenSave catalog s (agreeingRound "a")) = answers s ++ new.
Proof.
  intros s.
  apply (proj1 (answers_are_normalized_and_append_only ReadThenSave catalog s
                  ltac:(constructor))).
Defined.

(** *** Rounds in the server that increments atomically *)

Lemma handler_leavesRoundsOpen cat c :
  Uses leavesRoundsOpen (handler AtomicIncrement cat c).
Proof.
  destruct c as [sock req f].
  destruct req; cbn [handler Part000.handle socket request fresh];
    unfold_handlers;
    try (apply generateRoomCode_uses; [reflexivity | intros ?]);
    uses.
Qed.

Lemma exec_roundsOpen R (q : Query R) s :
  leavesRoundsOpen R q = true -> roundsOpen s -> roundsOpen (fst (exec q s)).
Proof.
  intros Hq H. unfold roundsOpen in *.
  destruct q; cbn [exec]; try discriminate; try exact H;
    try (match goal with |- context [if ?b then _ else _] => destruct b eqn:E end;
         try exact H).
  cbn [fst rounds withRounds]. apply Forall_app. split; [exact H|].
  repeat constructor.
Qed.

(** X18. The server that increments the counter atomically never marks a
    round completed nor records its outcome in the round document, so the
    state its [join_game] sends never carries round results. *)
Theorem atomic_server_leaves_rounds_open (cat : list string) (s : Store) :
  roundsOpen s ->
  (forall cs, roundsOpen (serveAll AtomicIncrement cat s cs)) /\
  (forall c roomCode username,
      request c = Req.join_game roomCode username ->
      existsb joinedWithResults (snd (run (handler AtomicIncrement cat c) s)) = false).
Proof.
  intros H. split.
  - intros cs. revert s H. induction cs as [|c cs IH]; intros s H;
      cbn [serveAll fold_left]; [exact H|].
    apply IH. unfold serve.
    apply (uses_run leavesRoundsOpen roundsOpen exec_roundsOpen _
             (handler_leavesRoundsOpen cat c) _ H).
  - intros [sock req f] roomCode username. cbn [request]. intros ->.
    cbn [handler Part000.handle socket request fresh].
    unfold Common.join_game, Common.fail. cbn [run exec].
    destruct (List.find _ (games s)) as [g|]; cbn [run exec]; [|reflexivity].
    assert (Hround : forall rs, rs = rounds s ->
              match List.find (roundIs (Game._id g) (Game.currentRound g)) rs with
              | Some r => Round.status r = Round.collecting_answers
              | None => True
              end).
    { intros rs ->. destruct (List.find _ (rounds s)) as [r|] eqn:E; [|exact I].
      apply find_some in E. destruct E as [E _].
      unfold roundsOpen in H. rewrite Forall_forall in H.
      apply list_elem_of_In in E. now apply H in E. }
    destruct (List.find _ (players s)) as [p|]; cbn [run exec].
    + cbn [rounds withPlayers].
      specialize (Hround _ eq_refl).
      destruct (List.find _ (rounds s)) as [r|]; [rewrite Hround|]; reflexivity.
    + destruct (Game.status_eqb (Game.status g) Game.waiting); cbn [negb run exec];
        [|reflexivity].
      destruct (_ || _); cbn [run exec]; [reflexivity|].
      cbn [rounds withPlayers].
      specialize (Hround _ eq_refl).
      destruct (List.find _ (rounds s)) as [r|]; [rewrite Hround|]; reflexivity.
Qed.

Lemma atomic_server_leaves_rounds_open_witness :
  roundsOpen (serveAll AtomicIncrement catalog emptyStore playedToTheEnd).
Proof.
  apply (proj1 (atomic_server_leaves_rounds_open catalog emptyStore ltac:(constructor))).
Defined.

(** *** A game is completed only on a win *)

Lemma In_updateFirst_inv {A} (p : A -> bool) f (l : list A) y :
  In y (updateFirst p f l) -> In y l \/ exists x, In x l /\ p x = true /\ y = f x.
Proof.
  induction l as [|a l IH]; cbn [updateFirst]; [intros []|].
  destruct (p a) eqn:E.
  - intros [<-|H]; [right; exists a; repeat split; auto; now left | left; now right].
  - intros [<-|H]; [left; now left|].
    destruct (IH H) as [H1|(x & H1 & H2 & H3)]; [left; now right|].
    right. exists x. repeat split; auto. now right.
Qed.

Lemma In_updateFirst_fwd {A} (p : A -> bool) f (l : list A) x :
  In x l -> In x (updateFirst p f l) \/ In (f x) (updateFirst p f l).
Proof.
  induction l as [|a l IH]; cbn [updateFirst]; [intros []|].
  destruct (p a) eqn:E.
  - intros [<-|H]; [right; now left | left; now right].
  - intros [<-|H]; [left; now left|].
    destruct (IH H); [left | right]; now right.
Qed.

Lemma In_updateAll_fwd {A} (p : A -> bool) f (l : list A) x :
  In x l -> In x (updateAll p f l) \/ In (f x) (updateAll p f l).
Proof.
  unfold updateAll. intros H.
  destruct (p x) eqn:E; [right | left]; apply in_map_iff; exists x;
    rewrite E; auto.
Qed.

(** No operation removes a player, moves one to another game or takes a
    point away. *)
Lemma exec_players_stay R (q : Query R) s p :
  In p (players s) ->
  exists p', In p' (players (fst (exec q s))) /\
             Player.gameId p' = Player.gameId p /\ Player.score p <= Player.score p'.
Proof.
  intros Hp.
  assert (Hsame : forall s', players s' = players s ->
            exists p', In p' (players s') /\
                       Player.gameId p' = Player.gameId p /\
                       Player.score p <= Player.score p').
  { intros s' E. exists p. rewrite E. auto. }
  assert (Hupd : forall (l : list Player.t) f,
            (In p l \/ In (f p) l) ->
            (Player.gameId (f p) = Player.gameId p /\ Player.score p <= Player.score (f p)) ->
            exists p', In p' l /\ Player.gameId p' = Player.gameId p /\
                       Player.score p <= Player.score p').
  { intros l f [H|H] [H1 H2]; [exists p | exists (f p)]; auto. }
  destruct q; cbn [exec];
    try (apply Hsame; reflexivity);
    try (match goal with |- context [if ?b then _ else _] => destruct b eqn:E end;
         try (apply Hsame; reflexivity));
    cbn [fst players withPlayers].
  - exists p. split; [apply in_or_app; now left | auto].
  - apply (Hupd _ _ (In_updateFirst_fwd _ (fun p => Player.applyAll p us) _ p Hp)).
    destruct (Player_applyAll_keys us p) as (_ & -> & _ & ->). auto.
  - apply (Hupd _ _ (In_updateFirst_fwd _
             (fun p => Player.apply p (Player.set_isConnected false)) _ p Hp)).
    auto.
  - apply (Hupd _ _ (In_updateAll_fwd _ Player.incScore _ p Hp)). cbn. auto.
  - apply (Hupd _ _ (In_updateFirst_fwd _ Player.incScore _ p Hp)). cbn. auto.
Qed.

Lemma applyAll_not_completed us : forall g,
  forallb (fun u => match u with
                    | Game.set_status s => negb (Game.status_eqb s Game.completed)
                    | _ => true
                    end) us = true ->
  Game.status (Game.applyAll g us) = Game.completed -> Game.status g = Game.completed.
Proof.
  unfold Game.applyAll. induction us as [|u us IH]; intros g H; simpl in *; [auto|].
  apply andb_true_iff in H. destruct H as [Hu Hus]. intros Hc.
  specialize (IH _ Hus Hc). destruct u; try exact IH.
  cbn in IH. subst s. discriminate.
Qed.

(** An operation that does not write [completed] completes no game. *)
Lemma exec_no_new_completed R (q : Query R) s g' :
  writesNoCompletion R q = true ->
  In g' (games (fst (exec q s))) -> Game.status g' = Game.completed ->
  exists g, In g (games s) /\ Game._id g = Game._id g' /\ Game.status g = Game.completed.
Proof.
  intros Hq Hin Hc.
  assert (Hsame : forall s', games s' = games s -> In g' (games s') ->
            exists g, In g (games s) /\ Game._id g = Game._id g' /\
                      Game.status g = Game.completed).
  { intros s' E H. exists g'. rewrite <- E. auto. }
  revert Hin. destruct q; cbn [exec];
    try (apply Hsame; reflexivity);
    try (match goal with |- context [if ?b then _ else _] => destruct b eqn:E end;
         try (apply Hsame; reflexivity));
    cbn [fst games withGames]; intros Hin.
  - apply in_app_or in Hin. destruct Hin as [Hin|[<-|[]]]; [|discriminate].
    exists g'. auto.
  - apply In_updateFirst_inv in Hin. destruct Hin as [Hin|(g & Hin & _ & ->)].
    + exists g'. auto.
    + exists g. split; [exact Hin|]. split.
      * symmetry. apply Game_applyAll_keys.
      * now apply (applyAll_not_completed us).
  - apply In_updateFirst_inv in Hin. destruct Hin as [Hin|(g & Hin & _ & ->)].
    + exists g'. auto.
    + exists g. auto.
Qed.

Lemma exec_wonByEight R (q : Query R) s :
  writesNoCompletion R q = true -> wonByEight s -> wonByEight (fst (exec q s)).
Proof.
  intros Hq H g' Hin Hc.
  destruct (exec_no_new_completed R q s g' Hq Hin Hc) as (g & Hg & Hid & Hst).
  destruct (H g Hg Hst) as (p & Hp & Hpg & Hps).
  destruct (exec_players_stay R q s p Hp) as (p' & Hp' & Hg' & Hs').
  exists p'. split; [exact Hp'|]. split; [congruence | lia].
Qed.

Lemma keeps_Done : KeepsWonByEight Done.
Proof. intros s H. exact H. Qed.

Lemma keeps_Emit e k : KeepsWonByEight k -> KeepsWonByEight (Emit e k).
Proof. intros Hk s H. cbn [run]. specialize (Hk s H). now destruct (run k s). Qed.

Lemma keeps_Await R (q : Query R) k :
  writesNoCompletion R q = true -> (forall r, KeepsWonByEight (k r)) ->
  KeepsWonByEight (Await q k).
Proof.
  intros Hq Hk s H. cbn [run].
  pose proof (exec_wonByEight R q s Hq H) as H1.
  destruct (exec q s) as [s1 r]. now apply Hk.
Qed.

Lemma keeps_findById gameId k :
  KeepsWonByEight (k None) ->
  (forall g, Game._id g = gameId -> KeepsWonByEight (k (Some g))) ->
  KeepsWonByEight (Await (Game_findById gameId) k).
Proof.
  intros Hn Hs s H. cbn [run exec].
  destruct (List.find (gameHasId gameId) (games s)) as [g|] eqn:E; [|now apply Hn].
  apply Hs; [|exact H]. apply find_some in E. destruct E as [_ E].
  now apply String.eqb_eq in E.
Qed.

(** Writing [completed] keeps the invariant when a player of the game has
    the points. *)
Lemma complete_with_winner s gameId w :
  wonByEight s -> In w (players s) -> Player.gameId w = gameId -> 8 <= Player.score w ->
  wonByEight (fst (exec (Game_update gameId [Game.set_status Game.completed]) s)).
Proof.
  intros H Hw Hg Hs g' Hin Hc. cbn [exec fst games players withGames] in *.
  apply In_updateFirst_inv in Hin. destruct Hin as [Hin|(g & Hin & Hp & ->)].
  - now apply H.
  - exists w. split; [exact Hw|]. split; [|exact Hs].
    unfold gameHasId in Hp. apply String.eqb_eq in Hp. cbn. congruence.
Qed.

Lemma declareWinner_In l holder w :
  declareWinner l holder = Some w -> In w l /\ 8 <= Player.score w.
Proof.
  unfold declareWinner.
  destruct (potentialWinners l holder) as [|first rest] eqn:E; [discriminate|].
  intros [= <-].
  destruct (keepHigher_fold rest first _ eq_refl) as (l1 & l2 & Heq & _).
  assert (Hin : In (fold_left keepHigher rest first) (potentialWinners l holder)).
  { rewrite E, Heq. apply in_or_app. right. now left. }
  apply potentialWinners_iff in Hin. destruct Hin as [H1 [H2 _]]. auto.
Qed.

Lemma sa_broadcast_keeps gameId game results holder :
  KeepsWonByEight (Part000.sa_broadcast gameId game results holder).
Proof.
  intros s H. unfold Part000.sa_broadcast, Part000.sa_complete. cbn [run exec].
  destruct (declareWinner _ holder) as [w|] eqn:E; cbn [run]; [|exact H].
  apply declareWinner_In in E. destruct E as [Hin Hs].
  apply filter_In in Hin. destruct Hin as [Hin Hg].
  pose proof (complete_with_winner s gameId w H Hin
                (proj1 (String.eqb_eq _ _) Hg) Hs) as H1.
  destruct (exec (Game_update gameId [Game.set_status Game.completed]) s) as [s1 r].
  exact H1.
Qed.

Lemma part001_win_check_keeps gameId game results holder :
  Game._id game = gameId ->
  KeepsWonByEight
    (Await (Player_find gameId) (fun updatedPlayers =>
       let winner := findWinner updatedPlayers holder in
       Emit (to_room (Game.roomCode game)
               (Msg.round_completed_with results holder updatedPlayers winner))
         match winner with
         | Some _ => Await (Game_update (Game._id game) [Game.set_status Game.completed])
                       (fun _ => Done)
         | None => Done
         end)).
Proof.
  intros Hid s H. cbn [run exec]. cbv zeta.
  destruct (findWinner _ holder) as [w|] eqn:E; cbn [run]; [|exact H].
  unfold findWinner in E. apply find_some in E. destruct E as [Hin Hw].
  apply filter_In in Hin. destruct Hin as [Hin Hg].
  unfold checkWinCondition in Hw. apply andb_prop in Hw. destruct Hw as [Hw _].
  apply Nat.leb_le in Hw. rewrite Hid.
  pose proof (complete_with_winner s gameId w H Hin
                (proj1 (String.eqb_eq _ _) Hg) Hw) as H1.
  destruct (exec (Game_update gameId [Game.set_status Game.completed]) s) as [s1 r].
  exact H1.
Qed.

Lemma incScores_keeps ids k :
  KeepsWonByEight k -> KeepsWonByEight (Part001.incScores ids k).
Proof.
  intros Hk. induction ids as [|id ids IH]; simpl; [exact Hk|].
  apply keeps_Await; [reflexivity|]. intros _. exact IH.
Qed.

Lemma generateRoomCode_keeps candidates k :
  (forall c, KeepsWonByEight (k c)) ->
  KeepsWonByEight (Common.generateRoomCode candidates k).
Proof.
  intros Hk. induction candidates as [|c more IH]; simpl; [apply keeps_Done|].
  apply keeps_Await; [reflexivity|]. intros [g|]; [exact IH | apply Hk].
Qed.

Ltac keeps :=
  repeat first
    [ apply keeps_Done
    | apply keeps_Emit
    | apply sa_broadcast_keeps
    | apply part001_win_check_keeps; first [assumption | cbn; assumption]
    | apply keeps_Await; [reflexivity | intros ?]
    | match goal with
      | |- KeepsWonByEight (match ?x with _ => _ end) => destruct x
      | |- KeepsWonByEight (if ?x then _ else _) => destruct x
      end
    | progress cbv zeta
    | progress unfold Common.fail ].

Lemma part001_submit_answer_keeps sock gameId answer :
  KeepsWonByEight (Part001.submit_answer sock gameId answer).
Proof.
  unfold Part001.submit_answer. apply keeps_findById; [keeps|].
  intros g Hid. unfold Part001.sa_close. keeps.
  apply incScores_keeps. keeps.
Qed.

Lemma handler_keeps_wonByEight v cat c : KeepsWonByEight (handler v cat c).
Proof.
  destruct c as [sock req f].
  destruct v, req; cbn [handler Part000.handle Part001.handle socket request fresh];
    try apply part001_submit_answer_keeps;
    unfold Part000.create_game, Part001.create_game, Common.join_game,
      Common.start_game, Common.next_round, Common.remove_player, Common.disconnect,
      Part000.reconnect_game, Part000.submit_answer, Part000.sa_player,
      Part000.sa_round, Part000.sa_save, Part000.sa_count, Part000.sa_close,
      Part000.sa_reset;
    try (apply generateRoomCode_keeps; intros ?);
    keeps.
Qed.

(** X19. A game is marked completed only on a win: after any requests, in
    either server file, every completed game has a player with 8 points or
    more. *)
Theorem completed_games_have_a_winner
    (v : Server) (cat : list string) (s : Store) (cs : list Call) :
  wonByEight s -> wonByEight (serveAll v cat s cs).
Proof.
  revert s. induction cs as [|c cs IH]; intros s H; cbn [serveAll fold_left];
    [exact H|].
  apply IH. unfold serve. now apply handler_keeps_wonByEight.
Qed.

Lemma completed_games_have_a_winner_witness :
  wonByEight (serveAll AtomicIncrement catalog emptyStore playedToTheEnd).
Proof.
  apply (completed_games_have_a_winner AtomicIncrement catalog emptyStore playedToTheEnd).
  intros g [].
Defined.

(** ** Room codes *)

Lemma get_In (s : string) : forall i,
  i < String.length s ->
  exists c, String.get i s = Some c /\ In c (list_ascii_of_string s).
Proof.
  induction s as [|a s IH]; intros i Hi; [simpl in Hi; lia|].
  destruct i as [|i]; cbn [String.get list_ascii_of_string].
  - exists a. split; [reflexivity | now left].
  - destruct (IH i) as (c & Hc & Hin); [simpl in Hi; lia|].
    exists c. split; [exact Hc | now right].
Qed.

Lemma charAt_In (s : string) i :
  i < String.length s ->
  exists c, charAt s i = String c "" /\ In c (list_ascii_of_string s).
Proof.
  intros Hi. destruct (get_In s i Hi) as (c & Hc & Hin).
  exists c. unfold charAt. now rewrite Hc.
Qed.

Lemma characters_length : String.length characters = 36.
Proof. reflexivity. Qed.

Lemma drawRoomCode_shape (random : nat -> nat) :
  exists c0 c1 c2 c3 c4 c5,
    drawRoomCode random = String c0 (String c1 (String c2 (String c3 (String c4 (String c5 ""))))) /\
    Forall (fun c => In c (list_ascii_of_string characters)) [c0; c1; c2; c3; c4; c5].
Proof.
  assert (H : forall i, exists c, charAt characters (random i mod String.length characters)
                                  = String c "" /\ In c (list_ascii_of_string characters)).
  { intros i. apply charAt_In. rewrite characters_length.
    apply Nat.mod_upper_bound. discriminate. }
  unfold drawRoomCode. cbn [seq fold_left].
  generalize dependent (String.length characters). intros n H.
  destruct (H 0) as (c0 & E0 & H0), (H 1) as (c1 & E1 & H1), (H 2) as (c2 & E2 & H2),
    (H 3) as (c3 & E3 & H3), (H 4) as (c4 & E4 & H4), (H 5) as (c5 & E5 & H5).
  rewrite E0, E1, E2, E3, E4, E5.
  exists c0, c1, c2, c3, c4, c5. split; [reflexivity|].
  repeat (constructor; [assumption|]). constructor.
Qed.

(** X21. A drawn room code has six characters, each a capital letter or a
    digit. *)
Theorem drawRoomCode_six_capitals_or_digits (random : nat -> nat) :
  String.length (drawRoomCode random) = 6 /\
  Forall (fun c => In c (list_ascii_of_string characters))
    (list_ascii_of_string (drawRoomCode random)).
Proof.
  destruct (drawRoomCode_shape random) as (c0 & c1 & c2 & c3 & c4 & c5 & -> & H).
  split; [reflexivity | exact H].
Qed.

Lemma find_roomCode_free s code :
  List.find (fun g => String.eqb (Game.roomCode g) code) (games s) = None <->
  codeIsFree s code = true.
Proof.
  unfold codeIsFree. rewrite negb_true_iff.
  induction (games s) as [|g l IH]; cbn [List.find existsb]; [tauto|].
  destruct (String.eqb (Game.roomCode g) code); cbn [orb]; [split; discriminate | exact IH].
Qed.

(** While it looks for a free code [generateRoomCode] goes past the codes
    in use. *)
Lemma generateRoomCode_skips_taken code more k s :
  codeIsFree s code = false ->
  run (Common.generateRoomCode (code :: more) k) s
  = run (Common.generateRoomCode more k) s.
Proof.
  intros F. cbn [Common.generateRoomCode run exec].
  destruct (List.find (fun g => String.eqb (Game.roomCode g) code) (games s)) as [g|] eqn:E;
    [reflexivity|].
  apply find_roomCode_free in E. congruence.
Qed.

Lemma generateRoomCode_takes_free code more k s :
  codeIsFree s code = true ->
  run (Common.generateRoomCode (code :: more) k) s = run (k code) s.
Proof.
  intros F. cbn [Common.generateRoomCode run exec].
  apply find_roomCode_free in F. now rewrite F.
Qed.

Lemma generateRoomCode_finds candidates k s roomCode :
  List.find (codeIsFree s) candidates = Some roomCode ->
  run (Common.generateRoomCode candidates k) s = run (k roomCode) s.
Proof.
  induction candidates as [|code more IH]; cbn [List.find]; [discriminate|].
  destruct (codeIsFree s code) eqn:F.
  - intros [= <-]. now apply generateRoomCode_takes_free.
  - intros H. rewrite generateRoomCode_skips_taken by exact F. now apply IH.
Qed.


(** X23. [create_game] with a drawn code that is free opens a room in the
    waiting state whose host is the sender, with the sender as its only
    player at score 0, and tells the sender alone. *)
Theorem create_game_opens_a_waiting_room
    (v : Server) (cat : list string) (s : Store) (c : Call) (username roomCode : string)
    (draws : list (nat -> nat)) :
  request c = Req.create_game username ->
  roomCodes (fresh c) = map drawRoomCode draws ->
  List.find (codeIsFree s) (roomCodes (fresh c)) = Some roomCode ->
  socket c <> "" -> username <> "" ->
  List.filter (playerInGame (newGameId (fresh c))) (players s) = [] ->
  let game := Game.mk (newGameId (fresh c)) roomCode (socket c) Game.waiting 0 None 0 None [] in
  let host := Player.mk (newPlayerId (fresh c)) (newGameId (fresh c)) username true 0 true
                (socket c) in
  fst (run (handler v cat c) s)
    = mkStore (games s ++ [game]) (players s ++ [host]) (rounds s) (answers s) /\
  exists playerId,
    snd (run (handler v cat c) s)
    = [socket_join (socket c) roomCode;
       to_socket (socket c) (Msg.game_created (newGameId (fresh c)) roomCode playerId)].
Proof.
  destruct c as [sock req f]. cbn [request socket fresh].
  intros -> Hdraw Hfree Hsock Hname Hnew. cbv zeta.
  assert (Hcode : String.eqb roomCode "" = false).
  { apply find_some in Hfree. destruct Hfree as [Hin _]. rewrite Hdraw in Hin.
    apply in_map_iff in Hin. destruct Hin as (random & <- & _).
    destruct (drawRoomCode_shape random) as (c0 & c1 & c2 & c3 & c4 & c5 & -> & _).
    reflexivity. }
  assert (Hfree' : existsb (fun g => String.eqb (Game.roomCode g) roomCode) (games s) = false).
  { apply find_some in Hfree. destruct Hfree as [_ Hf]. unfold codeIsFree in Hf.
    now apply negb_true_iff in Hf. }
  assert (Hplayers : existsb (fun p => playerInGame (newGameId f) p &&
                                       String.eqb (Player.username p) username)
                       (players s) = false).
  { apply not_true_iff_false. intros H. apply existsb_exists in H.
    destruct H as (p & Hp & Hq). apply andb_prop in Hq. destruct Hq as [Hq _].
    assert (In p (List.filter (playerInGame (newGameId f)) (players s)))
      by (apply filter_In; auto).
    rewrite Hnew in H. destruct H. }
  destruct v; cbn [handler Part000.handle Part001.handle socket request fresh];
    unfold Part000.create_game, Part001.create_game;
    rewrite (generateRoomCode_finds _ _ _ _ Hfree); cbn [run exec];
    rewrite Hcode, (proj2 (String.eqb_neq _ _) Hsock), Hfree'; cbn [orb run exec];
    cbn [players withGames Game._id];
    rewrite (proj2 (String.eqb_neq _ _) Hname), Hplayers; cbn [orb run exec fst snd];
    (split; [reflexivity | eexists; reflexivity]).
Qed.

Lemma create_game_opens_a_waiting_room_witness :
  fst (run (handler AtomicIncrement catalog (call "sA" (Req.create_game "alice") "1"))
         emptyStore)
  = mkStore [Game.mk "g1" "AB12CD" "sA" Game.waiting 0 None 0 None []]
            [Player.mk "p1" "g1" "alice" true 0 true "sA"] [] [].
Proof.
  apply (proj1 (create_game_opens_a_waiting_room AtomicIncrement catalog emptyStore
                  (call "sA" (Req.create_game "alice") "1") "alice" "AB12CD"
                  [fun i => nth i [0; 1; 27; 28; 2; 3] 0]
                  eq_refl eq_refl eq_refl ltac:(discriminate) ltac:(discriminate)
                  eq_refl)).
Defined.

(** ** Moving to the next round *)

Lemma find_existsb_false {A} (p : A -> bool) (l : list A) :
  List.find p l = None -> existsb p l = false.
Proof.
  induction l as [|x l IH]; cbn [List.find existsb]; [reflexivity|].
  destruct (p x); [discriminate | exact IH].
Qed.

(** X26. [next_round], sent by the host while the game is in progress, adds
    one to the round number, opens the round of that number and asks a
    prompt the game has not used as long as the catalog holds one; the
    players, their scores and the [playersAnswered] counter are left as
    they are. *)
Theorem next_round_opens_the_next_round_with_an_unused_prompt
    (v : Server) (cat : list string) (s : Store) (c : Call)
    (gameId : string) (g : Game.t) (q0 : string) :
  request c = Req.next_round gameId ->
  findGame s gameId = Some g ->
  Game.status g = Game.in_progress ->
  Game.hostId g = socket c ->
  findRound s gameId (Game.currentRound g + 1) = None ->
  In q0 cat -> ~ In (Some q0) (Game.usedQuestions g) ->
  exists q,
    In q cat /\ ~ In (Some q) (Game.usedQuestions g) /\
    findGame (serve v cat s c) gameId
      = Some (Game.mk (Game._id g) (Game.roomCode g) (Game.hostId g) Game.in_progress
                (Game.currentRound g + 1) (Some q) (Game.playersAnswered g)
                (Game.pinkCowHolder g) (Game.usedQuestions g ++ [Some q])) /\
    rounds (serve v cat s c)
      = rounds s ++ [Round.mk (newRoundId (fresh c)) gameId (Game.currentRound g + 1)
                       Round.collecting_answers None None] /\
    players (serve v cat s c) = players s /\
    answers (serve v cat s c) = answers s /\
    snd (run (handler v cat c) s)
      = [to_room (Game.roomCode g) (Msg.next_round (Game.currentRound g + 1) (Some q))].
Proof.
  destruct c as [sock req f]. cbn [request socket fresh].
  intros -> Hfind Hst Hhost Hround Hin Hnew.
  assert (Hdraw : exists q,
            getRandomQuestion cat (random f) (Game.usedQuestions g) = Some q /\
            In q cat /\ ~ In (Some q) (Game.usedQuestions g)).
  { unfold getRandomQuestion.
    set (unused := fun q => negb (existsb _ (Game.usedQuestions g))).
    assert (Hq0 : In q0 (List.filter unused cat)).
    { apply filter_In. split; [exact Hin | now apply unused_iff]. }
    destruct (List.filter unused cat) as [|a available] eqn:E; [destruct Hq0|].
    destruct (nth_error_mod (a :: available) (random f) ltac:(discriminate))
      as (q & Hq & Hm).
    exists q. split; [exact Hq|].
    rewrite <- E in Hm. apply filter_In in Hm. destruct Hm as [H1 H2].
    split; [exact H1 | now apply unused_iff]. }
  destruct Hdraw as (q & Hq & Hq1 & Hq2).
  exists q. split; [exact Hq1|]. split; [exact Hq2|].
  assert (Hid : Game._id g = gameId).
  { unfold findGame in Hfind. apply find_some in Hfind. destruct Hfind as [_ H].
    now apply String.eqb_eq in H. }
  unfold findRound in Hround. apply find_existsb_false in Hround.
  assert (Hrun : run (Common.next_round cat sock gameId f) s
    = (mkStore (updateFirst (gameHasId gameId)
                  (fun g0 => Game.applyAll g0
                     [Game.set_currentRound (Game.currentRound g + 1);
                      Game.set_currentQuestion (Some q);
                      Game.set_usedQuestions (Game.usedQuestions g ++ [Some q])])
                  (games s))
         (players s)
         (rounds s ++ [Round.mk (newRoundId f) gameId (Game.currentRound g + 1)
                         Round.collecting_answers None None])
         (answers s),
       [to_room (Game.roomCode g) (Msg.next_round (Game.currentRound g + 1) (Some q))])).
  { unfold Common.next_round. cbn [run exec]. unfold findGame in Hfind. rewrite Hfind.
    rewrite Hst, Hhost, String.eqb_refl. cbn [Game.status_eqb negb run exec].
    rewrite Hround. cbn [run exec]. rewrite Hq, Hid. reflexivity. }
  assert (Hgame : findGame (fst (run (Common.next_round cat sock gameId f) s)) gameId
            = Some (Game.mk (Game._id g) (Game.roomCode g) (Game.hostId g) Game.in_progress
                      (Game.currentRound g + 1) (Some q) (Game.playersAnswered g)
                      (Game.pinkCowHolder g) (Game.usedQuestions g ++ [Some q]))).
  { rewrite Hrun. cbn [fst]. unfold findGame. cbn [games].
    rewrite (updateFirst_find _ _ _ g Hfind).
    - cbn. now rewrite Hst.
    - cbn. unfold gameHasId. cbn. rewrite Hid. apply String.eqb_refl. }
  unfold serve.
  destruct v; cbn [handler Part000.handle Part001.handle socket request fresh];
    (split; [exact Hgame|]); rewrite Hrun; repeat split.
Qed.

Lemma next_round_opens_the_next_round_with_an_unused_prompt_witness :
  let s := serveAll ReadThenSave catalog emptyStore twoPlayersStarted in
  rounds (serve ReadThenSave catalog s (call "sA" (Req.next_round "g1") "n2"))
  = rounds s ++ [Round.mk "rn2" "g1" 2 Round.collecting_answers None None].
Proof.
  intros s.
  pose proof (next_round_opens_the_next_round_with_an_unused_prompt ReadThenSave catalog s
                (call "sA" (Req.next_round "g1") "n2") "g1"
                (Game.mk "g1" "AB12CD" "sA" Game.in_progress 1 (Some "Name an animal") 0
                   None [Some "Name an animal"])
                "Name a fruit" eq_refl ltac:(vm_compute; reflexivity) eq_refl eq_refl
                ltac:(vm_compute; reflexivity) (or_intror (or_introl eq_refl))
                ltac:(intros [H|[]]; discriminate)) as H.
  destruct H as (q & _ & _ & _ & Hr & _). exact Hr.
Defined.

(** ** Cleaning up old games *)

Section Cleanup.
Variable createdAt : Game.t -> Z.
Variable oneWeekAgo : Z.

Lemma in_oldGameIds s id :
  In id (oldGameIds createdAt oneWeekAgo s) <->
  exists g, In g (games s) /\ (createdAt g < oneWeekAgo)%Z /\ Game._id g = id.
Proof.
  unfold oldGameIds. rewrite in_map_iff. split.
  - intros (g & Hid & Hg). apply filter_In in Hg. destruct Hg as [Hg Ho].
    apply Z.ltb_lt in Ho. eauto.
  - intros (g & Hg & Ho & Hid). exists g. split; [exact Hid|].
    apply filter_In. split; [exact Hg | now apply Z.ltb_lt].
Qed.

Lemma among_oldGameIds s id :
  existsb (String.eqb id) (oldGameIds createdAt oneWeekAgo s) = false <->
  ~ In id (oldGameIds createdAt oneWeekAgo s).
Proof.
  rewrite <- not_true_iff_false, existsb_exists. split; intros H H'; apply H.
  - exists id. split; [exact H' | apply String.eqb_refl].
  - destruct H' as (x & Hx & E). apply String.eqb_eq in E. now subst x.
Qed.

Lemma filter_all {A} (f : A -> bool) (l : list A) :
  (forall x, In x l -> f x = true) -> List.filter f l = l.
Proof.
  induction l as [|x l IH]; intros H; cbn [List.filter]; [reflexivity|].
  rewrite (H x (or_introl eq_refl)), IH; [reflexivity|].
  intros y Hy. apply H. now right.
Qed.

(** The function written with one filter per collection, also when there
    is nothing to remove. *)
Lemma cleanupOldGames_filters s :
  let gone id := existsb (String.eqb id) (oldGameIds createdAt oneWeekAgo s) in
  cleanupOldGames createdAt oneWeekAgo s
  = mkStore (List.filter (fun g => negb (gone (Game._id g))) (games s))
            (List.filter (fun p => negb (gone (Player.gameId p))) (players s))
            (List.filter (fun r => negb (gone (Round.gameId r))) (rounds s))
            (answers s).
Proof.
  cbv zeta. unfold cleanupOldGames. fold (oldGameIds createdAt oneWeekAgo s).
  destruct (oldGameIds createdAt oneWeekAgo s) as [|id ids]; [|reflexivity].
  cbn [existsb negb]. rewrite !filter_all by reflexivity. now destruct s.
Qed.

(** X24. After the cleanup no game created before the cutoff is left, nor a
    player or a round of such a game; nothing else is added or changed,
    answers are not touched (those of a removed game stay behind), and a
    second cleanup with the same cutoff changes nothing. *)
Theorem cleanupOldGames_removes_old_games_with_players_and_rounds (s : Store) :
  let s' := cleanupOldGames createdAt oneWeekAgo s in
  (forall g, In g (games s') -> In g (games s) /\ (oneWeekAgo <= createdAt g)%Z) /\
  (forall p, In p (players s') ->
     In p (players s) /\ ~ In (Player.gameId p) (oldGameIds createdAt oneWeekAgo s)) /\
  (forall r, In r (rounds s') ->
     In r (rounds s) /\ ~ In (Round.gameId r) (oldGameIds createdAt oneWeekAgo s)) /\
  answers s' = answers s /\
  cleanupOldGames createdAt oneWeekAgo s' = s'.
Proof.
  cbv zeta. rewrite cleanupOldGames_filters.
  set (s' := mkStore _ _ _ _).
  assert (Hg : forall g, In g (games s') ->
                 In g (games s) /\ (oneWeekAgo <= createdAt g)%Z).
  { intros g Hin. apply filter_In in Hin. destruct Hin as [Hin Hn].
    split; [exact Hin|]. apply negb_true_iff, among_oldGameIds in Hn.
    destruct (Z.lt_ge_cases (createdAt g) oneWeekAgo) as [Hlt|Hge]; [|exact Hge].
    exfalso. apply Hn, in_oldGameIds. eauto. }
  split; [exact Hg|]. split; [|split; [|split; [reflexivity|]]].
  - intros p Hin. apply filter_In in Hin. destruct Hin as [Hin Hn].
    split; [exact Hin|]. now apply negb_true_iff, among_oldGameIds in Hn.
  - intros r Hin. apply filter_In in Hin. destruct Hin as [Hin Hn].
    split; [exact Hin|]. now apply negb_true_iff, among_oldGameIds in Hn.
  - unfold cleanupOldGames.
    assert (E : List.filter (fun g => (createdAt g <? oneWeekAgo)%Z) (games s') = []).
    { destruct (List.filter _ (games s')) as [|g l] eqn:E; [reflexivity|]. exfalso.
      assert (Hin : In g (List.filter (fun g => (createdAt g <? oneWeekAgo)%Z) (games s')))
        by (rewrite E; now left).
      apply filter_In in Hin. destruct Hin as [Hin Ho]. apply Z.ltb_lt in Ho.
      apply Hg in Hin. lia. }
    rewrite E. reflexivity.
Qed.

(** X25. With one game per identifier, the cleanup removes the games created
    before the cutoff and no other: the games of the cutoff date or later
    stay, in their order, each with its players and rounds. *)
Theorem cleanupOldGames_keeps_recent_games (s : Store) :
  NoDup (map Game._id (games s)) ->
  let s' := cleanupOldGames createdAt oneWeekAgo s in
  games s' = List.filter (fun g => negb (createdAt g <? oneWeekAgo)%Z) (games s) /\
  (forall g p, In g (games s') -> In p (players s) -> Player.gameId p = Game._id g ->
               In p (players s')) /\
  (forall g r, In g (games s') -> In r (rounds s) -> Round.gameId r = Game._id g ->
               In r (rounds s')).
Proof.
  intros Hnd. cbv zeta. rewrite cleanupOldGames_filters.
  cbn [games players rounds].
  assert (Hold : forall g, In g (games s) ->
            existsb (String.eqb (Game._id g)) (oldGameIds createdAt oneWeekAgo s)
            = (createdAt g <? oneWeekAgo)%Z).
  { intros g Hg. destruct (createdAt g <? oneWeekAgo)%Z eqn:E.
    - apply existsb_exists. exists (Game._id g). split; [|apply String.eqb_refl].
      apply in_oldGameIds. exists g. apply Z.ltb_lt in E. auto.
    - apply among_oldGameIds. intros Hin. apply in_oldGameIds in Hin.
      destruct Hin as (g' & Hg' & Ho & Hid).
      assert (g' = g); [|subst g'; apply Z.ltb_ge in E; lia].
      clear -Hnd Hg Hg' Hid. induction (games s) as [|a l IH]; [destruct Hg|].
      cbn [map] in Hnd. apply NoDup_cons in Hnd. destruct Hnd as [Ha Hl].
      assert (Hmem : forall x, In x l -> Game._id x ∈ map Game._id l).
      { intros x Hx. apply list_elem_of_In, in_map, Hx. }
      destruct Hg as [<-|Hg], Hg' as [<-|Hg']; auto.
      + exfalso. apply Ha. rewrite <- Hid. auto.
      + exfalso. apply Ha. rewrite Hid. auto. }
  assert (Hkept : forall g, In g (List.filter
                     (fun g => negb (existsb (String.eqb (Game._id g))
                                       (oldGameIds createdAt oneWeekAgo s))) (games s)) ->
            ~ In (Game._id g) (oldGameIds createdAt oneWeekAgo s)).
  { intros g Hin. apply filter_In in Hin. destruct Hin as [_ Hn].
    now apply negb_true_iff, among_oldGameIds in Hn. }
  split; [|split].
  - apply filter_ext_in. intros g Hg. now rewrite Hold.
  - intros g p Hg Hp Hid. apply filter_In. split; [exact Hp|].
    apply negb_true_iff, among_oldGameIds. rewrite Hid. now apply Hkept.
  - intros g r Hg Hr Hid. apply filter_In. split; [exact Hr|].
    apply negb_true_iff, among_oldGameIds. rewrite Hid. now apply Hkept.
Qed.

End Cleanup.

Lemma cleanupOldGames_keeps_recent_games_witness :
  map Game._id (games twoRooms) = ["g1"; "g7"] /\
  map Game._id (games (cleanupOldGames createdOn 5000 twoRooms)) = ["g7"] /\
  map Player.username (players (cleanupOldGames createdOn 5000 twoRooms)) = ["xena"].
Proof.
  split; [reflexivity|].
  destruct (cleanupOldGames_keeps_recent_games createdOn 5000%Z twoRooms) as (Hg & Hp & _).
  - vm_compute. repeat constructor; intros H; apply list_elem_of_In in H;
      simpl in H; intuition discriminate.
  - split; [rewrite Hg; reflexivity | vm_compute; reflexivity].
Defined.
